(** * Sudoku as a constraint satisfaction problem

    A shallow embedding of the solver of [notebook_Sudoku_CSP.ipynb]
    (the Spanish notebook holds the same code under translated names):
    the local deduction rules [naked_single] and [hidden_single], the
    arc-consistency engine [ac3] with [revise_arc_consistency], the
    selection heuristics [mrv] and [degree_heuristic], the backtracking
    search [solve], the groups of [generate_constraints], and [read_board]
    and [print_board] from the lines read and to the texts written.

    Python objects are rendered as follows.
    - A cell name such as ['A1'] and a candidate such as ['7'] are Python
      strings: [string].
    - A domain is a Python [set] of strings: the list of its elements in
      iteration order, without duplicates.  [discard] keeps the order of
      the remaining elements.
    - A board is a Python [dict] from cell names to domains: the list of
      its items in insertion order, without duplicate keys.  Every key owns
      its own set (this is how [read_board] and the copy in [solve] build
      boards), so a board is handled by value and an in-place update of the
      set stored under a key is an update of that item.
    - A function that mutates the board it receives returns the board as
      the call leaves it.  The second part of the definitions gives the
      search once more over a store of set objects, where a board and its
      copy can be told apart; [solve_sim] relates the two.
    - [board[k]] on a missing key raises [KeyError]; [next(iter(s))] on an
      empty set raises [StopIteration].  Loops that Python runs until a
      condition fails take a fuel argument and answer [OutOfFuel] when it
      runs out. *)

From Stdlib Require Import String Ascii List Arith Bool Lia PeanoNat Permutation.
Import ListNotations.
Local Open Scope string_scope.
Local Open Scope nat_scope.
Local Open Scope list_scope.

(** ** Outcomes of a call *)

Inductive exn : Type := KeyError | StopIteration.

Inductive outcome (A : Type) : Type :=
| Ret (a : A)
| Raise (e : exn)
| OutOfFuel.

Arguments Ret {A} a.
Arguments Raise {A} e.
Arguments OutOfFuel {A}.

Definition bind {A B : Type} (c : outcome A) (k : A -> outcome B) : outcome B :=
  match c with
  | Ret a => k a
  | Raise e => Raise e
  | OutOfFuel => OutOfFuel
  end.

Notation "x <- c ;; k" := (bind c (fun x => k))
  (at level 61, c at next level, right associativity).
Notation "' p <- c ;; k" := (bind c (fun x => let p := x in k))
  (at level 61, p pattern, c at next level, right associativity).

(** A [for] loop whose body may raise: the state is threaded through the
    elements in order, and the first exception ends the loop. *)
Fixpoint foldM {A S : Type} (f : S -> A -> outcome S) (l : list A) (s : S)
  : outcome S :=
  match l with
  | [] => Ret s
  | a :: l' => s' <- f s a ;; foldM f l' s'
  end.

(** ** Boards *)

Definition Var : Type := string.
Definition Value : Type := string.
Definition Domain : Type := list Value.
Definition Board : Type := list (Var * Domain).
Definition Group : Type := list Var.
Definition Constraints : Type := list Group.
Definition Arc : Type := (Var * Var)%type.

Definition keys (b : Board) : list Var := map fst b.

(** [board[k]] *)
Fixpoint getitem (b : Board) (k : Var) : outcome Domain :=
  match b with
  | [] => Raise KeyError
  | (k', d) :: b' => if (k' =? k)%string then Ret d else getitem b' k
  end.

(** [board[k] = d]: an existing key keeps its place, a new key is added at
    the end. *)
Fixpoint setitem (b : Board) (k : Var) (d : Domain) : Board :=
  match b with
  | [] => [(k, d)]
  | (k', d') :: b' =>
      if (k' =? k)%string then (k', d) :: b' else (k', d') :: setitem b' k d
  end.

(** [x in s] *)
Definition contains (x : Value) (s : Domain) : bool := existsb (String.eqb x) s.

(** [s.discard(x)] *)
Definition discard (x : Value) (s : Domain) : Domain :=
  filter (fun y => negb (y =? x)%string) s.

(** [next(iter(s))] *)
Definition next_iter (s : Domain) : outcome Value :=
  match s with
  | [] => Raise StopIteration
  | x :: _ => Ret x
  end.

(** [len(board[v])] for a key [v] that the enclosing loop draws from the
    board itself, where the lookup cannot fail ([len_at_key]). *)
Definition len_at (b : Board) (v : Var) : nat :=
  match getitem b v with
  | Ret d => length d
  | _ => 0
  end.

(** [{v: board[v].copy() for v in board}] *)
Definition copy_board (b : Board) : Board := map (fun kv => (fst kv, snd kv)) b.

(** ** The constraint groups: [generate_constraints] *)

Definition rows : list string := ["A"; "B"; "C"; "D"; "E"; "F"; "G"; "H"; "I"].
Definition columns : list string := ["1"; "2"; "3"; "4"; "5"; "6"; "7"; "8"; "9"].

(** [s[i:i+3]] *)
Definition slice3 {A : Type} (i : nat) (s : list A) : list A := firstn 3 (skipn i s).

Definition row_groups : Constraints :=
  map (fun row => map (fun column => (row ++ column)%string) columns) rows.

Definition column_groups : Constraints :=
  map (fun column => map (fun row => (row ++ column)%string) rows) columns.

Definition box_groups : Constraints :=
  flat_map (fun i =>
    map (fun j =>
      flat_map (fun row => map (fun column => (row ++ column)%string) (slice3 j columns))
               (slice3 i rows))
      [0; 3; 6])
    [0; 3; 6].

Definition generate_constraints : Constraints :=
  row_groups ++ column_groups ++ box_groups.

(** The 81 cell names in the order in which [read_board] inserts them. *)
Definition cells : list Var :=
  flat_map (fun row => map (fun column => (row ++ column)%string) columns) rows.

(** ** Local deduction rules *)

(** The innermost loop body of [naked_single]. *)
Definition naked_single_delete (KeyVar : Var) (b : Board) (KeyXDelete : Var)
  : outcome Board :=
  if negb (KeyXDelete =? KeyVar)%string then
    target <- getitem b KeyXDelete ;;
    source <- getitem b KeyVar ;;
    v <- next_iter source ;;
    Ret (setitem b KeyXDelete (discard v target))
  else Ret b.

Definition naked_single_var (const : Group) (b : Board) (KeyVar : Var)
  : outcome Board :=
  d <- getitem b KeyVar ;;
  if length d =? 1 then foldM (naked_single_delete KeyVar) const b else Ret b.

Definition naked_single_group (b : Board) (const : Group) : outcome Board :=
  foldM (naked_single_var const) const b.

Definition naked_single (b : Board) (constraints : Constraints) : outcome Board :=
  foldM naked_single_group constraints b.

(** The digits of ['123456789'], one string each. *)
Definition digits : list Value := columns.

(** The scan of one group for one digit: [(count, last_key)]. *)
Definition hidden_single_scan (b : Board) (digit : Value)
    (st : nat * option Var) (KeyVar : Var) : outcome (nat * option Var) :=
  d <- getitem b KeyVar ;;
  if contains digit d then Ret (S (fst st), Some KeyVar) else Ret st.

Definition hidden_single_digit (const : Group) (b : Board) (digit : Value)
  : outcome Board :=
  st <- foldM (hidden_single_scan b digit) const (0, None) ;;
  if fst st =? 1 then
    match snd st with
    | Some last_key => Ret (setitem b last_key [digit])
    | None => Ret b (* not reached: a count of 1 has set last_key *)
    end
  else Ret b.

Definition hidden_single_group (b : Board) (const : Group) : outcome Board :=
  foldM (hidden_single_digit const) digits b.

Definition hidden_single (b : Board) (constraints : Constraints) : outcome Board :=
  foldM hidden_single_group constraints b.

(** ** AC-3 *)

(** [any(x != y for y in dj)] *)
Definition supported (dj : Domain) (x : Value) : bool :=
  existsb (fun y => negb (x =? y)%string) dj.

(** One turn of the loop of [revise_arc_consistency], for the value [x] of
    the copy of [board[Xi]]; the state is [(removed, board)]. *)
Definition revise_value (Xi Xj : Var) (st : bool * Board) (x : Value)
  : outcome (bool * Board) :=
  dj <- getitem (snd st) Xj ;;
  if negb (supported dj x) then
    di <- getitem (snd st) Xi ;;
    Ret (true, setitem (snd st) Xi (discard x di))
  else Ret st.

Definition revise_arc_consistency (Xi Xj : Var) (b : Board)
  : outcome (bool * Board) :=
  di <- getitem b Xi ;;
  foldM (revise_value Xi Xj) di (false, b).

(** The initial worklist. *)
Definition arcs (constraints : Constraints) : list Arc :=
  flat_map (fun const =>
    flat_map (fun Xi =>
      flat_map (fun Xj => if negb (Xi =? Xj)%string then [(Xi, Xj)] else []) const)
      const)
    constraints.

(** The arcs appended after [Xi] has lost a value against [Xj]. *)
Definition requeue (constraints : Constraints) (Xi Xj : Var) : list Arc :=
  flat_map (fun const =>
    if existsb (String.eqb Xi) const then
      flat_map (fun Xk =>
        if negb (Xk =? Xi)%string && negb (Xk =? Xj)%string then [(Xk, Xi)] else [])
        const
    else [])
    constraints.

(** What one turn of the [while queue] loop leaves behind. *)
Inductive ac3_state : Type :=
| Continue (queue : list Arc) (b : Board)
| Return (r : bool) (b : Board).

Definition ac3_step (constraints : Constraints) (queue : list Arc) (b : Board)
  : outcome ac3_state :=
  match queue with
  | [] => Ret (Return true b)
  | (Xi, Xj) :: queue' =>
      rb <- revise_arc_consistency Xi Xj b ;;
      if fst rb then
        di <- getitem (snd rb) Xi ;;
        if length di =? 0 then Ret (Return false (snd rb))
        else Ret (Continue (queue' ++ requeue constraints Xi Xj) (snd rb))
      else Ret (Continue queue' (snd rb))
  end.

Fixpoint ac3_loop (fuel : nat) (constraints : Constraints)
    (queue : list Arc) (b : Board) : outcome (bool * Board) :=
  match fuel with
  | 0 => OutOfFuel
  | S fuel' =>
      st <- ac3_step constraints queue b ;;
      match st with
      | Return r b' => Ret (r, b')
      | Continue queue' b' => ac3_loop fuel' constraints queue' b'
      end
  end.

(** The number of candidates left on the board. *)
Definition total_size (b : Board) : nat :=
  list_sum (map (fun kv => length (snd kv)) b).

(** The number of cell occurrences in the groups: no more arcs than this
    are appended in one turn. *)
Definition group_cells (constraints : Constraints) : nat :=
  list_sum (map (@length Var) constraints).

(** A number of turns after which the loop of [ac3] has returned
    ([ac3_loop_terminates]). *)
Definition ac3_fuel (constraints : Constraints) (b : Board) : nat :=
  S (total_size b * S (group_cells constraints) + length (arcs constraints)).

Definition ac3 (b : Board) (constraints : Constraints) : outcome (bool * Board) :=
  ac3_loop (ac3_fuel constraints b) constraints (arcs constraints) b.

(** ** Heuristics *)

(** [min(it, key=..., default=None)]: the first element whose key is least. *)
Definition py_min {A : Type} (key : A -> nat) (l : list A) : option A :=
  fold_left (fun best x =>
    match best with
    | None => Some x
    | Some m => if key x <? key m then Some x else Some m
    end) l None.

(** [max(it, key=..., default=None)]: the first element whose key is
    greatest. *)
Definition py_max {A : Type} (key : A -> nat) (l : list A) : option A :=
  fold_left (fun best x =>
    match best with
    | None => Some x
    | Some m => if key m <? key x then Some x else Some m
    end) l None.

(** [(v for v in board if len(board[v]) > 1)] *)
Definition unassigned (b : Board) : list Var :=
  filter (fun v => 1 <? len_at b v) (keys b).

Definition mrv (b : Board) : option Var :=
  py_min (fun x => len_at b x) (unassigned b).

(** [sum(1 for c in constraints if x in c)] *)
Definition degree (constraints : Constraints) (x : Var) : nat :=
  length (filter (fun c => existsb (String.eqb x) c) constraints).

Definition degree_heuristic (b : Board) (constraints : Constraints) : option Var :=
  py_max (degree constraints) (unassigned b).

(** ** Backtracking search *)

Definition is_board_complete (b : Board) : bool :=
  forallb (fun var => len_at b var =? 1) (keys b).

(** Truth value of a cell name or [None]: the empty string and [None] are
    false. *)
Definition truthy_var (v : option Var) : bool :=
  match v with
  | Some s => negb (s =? "")%string
  | None => false
  end.

(** [x or y] *)
Definition py_or (x y : option Var) : option Var :=
  if truthy_var x then x else y.

(** Truth value of a board or [None]: the empty dict and [None] are false. *)
Definition truthy_board (s : option Board) : bool :=
  match s with
  | Some (_ :: _) => true
  | _ => false
  end.

(** The loop of [solve] over the copy of [board[var]]; [search] is the
    recursive call. *)
Fixpoint try_values (search : Board -> outcome (option Board)) (b : Board)
    (constraints : Constraints) (var : Var) (values : list Value)
  : outcome (option Board) :=
  match values with
  | [] => Ret None
  | value :: values' =>
      let board_copy := setitem (copy_board b) var [value] in
      rb <- ac3 board_copy constraints ;;
      if fst rb then
        solution <- search (snd rb) ;;
        if truthy_board solution then Ret solution
        else try_values search b constraints var values'
      else try_values search b constraints var values'
  end.

(** [solve]; [fuel] bounds the depth of the recursion.  The trace that
    [verbose] prints is not part of the state and is left out. *)
Fixpoint solve (fuel : nat) (b : Board) (constraints : Constraints)
  : outcome (option Board) :=
  match fuel with
  | 0 => OutOfFuel
  | S fuel' =>
      if is_board_complete b then Ret (Some b)
      else
        let var := py_or (mrv b) (degree_heuristic b constraints) in
        if negb (truthy_var var) then Ret None
        else
          match var with
          | None => Ret None
          | Some var =>
              values <- getitem b var ;;
              try_values (fun b' => solve fuel' b' constraints)
                         b constraints var values
          end
  end.

(** A depth that [solve] does not exceed ([solve_returns]): every level
    fixes one more cell. *)
Definition solve_fuel (b : Board) : nat := S (length (unassigned b)).

(** ** Building boards: the pure part of [read_board] *)

Fixpoint dedup (l : list Value) : list Value :=
  match l with
  | [] => []
  | x :: l' => x :: filter (fun y => negb (y =? x)%string) (dedup l')
  end.

Definition chars (s : string) : list Value :=
  map (fun c => String c EmptyString) (list_ascii_of_string s).

(** [set(options) if len(options) > 1 else {options}] *)
Definition parse_cell (options : string) : Domain :=
  if 1 <? String.length options then dedup (chars options) else [options].

(** The board that [read_board] builds from 81 stripped lines. *)
Definition board_of_lines (lines : list string) : Board :=
  combine cells (map parse_cell lines).

(** ** Reading a board: [read_board]

    The model starts from the lines that [file.readlines()] gives; opening
    the file is outside it.  A string is a list of characters below 256. *)

(** What [read_board] can raise once the file is open. *)
Inductive read_exn : Type := ValueError | IndexError.

(** [c.isspace()]: tab to carriage return, the four separators, the space,
    next line and the no-break space. *)
Definition py_isspace (c : ascii) : bool :=
  let n := nat_of_ascii c in
  ((9 <=? n) && (n <=? 13)) || ((28 <=? n) && (n <=? 32))
  || (n =? 133) || (n =? 160).

(** [s.lstrip()] *)
Fixpoint lstrip (s : string) : string :=
  match s with
  | EmptyString => EmptyString
  | String c s' => if py_isspace c then lstrip s' else s
  end.

(** [s.rstrip()] *)
Fixpoint rstrip (s : string) : string :=
  match s with
  | EmptyString => EmptyString
  | String c s' =>
      match rstrip s' with
      | EmptyString => if py_isspace c then EmptyString else String c EmptyString
      | r => String c r
      end
  end.

(** [s.strip()] *)
Definition strip (s : string) : string := rstrip (lstrip s).

(** [s[i]] for [0 <= i], on a string given by its characters. *)
Definition index (s : list string) (i : nat) : read_exn + string :=
  match nth_error s i with
  | Some c => inr c
  | None => inl IndexError
  end.

(** One turn of the loop over [enumerate(lines)]. *)
Definition read_line (b : Board) (il : nat * string) : read_exn + Board :=
  match index rows (fst il / 9) with
  | inl e => inl e
  | inr row =>
      match index columns (fst il mod 9) with
      | inl e => inl e
      | inr column =>
          let cell := (row ++ column)%string in
          let options := strip (snd il) in
          inr (setitem b cell (parse_cell options))
      end
  end.

Fixpoint read_lines (b : Board) (ils : list (nat * string)) : read_exn + Board :=
  match ils with
  | [] => inr b
  | il :: ils' =>
      match read_line b il with
      | inl e => inl e
      | inr b' => read_lines b' ils'
      end
  end.

Definition read_board (lines : list string) : read_exn + Board :=
  if negb (length lines =? 81) then inl ValueError
  else read_lines [] (combine (seq 0 (length lines)) lines).

(** ** Printing a board: [print_board]

    The result is the list of the texts written to standard output, one for
    each call of [print], and the way the call ends. *)

Definition newline : string := String "010"%char EmptyString.

(** [''.join(d) if len(d) == 1 else '.'] *)
Definition print_field (d : Domain) : string :=
  if length d =? 1 then String.concat "" d else ".".

(** The loop over [columns] and the [print()] that ends the row. *)
Fixpoint print_row (b : Board) (row : string) (cols : list string)
  : list string * outcome unit :=
  match cols with
  | [] => ([newline], Ret tt)
  | column :: cols' =>
      match getitem b (row ++ column)%string with
      | Ret d =>
          let rest := print_row b row cols' in
          ((print_field d ++ " ")%string :: fst rest, snd rest)
      | Raise e => ([], Raise e)
      | OutOfFuel => ([], OutOfFuel)
      end
  end.

Fixpoint print_rows (b : Board) (rws : list string)
  : list string * outcome unit :=
  match rws with
  | [] => ([], Ret tt)
  | row :: rws' =>
      match print_row b row columns with
      | (out, Ret _) =>
          let rest := print_rows b rws' in (out ++ fst rest, snd rest)
      | (out, r) => (out, r)
      end
  end.

Definition print_board (b : Board) : list string * outcome unit :=
  print_rows b rows.

(** What a line of the file looks like once read and printed: a line of at
    most one character as it is, a line that repeats one character as that
    character, any other line as a dot. *)
Definition shown (options : string) : string :=
  match options with
  | EmptyString => EmptyString
  | String c EmptyString => options
  | String c rest =>
      if forallb (Ascii.eqb c) (list_ascii_of_string rest)
      then String c EmptyString else "."
  end.

(** The texts of a grid of 81 fields: nine rows of nine fields, each
    followed by a space, and a new line after each row. *)
Definition grid_text (fields : list string) : list string :=
  flat_map (fun r =>
    map (fun c => (nth (9 * r + c) fields "" ++ " ")%string) (seq 0 9)
    ++ [newline])
    (seq 0 9).

(** ** Well-formed boards *)

Fixpoint nodupb (l : list string) : bool :=
  match l with
  | [] => true
  | x :: l' => negb (contains x l') && nodupb l'
  end.

(** A board of the 81 cells: the keys are the cell names, each once, and
    no domain lists a candidate twice. *)
Definition board_okb (b : Board) : bool :=
  nodupb (keys b)
  && forallb (fun k => contains k cells) (keys b)
  && forallb (fun c => contains c (keys b)) cells
  && forallb (fun kv => nodupb (snd kv)) b.

Definition board_ok (b : Board) : Prop := board_okb b = true.

(** Every cell named by a group has an entry on the board. *)
Definition covers (constraints : Constraints) (b : Board) : Prop :=
  forall g k, In g constraints -> In k g -> In k (keys b).

(** Every candidate on the board is one of the digits 1 to 9. *)
Definition digits_only (b : Board) : bool :=
  forallb (fun kv => forallb (fun v => contains v digits) (snd kv)) b.

(** Some domain of the board holds a candidate. *)
Definition some_candidate (b : Board) : bool :=
  existsb (fun kv => 0 <? length (snd kv)) b.

(** No domain of the board is empty. *)
Definition no_empty_domain (b : Board) : bool :=
  forallb (fun kv => 0 <? length (snd kv)) b.

(** ** Boards with fewer candidates *)

(** [d'] is [d] with some elements taken out, the others left in order. *)
Inductive subseq {A : Type} : list A -> list A -> Prop :=
| subseq_nil : subseq [] []
| subseq_skip x l1 l2 : subseq l1 l2 -> subseq l1 (x :: l2)
| subseq_cons x l1 l2 : subseq l1 l2 -> subseq (x :: l1) (x :: l2).

(** [b'] has the keys of [b], in the same order, and under each key what is
    left of the domain in [b] after removing some candidates. *)
Definition shrinks (b' b : Board) : Prop :=
  Forall2 (fun kv' kv => fst kv' = fst kv /\ subseq (snd kv') (snd kv)) b' b.

(** [b'] has the cells of [b] and no candidate that [b] does not have. *)
Definition within (b' b : Board) : Prop :=
  keys b' = keys b /\
  forall k d', getitem b' k = Ret d' ->
    exists d, getitem b k = Ret d /\ incl d' d.

(** ** Assignments and solved boards *)

(** An assignment picks its value for every cell from the cell's domain. *)
Definition chooses (sigma : Var -> Value) (b : Board) : bool :=
  forallb (fun kv => contains (sigma (fst kv)) (snd kv)) b.

(** An assignment gives different values to different cells of a group. *)
Definition satisfies (sigma : Var -> Value) (constraints : Constraints) : bool :=
  forallb (fun g =>
    forallb (fun Xi =>
      forallb (fun Xj => (Xi =? Xj)%string || negb (sigma Xi =? sigma Xj)%string) g)
      g)
    constraints.

(** The assignment read off a complete board; [""] where there is no
    single candidate. *)
Definition assignment_of (b : Board) (k : Var) : Value :=
  match getitem b k with
  | Ret [v] => v
  | _ => ""
  end.

(** The values on a complete board differ within every Sudoku group. *)
Definition valid_board (b : Board) : Prop :=
  satisfies (assignment_of b) generate_constraints = true.

(** What [solve] answers with [s] on the board [b]: a complete board made
    of candidates of [b] whose values differ within every group. *)
Definition solved_from (b s : Board) : Prop :=
  shrinks s b /\ is_board_complete s = true /\ valid_board s.

(** ** Arcs *)

(** An arc of the worklist: two different cells of one group. *)
Definition arc_ok (constraints : Constraints) (a : Arc) : Prop :=
  fst a <> snd a /\ exists g, In g constraints /\ In (fst a) g /\ In (snd a) g.

(** Every value of [board[Xi]] differs from some value of [board[Xj]]. *)
Definition arc_consistent (b : Board) (a : Arc) : Prop :=
  forall di dj, getitem b (fst a) = Ret di -> getitem b (snd a) = Ret dj ->
    forall x, In x di -> exists y, In y dj /\ y <> x.

(** Every arc is on the worklist or consistent. *)
Definition pending_or_consistent (cs : Constraints) (q : list Arc) (b : Board)
  : Prop :=
  forall a, arc_ok cs a -> In a q \/ arc_consistent b a.

(** The values of [l] that a revision against [dj] discards. *)
Definition dropped (dj : Domain) (l : list Value) (y : Value) : bool :=
  existsb (fun x => negb (supported dj x) && (y =? x)%string) l.

(** The state that a turn of the loop on the arc [(Xi, Xj)] leads to, from
    the two domains. *)
Definition ac3_next (cs : Constraints) (Xi Xj : Var) (q : list Arc) (b : Board)
    (di dj : Domain) : ac3_state :=
  if forallb (supported dj) di then Continue q b
  else if length (filter (supported dj) di) =? 0
       then Return false (setitem b Xi (filter (supported dj) di))
       else Continue (q ++ requeue cs Xi Xj) (setitem b Xi (filter (supported dj) di)).

(** Two cells share a group. *)
Definition linked (cs : Constraints) (a c : Var) : bool :=
  existsb (fun g => contains a g && contains c g) cs.

(** The cell in the row of [a] and the column of [c]. *)
Definition corner (a c : Var) : Var :=
  (substring 0 1 a ++ substring 1 1 c)%string.

(** Two cells share a group, or both share a group with the cell in the row
    of the first and the column of the second. *)
Definition near (cs : Constraints) (a c : Var) : bool :=
  if linked cs a c then true
  else negb (corner a c =? a)%string && negb (corner a c =? c)%string
       && linked cs a (corner a c) && linked cs (corner a c) c.

(** ** Repeated passes of a rule *)

(** One pass of each local rule with the Sudoku groups. *)
Definition naked_pass (b : Board) : outcome Board :=
  naked_single b generate_constraints.

Definition hidden_pass (b : Board) : outcome Board :=
  hidden_single b generate_constraints.

(** [f] applied [n] times to a board, stopping at the first exception. *)
Fixpoint repeat_pass (f : Board -> outcome Board) (n : nat) (b : Board)
  : outcome Board :=
  match n with
  | 0 => Ret b
  | S n' => b' <- f b ;; repeat_pass f n' b'
  end.

(** ** The store of set objects

    The functions above handle a board by value.  Whether a call can change
    a board that its caller still holds depends on which set objects the two
    boards share, so the functions that the search runs are given once more
    over a store: a set is a location of the store, a board maps cell names
    to locations, [discard] writes the store, [copy] and a set display
    allocate.  The dict that [solve] fills is its own fresh dict; it is
    built by value. *)

Definition Heap : Type := list Domain.
Definition HBoard : Type := list (Var * nat).

Definition St (A : Type) : Type := Heap -> outcome (A * Heap).

Definition ret {A : Type} (a : A) : St A := fun h => Ret (a, h).

Definition bindS {A B : Type} (c : St A) (k : A -> St B) : St B :=
  fun h =>
    match c h with
    | Ret (a, h') => k a h'
    | Raise e => Raise e
    | OutOfFuel => OutOfFuel
    end.

Notation "x <~ c ;; k" := (bindS c (fun x => k))
  (at level 61, c at next level, right associativity).

Fixpoint replace_nth {A : Type} (n : nat) (x : A) (l : list A) {struct l}
  : list A :=
  match l, n with
  | [], _ => []
  | _ :: l', 0 => x :: l'
  | y :: l', S n' => y :: replace_nth n' x l'
  end.

(** The elements of the set at [l]; a board only holds allocated
    locations. *)
Definition read (l : nat) : St Domain := fun h => Ret (nth l h [], h).

(** The set at [l] becomes [d]. *)
Definition write (l : nat) (d : Domain) : St unit :=
  fun h => Ret (tt, replace_nth l d h).

(** A new set object. *)
Definition alloc (d : Domain) : St nat := fun h => Ret (length h, h ++ [d]).

(** [board[k]]: the set object under [k]. *)
Fixpoint h_lookup (b : HBoard) (k : Var) : St nat :=
  match b with
  | [] => fun _ => Raise KeyError
  | (k', l) :: b' => if (k' =? k)%string then ret l else h_lookup b' k
  end.

(** [board[k] = s] for the set object [s] *)
Fixpoint h_setitem (b : HBoard) (k : Var) (l : nat) : HBoard :=
  match b with
  | [] => [(k, l)]
  | (k', l') :: b' =>
      if (k' =? k)%string then (k', l) :: b' else (k', l') :: h_setitem b' k l
  end.

Fixpoint foldS {A S : Type} (f : S -> A -> St S) (l : list A) (s : S) : St S :=
  match l with
  | [] => ret s
  | a :: l' => s' <~ f s a ;; foldS f l' s'
  end.

Fixpoint mapS {A B : Type} (f : A -> St B) (l : list A) : St (list B) :=
  match l with
  | [] => ret []
  | a :: l' => x <~ f a ;; xs <~ mapS f l' ;; ret (x :: xs)
  end.

(** The board that a dict of set objects stands for. *)
Definition view (b : HBoard) (h : Heap) : Board :=
  map (fun kl => (fst kl, nth (snd kl) h [])) b.

Definition locs (b : HBoard) : list nat := map snd b.

(** [len(board[v])] *)
Definition h_len (b : HBoard) (v : Var) : St nat :=
  l <~ h_lookup b v ;; d <~ read l ;; ret (length d).

Definition h_revise_value (Xi Xj : Var) (b : HBoard) (removed : bool) (x : Value)
  : St bool :=
  lj <~ h_lookup b Xj ;;
  dj <~ read lj ;;
  if negb (supported dj x) then
    li <~ h_lookup b Xi ;;
    di <~ read li ;;
    _ <~ write li (discard x di) ;;
    ret true
  else ret removed.

Definition h_revise_arc_consistency (Xi Xj : Var) (b : HBoard) : St bool :=
  li <~ h_lookup b Xi ;;
  di <~ read li ;;
  foldS (h_revise_value Xi Xj b) di false.

Inductive h_ac3_state : Type :=
| HContinue (queue : list Arc)
| HReturn (r : bool).

Definition h_ac3_step (constraints : Constraints) (queue : list Arc) (b : HBoard)
  : St h_ac3_state :=
  match queue with
  | [] => ret (HReturn true)
  | (Xi, Xj) :: queue' =>
      removed <~ h_revise_arc_consistency Xi Xj b ;;
      if removed then
        n <~ h_len b Xi ;;
        if n =? 0 then ret (HReturn false)
        else ret (HContinue (queue' ++ requeue constraints Xi Xj))
      else ret (HContinue queue')
  end.

Fixpoint h_ac3_loop (fuel : nat) (constraints : Constraints)
    (queue : list Arc) (b : HBoard) : St bool :=
  match fuel with
  | 0 => fun _ => OutOfFuel
  | S fuel' =>
      st <~ h_ac3_step constraints queue b ;;
      match st with
      | HReturn r => ret r
      | HContinue queue' => h_ac3_loop fuel' constraints queue' b
      end
  end.

Definition h_ac3 (b : HBoard) (constraints : Constraints) : St bool :=
  fun h => h_ac3_loop (ac3_fuel constraints (view b h)) constraints
             (arcs constraints) b h.

(** [(v for v in board if len(board[v]) > 1)], each with its [len]. *)
Definition h_unassigned (b : HBoard) : St (list (Var * nat)) :=
  sized <~ mapS (fun v => n <~ h_len b v ;; ret (v, n)) (map fst b) ;;
  ret (filter (fun vn => 1 <? snd vn) sized).

Definition h_mrv (b : HBoard) : St (option Var) :=
  us <~ h_unassigned b ;;
  ret (option_map fst (py_min snd us)).

Definition h_degree_heuristic (b : HBoard) (constraints : Constraints)
  : St (option Var) :=
  us <~ h_unassigned b ;;
  ret (py_max (degree constraints) (map fst us)).

Definition h_is_board_complete (b : HBoard) : St bool :=
  sizes <~ mapS (h_len b) (map fst b) ;;
  ret (forallb (fun n => n =? 1) sizes).

(** [{v: board[v].copy() for v in board}] *)
Definition h_copy_board (b : HBoard) : St HBoard :=
  mapS (fun v => l <~ h_lookup b v ;; d <~ read l ;; l' <~ alloc d ;; ret (v, l'))
       (map fst b).

Definition truthy_hboard (s : option HBoard) : bool :=
  match s with
  | Some (_ :: _) => true
  | _ => false
  end.

Fixpoint h_try_values (search : HBoard -> St (option HBoard)) (b : HBoard)
    (constraints : Constraints) (var : Var) (values : list Value)
  : St (option HBoard) :=
  match values with
  | [] => ret None
  | value :: values' =>
      board_copy <~ h_copy_board b ;;
      s <~ alloc [value] ;;
      let board_copy := h_setitem board_copy var s in
      ok <~ h_ac3 board_copy constraints ;;
      if ok then
        solution <~ search board_copy ;;
        if truthy_hboard solution then ret solution
        else h_try_values search b constraints var values'
      else h_try_values search b constraints var values'
  end.

Fixpoint h_solve (fuel : nat) (b : HBoard) (constraints : Constraints)
  : St (option HBoard) :=
  match fuel with
  | 0 => fun _ => OutOfFuel
  | S fuel' =>
      complete <~ h_is_board_complete b ;;
      if complete then ret (Some b)
      else
        m <~ h_mrv b ;;
        var <~ (if truthy_var m then ret m else h_degree_heuristic b constraints) ;;
        if negb (truthy_var var) then ret None
        else
          match var with
          | None => ret None
          | Some var =>
              l <~ h_lookup b var ;;
              values <~ read l ;;
              h_try_values (fun b' => h_solve fuel' b' constraints)
                           b constraints var values
          end
  end.

(** A board whose sets are the first objects of a store, one per cell. *)
Definition store_board (b : Board) : HBoard * Heap :=
  (combine (keys b) (seq 0 (length b)), map snd b).

(** The state by value that a state over the store stands for. *)
Definition view_state (st : h_ac3_state) (B : Board) : ac3_state :=
  match st with
  | HContinue q => Continue q B
  | HReturn r => Return r B
  end.

(** The result by value that a result over the store stands for. *)
Definition view_result (res : option HBoard) (h : Heap) : option Board :=
  option_map (fun s => view s h) res.

(** The domain under [v], empty where there is none. *)
Definition dom_of (b : Board) (v : Var) : Domain :=
  match getitem b v with
  | Ret d => d
  | _ => []
  end.

(** [h'] has the objects of [h], those below [n] unchanged. *)
Definition ext (n : nat) (h h' : Heap) : Prop :=
  length h <= length h' /\ forall l, l < n -> nth l h' [] = nth l h [].

(** [h'] differs from [h] at most in the objects at [L]. *)
Definition touched (L : list nat) (h h' : Heap) : Prop :=
  length h' = length h /\ forall l, ~ In l L -> nth l h' [] = nth l h [].

(** A dict of set objects of a store of [n] objects: no key twice, no
    object under two keys. *)
Definition hwf (b : HBoard) (n : nat) : Prop :=
  NoDup (map fst b) /\ NoDup (locs b) /\ forall l, In l (locs b) -> l < n.

Fixpoint nodup_nat (l : list nat) : bool :=
  match l with
  | [] => true
  | x :: l' => negb (existsb (Nat.eqb x) l') && nodup_nat l'
  end.

(** A board of the 81 cells held in a store: each cell has its own set
    object, and the sets are those of a well-formed board. *)
Definition store_okb (b : HBoard) (h : Heap) : bool :=
  nodup_nat (locs b)
  && forallb (fun l => l <? length h) (locs b)
  && board_okb (view b h).

Definition store_ok (b : HBoard) (h : Heap) : Prop := store_okb b h = true.

(** ** Boards used as examples *)

(** The puzzle solved in the notebook; a blank cell holds all nine
    candidates. *)
Definition example_rows : list string :=
  [".6..5...4"; "..9......"; "715......"; "..3.1...5"; "...7.32..";
   "8.1.45.9."; "..7...9.."; "2.8...54."; "6..92.7.."].

Definition grid_lines (grid : list string) : list string :=
  flat_map (fun r =>
    map (fun c => if Ascii.eqb c "."%char then "123456789"
                  else String c EmptyString)
        (list_ascii_of_string r))
    grid.

Definition example_board : Board := board_of_lines (grid_lines example_rows).

(** The solution that the notebook prints. *)
Definition example_solution : Board :=
  board_of_lines (grid_lines
    ["362859174"; "489137652"; "715462839"; "973218465"; "546793218";
     "821645397"; "137584926"; "298376541"; "654921783"]).

(** 81 lines that all read [1]. *)
Definition ones_board : Board := board_of_lines (repeat "1" 81).

(** Every domain empty. *)
Definition empty_board : Board := map (fun c => (c, @nil Value)) cells.

(** [A1] and [A2] both hold the single candidate [1]. *)
Definition clash_board : Board :=
  board_of_lines (["1"; "1"] ++ repeat "123456789" 79).

(** [A1 = {1,2}], [A2 = {1}], [A3 = {2,3}]. *)
Definition naked_board : Board :=
  board_of_lines (["12"; "1"; "23"] ++ repeat "123456789" 78).

(** [A1 = {1,2}], [A2 = {1,3}], no [1] or [2] elsewhere in row [A]. *)
Definition hidden_board : Board :=
  board_of_lines (["12"; "13"] ++ repeat "3456789" 7 ++ repeat "123456789" 72).

(** * Properties *)

(** ** Lists, strings and the outcome monad *)

Lemma contains_In x s : contains x s = true <-> In x s.
Proof.
  unfold contains. rewrite existsb_exists. split.
  - intros [y [Hy E]]. apply String.eqb_eq in E. subst. exact Hy.
  - intros H. exists x. split; [exact H | apply String.eqb_refl].
Qed.

Lemma contains_false x s : contains x s = false <-> ~ In x s.
Proof.
  rewrite <- contains_In. destruct (contains x s); split; intros; congruence.
Qed.

Lemma nodupb_NoDup l : nodupb l = true <-> NoDup l.
Proof.
  induction l as [|x l IH]; simpl.
  - split; [constructor | reflexivity].
  - rewrite andb_true_iff, negb_true_iff, contains_false, IH. split.
    + intros [H1 H2]. constructor; assumption.
    + intros H. inversion H; subst. split; assumption.
Qed.

Lemma bind_Ret {A B} (c : outcome A) (k : A -> outcome B) b :
  bind c k = Ret b -> exists a, c = Ret a /\ k a = Ret b.
Proof. destruct c; simpl; intros H; try discriminate. eauto. Qed.

Lemma foldM_app {A S} (f : S -> A -> outcome S) l1 l2 s :
  foldM f (l1 ++ l2) s = (s' <- foldM f l1 s ;; foldM f l2 s').
Proof.
  revert s. induction l1 as [|a l1 IH]; intros s; simpl; [reflexivity|].
  destruct (f s a); simpl; auto.
Qed.

(** A loop whose body keeps an invariant and does not raise ends normally,
    in a state that satisfies the invariant. *)
Lemma foldM_invariant {A S} (P : S -> Prop) (f : S -> A -> outcome S) l :
  (forall s a, In a l -> P s -> exists s', f s a = Ret s' /\ P s') ->
  forall s, P s -> exists s', foldM f l s = Ret s' /\ P s'.
Proof.
  induction l as [|a l IH]; intros Hf s Hs; simpl.
  - eauto.
  - destruct (Hf s a (or_introl eq_refl) Hs) as [s1 [E1 P1]].
    rewrite E1. simpl. apply IH; [|exact P1].
    intros s2 a2 Hin. apply Hf. right. exact Hin.
Qed.

(** ** Subsequences *)

Lemma subseq_refl {A} (l : list A) : subseq l l.
Proof. induction l; constructor; assumption. Qed.

Lemma subseq_nil_l {A} (l : list A) : subseq [] l.
Proof. induction l; constructor; assumption. Qed.

Lemma subseq_trans {A} (l1 l2 l3 : list A) :
  subseq l1 l2 -> subseq l2 l3 -> subseq l1 l3.
Proof.
  intros H12 H23. revert l1 H12.
  induction H23 as [|x l2 l3 H IH|x l2 l3 H IH]; intros l1 H12.
  - exact H12.
  - constructor. apply IH. exact H12.
  - inversion H12; subst.
    + constructor. apply IH. assumption.
    + apply subseq_cons. apply IH. assumption.
Qed.

Lemma subseq_filter {A} (f : A -> bool) (l : list A) : subseq (filter f l) l.
Proof.
  induction l as [|x l IH]; simpl; [constructor|].
  destruct (f x); constructor; assumption.
Qed.

Lemma subseq_In {A} (l1 l2 : list A) x : subseq l1 l2 -> In x l1 -> In x l2.
Proof.
  induction 1 as [|y l1 l2 H IH|y l1 l2 H IH]; simpl; intros Hin; auto.
  destruct Hin; auto.
Qed.

Lemma subseq_length {A} (l1 l2 : list A) : subseq l1 l2 -> length l1 <= length l2.
Proof. induction 1; simpl; lia. Qed.

Lemma subseq_length_eq {A} (l1 l2 : list A) :
  subseq l1 l2 -> length l1 = length l2 -> l1 = l2.
Proof.
  induction 1 as [|y l1 l2 H IH|y l1 l2 H IH]; simpl; intros E.
  - reflexivity.
  - apply subseq_length in H. lia.
  - f_equal. apply IH. lia.
Qed.

Lemma subseq_single {A} (x : A) l : In x l -> subseq [x] l.
Proof.
  induction l as [|y l IH]; simpl; intros H; [contradiction|].
  destruct H as [->|H].
  - apply subseq_cons. apply subseq_nil_l.
  - constructor. apply IH. exact H.
Qed.

Lemma subseq_NoDup {A} (l1 l2 : list A) : subseq l1 l2 -> NoDup l2 -> NoDup l1.
Proof.
  induction 1 as [|y l1 l2 H IH|y l1 l2 H IH]; intros N.
  - constructor.
  - inversion N; subst. auto.
  - inversion N; subst. constructor; auto.
    intros Hin. apply H2. eapply subseq_In; eassumption.
Qed.

Lemma subseq_discard x d : subseq (discard x d) d.
Proof. apply subseq_filter. Qed.

(** ** Dictionary operations *)

Lemma getitem_In b k : In k (keys b) -> exists d, getitem b k = Ret d.
Proof.
  induction b as [|[k' d'] b IH]; simpl; intros H; [contradiction|].
  destruct (String.eqb_spec k' k) as [E|N]; [eauto|].
  destruct H as [H|H]; [contradiction|auto].
Qed.

Lemma getitem_Ret_In b k d : getitem b k = Ret d -> In (k, d) b.
Proof.
  induction b as [|[k' d'] b IH]; simpl; intros H; [discriminate|].
  destruct (String.eqb_spec k' k) as [E|N].
  - inversion H; subst. left. reflexivity.
  - right. auto.
Qed.

Lemma getitem_Ret_key b k d : getitem b k = Ret d -> In k (keys b).
Proof.
  intros H. apply getitem_Ret_In in H. unfold keys.
  change k with (fst (k, d)). apply in_map. exact H.
Qed.

Lemma getitem_not_OutOfFuel b k : getitem b k <> OutOfFuel.
Proof.
  induction b as [|[k' d'] b IH]; simpl; [discriminate|].
  destruct (k' =? k)%string; [discriminate|exact IH].
Qed.

Lemma In_getitem b k d : NoDup (keys b) -> In (k, d) b -> getitem b k = Ret d.
Proof.
  induction b as [|[k' d'] b IH]; simpl; intros N H; [contradiction|].
  inversion N; subst.
  destruct H as [H|H].
  - inversion H; subst. rewrite String.eqb_refl. reflexivity.
  - destruct (String.eqb_spec k' k) as [E|Ne].
    + subst. exfalso. apply H2. change k with (fst (k, d)). apply in_map. exact H.
    + auto.
Qed.

Lemma keys_setitem b k d : In k (keys b) -> keys (setitem b k d) = keys b.
Proof.
  induction b as [|[k' d'] b IH]; simpl; intros H; [contradiction|].
  destruct (String.eqb_spec k' k) as [E|N]; simpl; [reflexivity|].
  f_equal. apply IH. destruct H; [contradiction|assumption].
Qed.

Lemma getitem_setitem_eq b k d : getitem (setitem b k d) k = Ret d.
Proof.
  induction b as [|[k' d'] b IH]; simpl.
  - rewrite String.eqb_refl. reflexivity.
  - destruct (String.eqb_spec k' k) as [E|N]; simpl.
    + subst. rewrite String.eqb_refl. reflexivity.
    + apply String.eqb_neq in N. rewrite N. exact IH.
Qed.

Lemma getitem_setitem_neq b k k' d :
  k <> k' -> getitem (setitem b k d) k' = getitem b k'.
Proof.
  intros Hne. induction b as [|[k0 d0] b IH]; simpl.
  - apply String.eqb_neq in Hne. rewrite Hne. reflexivity.
  - destruct (String.eqb_spec k0 k) as [E|N]; simpl.
    + subst. apply String.eqb_neq in Hne. rewrite Hne. reflexivity.
    + rewrite IH. reflexivity.
Qed.

Lemma setitem_same b k d : getitem b k = Ret d -> setitem b k d = b.
Proof.
  induction b as [|[k' d'] b IH]; simpl; intros H; [discriminate|].
  destruct (String.eqb_spec k' k) as [E|N].
  - inversion H; subst. reflexivity.
  - f_equal. auto.
Qed.

Lemma setitem_setitem b k d1 d2 :
  setitem (setitem b k d1) k d2 = setitem b k d2.
Proof.
  induction b as [|[k' d'] b IH]; simpl.
  - rewrite String.eqb_refl. reflexivity.
  - destruct (String.eqb_spec k' k) as [E|N]; simpl.
    + subst. rewrite String.eqb_refl. reflexivity.
    + apply String.eqb_neq in N. rewrite N. f_equal. exact IH.
Qed.

Lemma copy_board_id b : copy_board b = b.
Proof.
  unfold copy_board. induction b as [|[k d] b IH]; simpl; [reflexivity|].
  f_equal. exact IH.
Qed.

Lemma len_at_key b k : In k (keys b) ->
  exists d, getitem b k = Ret d /\ len_at b k = length d.
Proof.
  intros H. destruct (getitem_In b k H) as [d E].
  exists d. split; [exact E|]. unfold len_at. rewrite E. reflexivity.
Qed.

Lemma total_size_setitem b k d d' :
  getitem b k = Ret d ->
  total_size (setitem b k d') + length d = total_size b + length d'.
Proof.
  unfold total_size. induction b as [|[k0 d0] b IH]; simpl; intros H; [discriminate|].
  destruct (String.eqb_spec k0 k) as [E|N]; simpl.
  - inversion H; subst. lia.
  - specialize (IH H). lia.
Qed.

(** ** Shrinking *)

Lemma shrinks_refl b : shrinks b b.
Proof.
  unfold shrinks. induction b; constructor; auto using subseq_refl.
Qed.

Lemma shrinks_trans b1 b2 b3 : shrinks b1 b2 -> shrinks b2 b3 -> shrinks b1 b3.
Proof.
  unfold shrinks. intros H12. revert b3.
  induction H12 as [|x y l1 l2 [Hk Hs] H IH]; intros b3 H23; inversion H23; subst.
  - constructor.
  - constructor; [|apply IH; assumption].
    destruct H2 as [Hk' Hs']. split; [congruence|].
    eapply subseq_trans; eassumption.
Qed.

Lemma shrinks_keys b' b : shrinks b' b -> keys b' = keys b.
Proof.
  unfold shrinks, keys. induction 1 as [|x y l1 l2 [Hk Hs] H IH]; simpl;
    [reflexivity|]. f_equal; assumption.
Qed.

Lemma shrinks_getitem b' b k d :
  shrinks b' b -> getitem b k = Ret d ->
  exists d', getitem b' k = Ret d' /\ subseq d' d.
Proof.
  unfold shrinks. induction 1 as [|[k1 d1] [k2 d2] l1 l2 [Hk Hs] H IH]; simpl;
    intros E; [discriminate|].
  simpl in Hk, Hs. subst k2.
  destruct (k1 =? k)%string.
  - inversion E; subst. eauto.
  - auto.
Qed.

Lemma shrinks_getitem_inv b' b k d' :
  shrinks b' b -> getitem b' k = Ret d' ->
  exists d, getitem b k = Ret d /\ subseq d' d.
Proof.
  unfold shrinks. induction 1 as [|[k1 d1] [k2 d2] l1 l2 [Hk Hs] H IH]; simpl;
    intros E; [discriminate|].
  simpl in Hk, Hs. subst k2.
  destruct (k1 =? k)%string.
  - inversion E; subst. eauto.
  - auto.
Qed.

Lemma shrinks_setitem b k d d' :
  getitem b k = Ret d -> subseq d' d -> shrinks (setitem b k d') b.
Proof.
  unfold shrinks. induction b as [|[k0 d0] b IH]; simpl; intros E Hs; [discriminate|].
  destruct (String.eqb_spec k0 k) as [Ek|N].
  - inversion E; subst. constructor; [split; auto|]. apply shrinks_refl.
  - constructor; [split; [reflexivity|apply subseq_refl]|]. auto.
Qed.

Lemma shrinks_total_size b' b : shrinks b' b -> total_size b' <= total_size b.
Proof.
  unfold shrinks, total_size.
  induction 1 as [|x y l1 l2 [Hk Hs] H IH]; simpl; [lia|].
  apply subseq_length in Hs. lia.
Qed.

Lemma shrinks_total_size_eq b' b :
  shrinks b' b -> total_size b' = total_size b -> b' = b.
Proof.
  unfold shrinks. intros H.
  induction H as [|[k1 d1] [k2 d2] l1 l2 [Hk Hs] H IH]; intros E; [reflexivity|].
  simpl in Hk, Hs. subst k2.
  pose proof (subseq_length _ _ Hs) as L1.
  pose proof (shrinks_total_size _ _ H) as L2.
  unfold total_size in *. simpl in E.
  assert (length d1 = length d2) by lia.
  f_equal.
  - f_equal. apply subseq_length_eq; assumption.
  - apply IH. lia.
Qed.

Lemma board_ok_keys b : board_ok b ->
  NoDup (keys b) /\ (forall k, In k (keys b) <-> In k cells).
Proof.
  unfold board_ok, board_okb. rewrite !andb_true_iff, !forallb_forall.
  intros [[[H1 H2] H3] _]. split.
  - apply nodupb_NoDup. exact H1.
  - intros k. split; intros H.
    + apply contains_In. apply H2. exact H.
    + apply contains_In. apply H3. exact H.
Qed.

Lemma board_ok_domains b : board_ok b -> forall k d, In (k, d) b -> NoDup d.
Proof.
  unfold board_ok, board_okb. rewrite !andb_true_iff, !forallb_forall.
  intros [_ H] k d Hin. apply nodupb_NoDup. apply (H (k, d)). exact Hin.
Qed.

Lemma shrinks_In b' b k d' :
  shrinks b' b -> In (k, d') b' -> exists d, In (k, d) b /\ subseq d' d.
Proof.
  unfold shrinks. induction 1 as [|[k1 d1] [k2 d2] l1 l2 [Hk Hs] H IH]; simpl;
    intros Hin; [contradiction|].
  simpl in Hk, Hs. subst k2. destruct Hin as [E|Hin].
  - inversion E; subst. eauto.
  - destruct (IH Hin) as [d [H1 H2]]. eauto.
Qed.

Lemma shrinks_board_ok b' b : shrinks b' b -> board_ok b -> board_ok b'.
Proof.
  intros Hs Hok. pose proof (board_ok_domains b Hok) as Hd.
  unfold board_ok, board_okb in *.
  rewrite !andb_true_iff in *. rewrite (shrinks_keys _ _ Hs).
  destruct Hok as [[[H1 H2] H3] H4]. repeat split; try assumption.
  apply forallb_forall. intros [k d'] Hin. simpl.
  destruct (shrinks_In _ _ _ _ Hs Hin) as [d [Hin' Hsub]].
  apply nodupb_NoDup. eapply subseq_NoDup; [exact Hsub|]. eapply Hd. exact Hin'.
Qed.

Lemma generate_constraints_cells :
  forall g k, In g generate_constraints -> In k g -> In k cells.
Proof.
  assert (H : forallb (fun g => forallb (fun k => contains k cells) g)
                generate_constraints = true) by (vm_compute; reflexivity).
  rewrite forallb_forall in H. intros g k Hg Hk.
  specialize (H g Hg). rewrite forallb_forall in H.
  apply contains_In. apply H. exact Hk.
Qed.

Lemma board_ok_covers b : board_ok b -> covers generate_constraints b.
Proof.
  intros Hok g k Hg Hk. apply (board_ok_keys b Hok).
  eapply generate_constraints_cells; eassumption.
Qed.

Lemma covers_shrinks cs b' b : shrinks b' b -> covers cs b -> covers cs b'.
Proof.
  intros Hs Hc g k Hg Hk. rewrite (shrinks_keys _ _ Hs). eapply Hc; eassumption.
Qed.

(** ** One revision *)

Lemma supported_spec dj x : supported dj x = true <-> exists y, In y dj /\ y <> x.
Proof.
  unfold supported. rewrite existsb_exists. split.
  - intros [y [Hy E]]. exists y. split; [exact Hy|].
    apply negb_true_iff, String.eqb_neq in E. congruence.
  - intros [y [Hy N]]. exists y. split; [exact Hy|].
    apply negb_true_iff, String.eqb_neq. congruence.
Qed.

Lemma filter_filter_and {A} (f g : A -> bool) l :
  filter f (filter g l) = filter (fun x => g x && f x) l.
Proof.
  induction l as [|x l IH]; simpl; [reflexivity|].
  destruct (g x); simpl; [destruct (f x)|]; rewrite IH; reflexivity.
Qed.

Lemma filter_all {A} (f : A -> bool) l : forallb f l = true -> filter f l = l.
Proof.
  induction l as [|x l IH]; simpl; [reflexivity|].
  destruct (f x); simpl; [|discriminate]. intros H. f_equal. auto.
Qed.

Lemma filter_length_lt {A} (f : A -> bool) l :
  forallb f l = false -> length (filter f l) < length l.
Proof.
  induction l as [|x l IH]; simpl; [discriminate|].
  destruct (f x); simpl; intros H.
  - apply IH in H. lia.
  - pose proof (filter_length_le f l). lia.
Qed.

Section Revise.
Variables Xi Xj : Var.
Variable dj : Domain.
Hypothesis Hij : Xi <> Xj.

Lemma revise_loop l : forall r bc dc,
  getitem bc Xi = Ret dc -> getitem bc Xj = Ret dj ->
  foldM (revise_value Xi Xj) l (r, bc)
  = Ret (r || negb (forallb (supported dj) l),
         setitem bc Xi (filter (fun y => negb (dropped dj l y)) dc)).
Proof.
  induction l as [|x l IH]; intros r bc dc Ei Ej; simpl.
  - rewrite orb_false_r. rewrite filter_all by (apply forallb_forall; reflexivity).
    rewrite (setitem_same _ _ _ Ei). reflexivity.
  - unfold revise_value at 1. simpl. rewrite Ej. simpl.
    destruct (supported dj x) eqn:Sx; simpl.
    + rewrite (IH r bc dc Ei Ej). reflexivity.
    + rewrite Ei. simpl.
      rewrite (IH true (setitem bc Xi (discard x dc)) (discard x dc)).
      * rewrite setitem_setitem. unfold discard. rewrite filter_filter_and.
        rewrite orb_true_r. simpl. f_equal. f_equal. f_equal.
        apply filter_ext. intros y. rewrite negb_orb. reflexivity.
      * apply getitem_setitem_eq.
      * rewrite getitem_setitem_neq by exact Hij. exact Ej.
Qed.

Lemma revise_spec b di :
  getitem b Xi = Ret di -> getitem b Xj = Ret dj ->
  revise_arc_consistency Xi Xj b
  = Ret (negb (forallb (supported dj) di),
         setitem b Xi (filter (supported dj) di)).
Proof.
  intros Ei Ej. unfold revise_arc_consistency. rewrite Ei. simpl.
  rewrite (revise_loop di false b di Ei Ej). simpl. f_equal. f_equal. f_equal.
  apply filter_ext_in. intros y Hy. unfold dropped.
  destruct (supported dj y) eqn:Sy.
  - apply negb_true_iff. apply not_true_is_false. intros H.
    apply existsb_exists in H. destruct H as [x [_ H]].
    apply andb_true_iff in H. destruct H as [H1 H2].
    apply String.eqb_eq in H2. subst. rewrite Sy in H1. discriminate.
  - apply negb_false_iff. apply existsb_exists. exists y. split; [exact Hy|].
    rewrite Sy, String.eqb_refl. reflexivity.
Qed.
End Revise.

(** ** One turn of the worklist loop *)

Lemma In_arcs cs a : In a (arcs cs) <-> arc_ok cs a.
Proof.
  destruct a as [A B]. unfold arcs, arc_ok. simpl. rewrite in_flat_map. split.
  - intros [g [Hg H]]. apply in_flat_map in H. destruct H as [X [HX H]].
    apply in_flat_map in H. destruct H as [Y [HY H]].
    destruct (String.eqb_spec X Y) as [E|N]; simpl in H; [contradiction|].
    destruct H as [H|[]]. inversion H; subst. split; [exact N|]. eauto.
  - intros [N [g [Hg [HA HB]]]]. exists g. split; [exact Hg|].
    apply in_flat_map. exists A. split; [exact HA|].
    apply in_flat_map. exists B. split; [exact HB|].
    apply String.eqb_neq in N. rewrite N. simpl. left. reflexivity.
Qed.

Lemma In_requeue cs Xi Xj a :
  In a (requeue cs Xi Xj) <->
  snd a = Xi /\ fst a <> Xi /\ fst a <> Xj /\
  exists g, In g cs /\ In Xi g /\ In (fst a) g.
Proof.
  destruct a as [A B]. unfold requeue. simpl. rewrite in_flat_map. split.
  - intros [g [Hg H]].
    destruct (existsb (String.eqb Xi) g) eqn:Ex; [|contradiction].
    apply in_flat_map in H. destruct H as [X [HX H]].
    destruct (String.eqb_spec X Xi) as [E1|N1]; simpl in H; [contradiction|].
    destruct (String.eqb_spec X Xj) as [E2|N2]; simpl in H; [contradiction|].
    destruct H as [H|[]]. inversion H; subst.
    repeat split; try assumption. exists g. repeat split; try assumption.
    apply contains_In. exact Ex.
  - intros [EB [N1 [N2 [g [Hg [Hi HA]]]]]]. subst B. exists g. split; [exact Hg|].
    apply contains_In in Hi. unfold contains in Hi. rewrite Hi.
    apply in_flat_map. exists A. split; [exact HA|].
    apply String.eqb_neq in N1. apply String.eqb_neq in N2. rewrite N1, N2.
    simpl. left. reflexivity.
Qed.

Lemma requeue_arc_ok cs Xi Xj : Forall (arc_ok cs) (requeue cs Xi Xj).
Proof.
  apply Forall_forall. intros [A B] H. apply In_requeue in H. simpl in H.
  destruct H as [EB [N1 [N2 [g [Hg [Hi HA]]]]]]. subst B.
  split; simpl; [exact N1|]. eauto.
Qed.

Lemma requeue_length cs Xi Xj : length (requeue cs Xi Xj) <= group_cells cs.
Proof.
  unfold requeue, group_cells. induction cs as [|g cs IH]; simpl; [lia|].
  rewrite length_app.
  match goal with |- length ?t + _ <= _ => assert (H : length t <= length g) end.
  { destruct (existsb (String.eqb Xi) g); simpl; [|lia].
    clear. induction g as [|x g IH]; simpl; [lia|].
    destruct (negb (x =? Xi)%string && negb (x =? Xj)%string); simpl; lia. }
  apply Nat.add_le_mono; assumption.
Qed.

Lemma ac3_step_spec cs Xi Xj q b di dj :
  Xi <> Xj -> getitem b Xi = Ret di -> getitem b Xj = Ret dj ->
  ac3_step cs ((Xi, Xj) :: q) b = Ret (ac3_next cs Xi Xj q b di dj).
Proof.
  intros Hij Ei Ej. unfold ac3_step, ac3_next.
  rewrite (revise_spec Xi Xj dj Hij b di Ei Ej). simpl.
  destruct (forallb (supported dj) di) eqn:F; simpl.
  - rewrite (filter_all _ _ F), (setitem_same _ _ _ Ei). reflexivity.
  - rewrite getitem_setitem_eq. simpl.
    destruct (length (filter (supported dj) di) =? 0); reflexivity.
Qed.

(** Under the worklist invariant a turn of the loop does not raise. *)
Lemma ac3_step_cases cs q b :
  Forall (arc_ok cs) q -> covers cs b ->
  (q = [] /\ ac3_step cs q b = Ret (Return true b)) \/
  (exists Xi Xj q' di dj,
      q = (Xi, Xj) :: q' /\ arc_ok cs (Xi, Xj) /\ Forall (arc_ok cs) q' /\
      getitem b Xi = Ret di /\ getitem b Xj = Ret dj /\
      ac3_step cs q b = Ret (ac3_next cs Xi Xj q' b di dj)).
Proof.
  intros Hq Hc. destruct q as [|[Xi Xj] q']; [left; split; reflexivity|].
  right. inversion Hq as [|a l Ha Hq']; subst.
  destruct Ha as [Hij [g [Hg [Hi Hj]]]]. simpl in *.
  destruct (getitem_In b Xi (Hc g Xi Hg Hi)) as [di Ei].
  destruct (getitem_In b Xj (Hc g Xj Hg Hj)) as [dj Ej].
  exists Xi, Xj, q', di, dj. repeat split; try assumption.
  - exists g. auto.
  - apply ac3_step_spec; assumption.
Qed.

(** What a turn of the loop does to the board when the revision removes a
    value. *)
Lemma revised_board b Xi di dj :
  getitem b Xi = Ret di -> forallb (supported dj) di = false ->
  let b' := setitem b Xi (filter (supported dj) di) in
  shrinks b' b /\ total_size b' < total_size b.
Proof.
  intros Ei F b'. split.
  - eapply shrinks_setitem; [exact Ei|apply subseq_filter].
  - pose proof (total_size_setitem b Xi di (filter (supported dj) di) Ei).
    pose proof (filter_length_lt _ _ F). fold b' in H. lia.
Qed.

(** ** Reasoning about the worklist loop *)

Section Loop.
Variable cs : Constraints.

(** An invariant [Inv] of the loop, kept by every turn that goes on, and
    what it yields at the two exits. *)
Variable Inv : list Arc -> Board -> Prop.
Variable Post : bool -> Board -> Prop.
Hypothesis Hexit : forall b, covers cs b -> Inv [] b -> Post true b.
Hypothesis Hturn : forall Xi Xj q b di dj,
  arc_ok cs (Xi, Xj) -> Forall (arc_ok cs) q -> covers cs b ->
  Inv ((Xi, Xj) :: q) b ->
  getitem b Xi = Ret di -> getitem b Xj = Ret dj ->
  match ac3_next cs Xi Xj q b di dj with
  | Continue q' b' => Inv q' b'
  | Return r b' => Post r b'
  end.

Lemma ac3_next_wf Xi Xj q b di dj q' b' :
  Forall (arc_ok cs) q -> covers cs b -> getitem b Xi = Ret di ->
  ac3_next cs Xi Xj q b di dj = Continue q' b' ->
  Forall (arc_ok cs) q' /\ covers cs b'.
Proof.
  intros Hq Hc Ei. unfold ac3_next.
  destruct (forallb (supported dj) di) eqn:F.
  - intros E. inversion E; subst. auto.
  - destruct (length (filter (supported dj) di) =? 0); intros E; inversion E; subst.
    split.
    + apply Forall_app. split; [exact Hq|apply requeue_arc_ok].
    + eapply covers_shrinks; [|exact Hc]. apply (revised_board b Xi di dj Ei F).
Qed.

Lemma ac3_loop_rule fuel : forall q b r b',
  Forall (arc_ok cs) q -> covers cs b -> Inv q b ->
  ac3_loop fuel cs q b = Ret (r, b') -> Post r b'.
Proof.
  induction fuel as [|fuel IH]; intros q b r b' Hq Hc HI E; simpl in E;
    [discriminate|].
  destruct (ac3_step_cases cs q b Hq Hc)
    as [[Eq Es]|[Xi [Xj [q' [di [dj [Eq [Ha [Hq' [Ei [Ej Es]]]]]]]]]]].
  - rewrite Es in E. simpl in E. inversion E; subst. apply Hexit; assumption.
  - rewrite Es in E. simpl in E. subst q.
    pose proof (Hturn Xi Xj q' b di dj Ha Hq' Hc HI Ei Ej) as Ht.
    destruct (ac3_next cs Xi Xj q' b di dj) as [q2 b2|r2 b2] eqn:En.
    + destruct (ac3_next_wf _ _ _ _ _ _ _ _ Hq' Hc Ei En) as [Hq2 Hc2].
      eapply IH; eassumption.
    + inversion E; subst. exact Ht.
Qed.
End Loop.

(** The loop of [ac3] ends within the turns that [ac3_fuel] allows: a turn
    either removes a candidate and appends at most [group_cells] arcs, or
    takes one arc off the worklist. *)
Lemma ac3_loop_terminates cs fuel : forall q b,
  Forall (arc_ok cs) q -> covers cs b ->
  total_size b * S (group_cells cs) + length q < fuel ->
  exists r b', ac3_loop fuel cs q b = Ret (r, b').
Proof.
  induction fuel as [|fuel IH]; intros q b Hq Hc Hlt; [lia|]. simpl.
  destruct (ac3_step_cases cs q b Hq Hc)
    as [[Eq Es]|[Xi [Xj [q' [di [dj [Eq [Ha [Hq' [Ei [Ej Es]]]]]]]]]]].
  - rewrite Es. simpl. eauto.
  - rewrite Es. simpl. subst q.
    destruct (ac3_next cs Xi Xj q' b di dj) as [q2 b2|r2 b2] eqn:En; [|eauto].
    destruct (ac3_next_wf _ _ _ _ _ _ _ _ _ Hq' Hc Ei En) as [Hq2 Hc2].
    apply IH; try assumption.
    unfold ac3_next in En. simpl in Hlt.
    destruct (forallb (supported dj) di) eqn:F.
    + inversion En; subst. lia.
    + destruct (length (filter (supported dj) di) =? 0); inversion En; subst.
      destruct (revised_board b Xi di dj Ei F) as [_ Hlt2].
      rewrite length_app. pose proof (requeue_length cs Xi Xj). nia.
Qed.

Lemma arcs_arc_ok cs : Forall (arc_ok cs) (arcs cs).
Proof. apply Forall_forall. intros a. apply In_arcs. Qed.

Lemma ac3_returns cs b : covers cs b -> exists r b', ac3 b cs = Ret (r, b').
Proof.
  intros Hc. unfold ac3, ac3_fuel.
  apply ac3_loop_terminates; [apply arcs_arc_ok|exact Hc|lia].
Qed.

(** [ac3] only removes candidates. *)
Lemma ac3_shrinks cs b r b' : covers cs b -> ac3 b cs = Ret (r, b') -> shrinks b' b.
Proof.
  intros Hc E. unfold ac3 in E.
  eapply (ac3_loop_rule cs (fun _ bc => shrinks bc b) (fun _ bc => shrinks bc b));
    [| |apply arcs_arc_ok|exact Hc|apply shrinks_refl|exact E].
  - auto.
  - intros Xi Xj q bc di dj _ _ _ HI Ei Ej. unfold ac3_next.
    destruct (forallb (supported dj) di) eqn:F; [exact HI|].
    destruct (revised_board bc Xi di dj Ei F) as [Hs _].
    destruct (length (filter (supported dj) di) =? 0);
      eapply shrinks_trans; eassumption.
Qed.

Lemma ac3_loop_more_fuel cs fuel : forall q b res n,
  ac3_loop fuel cs q b = Ret res -> ac3_loop (fuel + n) cs q b = Ret res.
Proof.
  induction fuel as [|fuel IH]; intros q b res n E; simpl in *; [discriminate|].
  destruct (ac3_step cs q b) as [[q' b'|r b']| |]; simpl in *; try discriminate.
  - apply IH. exact E.
  - exact E.
Qed.

(** ** Assignments and pruning *)

Lemma chooses_spec sigma b :
  chooses sigma b = true -> forall k d, getitem b k = Ret d -> In (sigma k) d.
Proof.
  unfold chooses. rewrite forallb_forall. intros H k d E.
  apply getitem_Ret_In in E. apply contains_In. apply (H (k, d)). exact E.
Qed.

Lemma chooses_intro sigma b :
  NoDup (keys b) ->
  (forall k d, getitem b k = Ret d -> In (sigma k) d) -> chooses sigma b = true.
Proof.
  intros N H. unfold chooses. apply forallb_forall. intros [k d] Hin. simpl.
  apply contains_In. apply H. apply In_getitem; assumption.
Qed.

Lemma satisfies_spec sigma cs :
  satisfies sigma cs = true <->
  forall g Xi Xj, In g cs -> In Xi g -> In Xj g -> Xi <> Xj -> sigma Xi <> sigma Xj.
Proof.
  unfold satisfies. rewrite forallb_forall. split.
  - intros H g Xi Xj Hg Hi Hj Hne.
    specialize (H g Hg). rewrite forallb_forall in H.
    specialize (H Xi Hi). rewrite forallb_forall in H.
    specialize (H Xj Hj). apply orb_true_iff in H. destruct H as [H|H].
    + apply String.eqb_eq in H. contradiction.
    + apply negb_true_iff, String.eqb_neq in H. exact H.
  - intros H g Hg. apply forallb_forall. intros Xi Hi.
    apply forallb_forall. intros Xj Hj.
    destruct (String.eqb_spec Xi Xj) as [E|N]; simpl; [reflexivity|].
    apply negb_true_iff, String.eqb_neq. eapply H; eassumption.
Qed.

(** A value of a consistent assignment is never left without support, so a
    revision keeps it, and the revised domain is not empty. *)
Lemma ac3_keeps_assignment cs sigma b r b' :
  covers cs b -> satisfies sigma cs = true ->
  (forall k d, getitem b k = Ret d -> In (sigma k) d) ->
  ac3 b cs = Ret (r, b') ->
  r = true /\ forall k d, getitem b' k = Ret d -> In (sigma k) d.
Proof.
  intros Hc Hsat Hpick E. unfold ac3 in E.
  rewrite satisfies_spec in Hsat.
  set (P := fun bc : Board => forall k d, getitem bc k = Ret d -> In (sigma k) d).
  eapply (ac3_loop_rule cs (fun _ bc => P bc) (fun r bc => r = true /\ P bc));
    [| |apply arcs_arc_ok|exact Hc|exact Hpick|exact E].
  - auto.
  - intros Xi Xj q bc di dj [Hij [g [Hg [Hi Hj]]]] _ _ HI Ei Ej. simpl in *.
    assert (Hsup : supported dj (sigma Xi) = true).
    { apply supported_spec. exists (sigma Xj). split; [apply (HI Xj dj Ej)|].
      apply not_eq_sym. eapply Hsat; eassumption. }
    assert (Hin : In (sigma Xi) (filter (supported dj) di)).
    { apply filter_In. split; [apply (HI Xi di Ei)|exact Hsup]. }
    assert (HP : P (setitem bc Xi (filter (supported dj) di))).
    { intros k d Ek. destruct (String.eqb_spec Xi k) as [Ek'|Nk].
      - subst k. rewrite getitem_setitem_eq in Ek. inversion Ek; subst. exact Hin.
      - rewrite getitem_setitem_neq in Ek by exact Nk. apply (HI k d Ek). }
    unfold ac3_next. destruct (forallb (supported dj) di); [exact HI|].
    destruct (length (filter (supported dj) di) =? 0) eqn:L; [|exact HP].
    apply Nat.eqb_eq in L. destruct (filter (supported dj) di); [contradiction|].
    discriminate.
Qed.

(** ** Arc consistency at the exit *)

Lemma arc_consistent_revised b Xi Xj di dj :
  Xi <> Xj -> getitem b Xi = Ret di -> getitem b Xj = Ret dj ->
  arc_consistent (setitem b Xi (filter (supported dj) di)) (Xi, Xj).
Proof.
  intros Hij Ei Ej di' dj' Ei' Ej' x Hx. simpl in *.
  rewrite getitem_setitem_eq in Ei'. inversion Ei'; subst di'.
  rewrite getitem_setitem_neq in Ej' by exact Hij.
  rewrite Ej in Ej'. inversion Ej'; subst dj'.
  apply filter_In in Hx. apply supported_spec. apply Hx.
Qed.

Lemma pending_or_consistent_turn cs Xi Xj q b di dj :
  arc_ok cs (Xi, Xj) -> getitem b Xi = Ret di -> getitem b Xj = Ret dj ->
  pending_or_consistent cs ((Xi, Xj) :: q) b ->
  match ac3_next cs Xi Xj q b di dj with
  | Continue q' b' => pending_or_consistent cs q' b'
  | Return r b' => r = true -> pending_or_consistent cs [] b'
  end.
Proof.
  intros [Hij _] Ei Ej HI. simpl in Hij. unfold ac3_next.
  destruct (forallb (supported dj) di) eqn:F.
  - (* nothing removed: the arc is consistent *)
    intros a Ha. destruct (HI a Ha) as [[E|Hin]|Hcons]; auto.
    subst a. right. intros di' dj' Ei' Ej' x Hx. simpl in *.
    rewrite Ei in Ei'. rewrite Ej in Ej'. inversion Ei'; inversion Ej'; subst.
    apply supported_spec. rewrite forallb_forall in F. auto.
  - destruct (length (filter (supported dj) di) =? 0); [discriminate|].
    set (b' := setitem b Xi (filter (supported dj) di)).
    intros [A B] Ha. destruct (String.eqb_spec B Xi) as [EB|NB].
    + (* an arc into Xi *)
      subst B. destruct (String.eqb_spec A Xj) as [EA|NA].
      * subst A. destruct (HI (Xj, Xi) Ha) as [[E|Hin]|Hcons].
        -- inversion E. congruence.
        -- left. apply in_or_app. left. exact Hin.
        -- right. intros dj' di' Ej' Ei' y Hy. simpl in *. unfold b' in *.
           rewrite getitem_setitem_neq in Ej' by exact Hij.
           rewrite getitem_setitem_eq in Ei'.
           rewrite Ej in Ej'. inversion Ej'; inversion Ei'; subst.
           destruct (Hcons dj' di Ej Ei y Hy) as [x [Hx Hxy]]. simpl in *.
           exists x. split; [|exact Hxy]. apply filter_In. split; [exact Hx|].
           apply supported_spec. exists y. split; [exact Hy|congruence].
      * left. apply in_or_app. right. apply In_requeue. simpl.
        destruct Ha as [Hne [g [Hg [HA HB]]]]. simpl in *.
        repeat split; try assumption. exists g. auto.
    + (* an arc into another cell *)
      destruct (HI (A, B) Ha) as [[E|Hin]|Hcons].
      * inversion E; subst. right. apply arc_consistent_revised; assumption.
      * left. apply in_or_app. left. exact Hin.
      * right. intros dA dB EA EB x Hx. simpl in *. unfold b' in *.
        rewrite getitem_setitem_neq in EB by congruence.
        destruct (String.eqb_spec Xi A) as [E|N].
        -- subst A. rewrite getitem_setitem_eq in EA. inversion EA; subst.
           apply filter_In in Hx. apply (Hcons di dB Ei EB x). apply Hx.
        -- rewrite getitem_setitem_neq in EA by exact N.
           apply (Hcons dA dB EA EB x Hx).
Qed.

(** When [ac3] answers [True], every arc of the groups is consistent. *)
Lemma ac3_true_consistent cs b b' :
  covers cs b -> ac3 b cs = Ret (true, b') ->
  forall a, arc_ok cs a -> arc_consistent b' a.
Proof.
  intros Hc E. unfold ac3 in E.
  assert (H : true = true -> pending_or_consistent cs [] b').
  { eapply (ac3_loop_rule cs (pending_or_consistent cs)
              (fun r bc => r = true -> pending_or_consistent cs [] bc));
      [| |apply arcs_arc_ok|exact Hc| |exact E].
    - auto.
    - intros Xi Xj q bc di dj Ha _ _ HI Ei Ej.
      apply pending_or_consistent_turn; assumption.
    - intros a Ha. left. apply In_arcs. exact Ha. }
  intros a Ha. destruct (H eq_refl a Ha) as [[]|Hcons]. exact Hcons.
Qed.

(** On a board whose arcs are all consistent no revision removes anything:
    the loop empties the worklist and answers [True], the board unchanged. *)
Lemma ac3_loop_consistent cs b : forall q fuel,
  Forall (arc_ok cs) q -> covers cs b ->
  (forall a, In a q -> arc_consistent b a) ->
  length q < fuel -> ac3_loop fuel cs q b = Ret (true, b).
Proof.
  induction q as [|[Xi Xj] q IH]; intros fuel Hq Hc Hcons Hlt;
    (destruct fuel as [|fuel]; [simpl in Hlt; lia|]).
  - reflexivity.
  - simpl in Hlt.
    destruct (ac3_step_cases cs _ b Hq Hc)
      as [[Eq _]|[Xi' [Xj' [q' [di [dj [Eq [Ha [Hq' [Ei [Ej Es]]]]]]]]]]];
      [discriminate|].
    inversion Eq; subst Xi' Xj' q'.
    cbn [ac3_loop]. rewrite Es. cbn [bind].
    assert (F : forallb (supported dj) di = true).
    { apply forallb_forall. intros x Hx. apply supported_spec.
      apply (Hcons (Xi, Xj) (or_introl eq_refl) di dj Ei Ej x Hx). }
    unfold ac3_next. rewrite F. apply IH; try assumption.
    + intros a Ha'. apply Hcons. right. exact Ha'.
    + lia.
Qed.

Lemma ac3_fixed_point cs b b' :
  covers cs b -> ac3 b cs = Ret (true, b') -> ac3 b' cs = Ret (true, b').
Proof.
  intros Hc E. pose proof (ac3_true_consistent cs b b' Hc E) as Hcons.
  pose proof (ac3_shrinks cs b true b' Hc E) as Hs.
  unfold ac3. apply ac3_loop_consistent.
  - apply arcs_arc_ok.
  - eapply covers_shrinks; eassumption.
  - intros a Ha. apply Hcons. apply In_arcs. exact Ha.
  - unfold ac3_fuel. lia.
Qed.

(** ** Empty domains *)

Lemma no_empty_domain_spec b :
  no_empty_domain b = true -> forall k d, getitem b k = Ret d -> d <> [].
Proof.
  unfold no_empty_domain. rewrite forallb_forall. intros H k d E.
  apply getitem_Ret_In in E. specialize (H (k, d) E). simpl in H.
  destruct d; [discriminate|discriminate].
Qed.

Lemma no_empty_domain_intro b :
  NoDup (keys b) -> (forall k d, getitem b k = Ret d -> d <> []) ->
  no_empty_domain b = true.
Proof.
  intros N H. unfold no_empty_domain. apply forallb_forall. intros [k d] Hin.
  simpl. specialize (H k d (In_getitem b k d N Hin)).
  destruct d; [contradiction|reflexivity].
Qed.

Lemma some_candidate_spec b :
  some_candidate b = true -> NoDup (keys b) ->
  exists k d, getitem b k = Ret d /\ d <> [].
Proof.
  unfold some_candidate. rewrite existsb_exists. intros [[k d] [Hin H]] N.
  exists k, d. split; [apply In_getitem; assumption|].
  simpl in H. destruct d; [discriminate|discriminate].
Qed.

(** [ac3] answers [False] only with an empty domain on the board, and never
    answers [True] after emptying a domain. *)
Lemma ac3_empty_domains cs b r b' :
  covers cs b -> ac3 b cs = Ret (r, b') ->
  (r = false -> exists k, getitem b' k = Ret []) /\
  (r = true -> forall k d, getitem b k = Ret d -> d <> [] ->
               forall d', getitem b' k = Ret d' -> d' <> []).
Proof.
  intros Hc E. unfold ac3 in E.
  set (P := fun bc : Board =>
              forall k d, getitem b k = Ret d -> d <> [] ->
              forall d', getitem bc k = Ret d' -> d' <> []).
  eapply (ac3_loop_rule cs (fun _ bc => P bc)
            (fun r bc => (r = false -> exists k, getitem bc k = Ret []) /\
                         (r = true -> P bc)));
    [| |apply arcs_arc_ok|exact Hc| |exact E].
  - intros bc _ HP. split; [discriminate|auto].
  - intros Xi Xj q bc di dj _ _ _ HP Ei Ej. unfold ac3_next.
    destruct (forallb (supported dj) di); [exact HP|].
    destruct (length (filter (supported dj) di) =? 0) eqn:L.
    + split; [|discriminate]. intros _. exists Xi.
      rewrite getitem_setitem_eq. apply Nat.eqb_eq in L.
      destruct (filter (supported dj) di); [reflexivity|discriminate].
    + intros k d Ek Hd d' Ek'. destruct (String.eqb_spec Xi k) as [Ek2|Nk].
      * subst k. rewrite getitem_setitem_eq in Ek'. inversion Ek'; subst.
        intros Hnil. rewrite Hnil in L. discriminate.
      * rewrite getitem_setitem_neq in Ek' by exact Nk. eapply HP; eassumption.
  - intros k d Ek Hd d' Ek'. congruence.
Qed.

Lemma linked_spec cs a c :
  linked cs a c = true <-> exists g, In g cs /\ In a g /\ In c g.
Proof.
  unfold linked. rewrite existsb_exists. split.
  - intros [g [Hg H]]. apply andb_true_iff in H. destruct H as [H1 H2].
    apply contains_In in H1. apply contains_In in H2. eauto.
  - intros [g [Hg [H1 H2]]]. exists g. split; [exact Hg|].
    apply andb_true_iff. split; apply contains_In; assumption.
Qed.

(** On an arc-consistent board an empty domain empties the domains of the
    cells that share a group with it. *)
Lemma empty_spreads cs b a c :
  covers cs b -> (forall x, arc_ok cs x -> arc_consistent b x) ->
  linked cs a c = true -> a <> c ->
  getitem b a = Ret [] -> getitem b c = Ret [].
Proof.
  intros Hc Hcons Hl Hne Ea. apply linked_spec in Hl.
  destruct Hl as [g [Hg [Hag Hcg]]].
  destruct (getitem_In b c (Hc g c Hg Hcg)) as [dc Ec].
  assert (Hok : arc_ok cs (c, a)).
  { split; simpl; [congruence|]. eauto. }
  destruct dc as [|x dc]; [exact Ec|].
  destruct (Hcons (c, a) Hok (x :: dc) [] Ec Ea x (or_introl eq_refl))
    as [y [[] _]].
Qed.

Lemma sudoku_near :
  forall a c, In a cells -> In c cells -> a <> c ->
  near generate_constraints a c = true.
Proof.
  assert (H : forallb (fun a => forallb (fun c =>
                (a =? c)%string || near generate_constraints a c) cells) cells
              = true) by (vm_compute; reflexivity).
  rewrite forallb_forall in H. intros a c Ha Hc Hne.
  specialize (H a Ha). rewrite forallb_forall in H. specialize (H c Hc).
  apply orb_true_iff in H. destruct H as [H|H]; [|exact H].
  apply String.eqb_eq in H. contradiction.
Qed.

(** On the Sudoku groups, an arc-consistent board with one empty domain has
    only empty domains. *)
Lemma sudoku_empty_everywhere b a c :
  board_ok b ->
  (forall x, arc_ok generate_constraints x -> arc_consistent b x) ->
  In a cells -> In c cells ->
  getitem b a = Ret [] -> getitem b c = Ret [].
Proof.
  intros Hok Hcons Ha Hc Ea.
  pose proof (board_ok_covers b Hok) as Hcov.
  destruct (String.eqb_spec a c) as [E|Hne]; [subst; exact Ea|].
  pose proof (sudoku_near a c Ha Hc Hne) as Hn. unfold near in Hn.
  destruct (linked generate_constraints a c) eqn:L.
  - eapply empty_spreads; eassumption.
  - rewrite !andb_true_iff, !negb_true_iff in Hn.
    destruct Hn as [[[N1 N2] L1] L2].
    apply String.eqb_neq in N1. apply String.eqb_neq in N2.
    eapply (empty_spreads _ b (corner a c) c); try eassumption.
    eapply (empty_spreads _ b a (corner a c)); try eassumption.
    congruence.
Qed.

(** ** The local deduction rules only remove candidates *)

Lemma foldM_shrinks {A} (f : Board -> A -> outcome Board) l b :
  (forall s a, In a l -> shrinks s b -> exists s', f s a = Ret s' /\ shrinks s' s) ->
  exists b', foldM f l b = Ret b' /\ shrinks b' b.
Proof.
  intros Hf. apply (foldM_invariant (fun s => shrinks s b)); [|apply shrinks_refl].
  intros s a Hin Hs. destruct (Hf s a Hin Hs) as [s' [E Hs']].
  exists s'. split; [exact E|]. eapply shrinks_trans; eassumption.
Qed.

Lemma naked_single_delete_shrinks KeyVar v rest b X :
  In X (keys b) -> getitem b KeyVar = Ret (v :: rest) ->
  exists b', naked_single_delete KeyVar b X = Ret b' /\ shrinks b' b /\
             getitem b' KeyVar = Ret (v :: rest).
Proof.
  intros HX EK. unfold naked_single_delete.
  destruct (String.eqb_spec X KeyVar) as [E|N]; simpl.
  - exists b. split; [reflexivity|]. split; [apply shrinks_refl|exact EK].
  - destruct (getitem_In b X HX) as [target ET]. rewrite ET, EK. simpl.
    eexists. split; [reflexivity|]. split.
    + eapply shrinks_setitem; [exact ET|apply subseq_discard].
    + rewrite getitem_setitem_neq by exact N. exact EK.
Qed.

Lemma naked_single_var_shrinks const b KeyVar :
  (forall k, In k const -> In k (keys b)) -> In KeyVar const ->
  exists b', naked_single_var const b KeyVar = Ret b' /\ shrinks b' b.
Proof.
  intros Hc HK. unfold naked_single_var.
  destruct (getitem_In b KeyVar (Hc _ HK)) as [d Ed]. rewrite Ed. simpl.
  destruct (length d =? 1) eqn:L; [|exists b; split; [reflexivity|apply shrinks_refl]].
  destruct d as [|v rest]; [discriminate|].
  destruct (foldM_invariant
              (fun s => shrinks s b /\ getitem s KeyVar = Ret (v :: rest))
              (naked_single_delete KeyVar) const) with (s := b)
    as [b' [E [Hs _]]].
  - intros s X HX [Hs Es].
    destruct (naked_single_delete_shrinks KeyVar v rest s X) as [s' [E [Hs' Es']]].
    + rewrite (shrinks_keys _ _ Hs). auto.
    + exact Es.
    + exists s'. split; [exact E|]. split; [|exact Es'].
      eapply shrinks_trans; eassumption.
  - split; [apply shrinks_refl|exact Ed].
  - exists b'. auto.
Qed.

Lemma naked_single_shrinks cs b :
  covers cs b -> exists b', naked_single b cs = Ret b' /\ shrinks b' b.
Proof.
  intros Hc. unfold naked_single. apply foldM_shrinks. intros s g Hg Hs.
  unfold naked_single_group. apply foldM_shrinks. intros s2 K HK Hs2.
  apply naked_single_var_shrinks; [|exact HK].
  intros k Hk. rewrite (shrinks_keys _ _ Hs2), (shrinks_keys _ _ Hs).
  eapply Hc; eassumption.
Qed.

Lemma hidden_single_scan_loop b digit const : forall st,
  (forall k, In k const -> In k (keys b)) ->
  (forall k, snd st = Some k -> exists d, getitem b k = Ret d /\ In digit d) ->
  exists st', foldM (hidden_single_scan b digit) const st = Ret st' /\
    forall k, snd st' = Some k -> exists d, getitem b k = Ret d /\ In digit d.
Proof.
  intros st Hc Hst.
  apply (foldM_invariant
           (fun st => forall k, snd st = Some k ->
                      exists d, getitem b k = Ret d /\ In digit d));
    [|exact Hst].
  intros s K HK Hs. unfold hidden_single_scan.
  destruct (getitem_In b K (Hc K HK)) as [d Ed]. rewrite Ed. simpl.
  destruct (contains digit d) eqn:C.
  - eexists. split; [reflexivity|]. simpl. intros k Ek. inversion Ek; subst.
    exists d. split; [exact Ed|]. apply contains_In. exact C.
  - exists s. auto.
Qed.

Lemma hidden_single_digit_shrinks const b digit :
  (forall k, In k const -> In k (keys b)) ->
  exists b', hidden_single_digit const b digit = Ret b' /\ shrinks b' b.
Proof.
  intros Hc. unfold hidden_single_digit.
  destruct (hidden_single_scan_loop b digit const (0, None) Hc) as [st [E Hst]].
  { simpl. discriminate. }
  rewrite E. simpl.
  destruct (fst st =? 1); [|exists b; split; [reflexivity|apply shrinks_refl]].
  destruct (snd st) as [k|] eqn:Ek;
    [|exists b; split; [reflexivity|apply shrinks_refl]].
  destruct (Hst k eq_refl) as [d [Ed Hin]].
  eexists. split; [reflexivity|].
  eapply shrinks_setitem; [exact Ed|apply subseq_single; exact Hin].
Qed.

Lemma hidden_single_shrinks cs b :
  covers cs b -> exists b', hidden_single b cs = Ret b' /\ shrinks b' b.
Proof.
  intros Hc. unfold hidden_single. apply foldM_shrinks. intros s g Hg Hs.
  unfold hidden_single_group. apply foldM_shrinks. intros s2 digit _ Hs2.
  apply hidden_single_digit_shrinks.
  intros k Hk. rewrite (shrinks_keys _ _ Hs2), (shrinks_keys _ _ Hs).
  eapply Hc; eassumption.
Qed.

(** Passes that only remove candidates reach a board that a further pass
    leaves as it is, within as many passes as the board has candidates. *)
Lemma repeat_pass_converges (f : Board -> outcome Board) :
  (forall b, board_ok b -> exists b', f b = Ret b' /\ shrinks b' b) ->
  forall n b, board_ok b -> total_size b <= n ->
  exists m b', m <= n /\ repeat_pass f m b = Ret b' /\ shrinks b' b /\ f b' = Ret b'.
Proof.
  intros Hf. induction n as [|n IH]; intros b Hok Hn.
  - destruct (Hf b Hok) as [b' [E Hs]].
    exists 0, b. split; [lia|]. split; [reflexivity|]. split; [apply shrinks_refl|].
    rewrite E. f_equal. apply shrinks_total_size_eq; [exact Hs|].
    pose proof (shrinks_total_size _ _ Hs). lia.
  - destruct (Hf b Hok) as [b1 [E Hs]].
    destruct (Nat.eq_dec (total_size b1) (total_size b)) as [Et|Nt].
    + exists 0, b. split; [lia|]. split; [reflexivity|].
      split; [apply shrinks_refl|].
      rewrite E. f_equal. apply shrinks_total_size_eq; assumption.
    + pose proof (shrinks_total_size _ _ Hs).
      destruct (IH b1) as [m [b' [Hm [Er [Hs' Hfix]]]]].
      * eapply shrinks_board_ok; eassumption.
      * lia.
      * exists (S m), b'. split; [lia|]. split; [simpl; rewrite E; exact Er|].
        split; [eapply shrinks_trans; eassumption|exact Hfix].
Qed.

Lemma shrinks_within b' b : shrinks b' b -> within b' b.
Proof.
  intros Hs. split; [apply shrinks_keys; exact Hs|].
  intros k d' E. destruct (shrinks_getitem_inv _ _ _ _ Hs E) as [d [Ed Hsub]].
  exists d. split; [exact Ed|]. intros x Hx. eapply subseq_In; eassumption.
Qed.

(** ** The heuristics *)

Lemma py_min_None {A} (key : A -> nat) l : py_min key l = None <-> l = [].
Proof.
  unfold py_min. split; [|intros ->; reflexivity].
  destruct l as [|x l]; [reflexivity|]. simpl. intros H. exfalso.
  revert x H. induction l as [|y l IH]; intros x H; simpl in H; [discriminate|].
  destruct (key y <? key x); eapply IH; exact H.
Qed.

Lemma py_max_None {A} (key : A -> nat) l : py_max key l = None <-> l = [].
Proof.
  unfold py_max. split; [|intros ->; reflexivity].
  destruct l as [|x l]; [reflexivity|]. simpl. intros H. exfalso.
  revert x H. induction l as [|y l IH]; intros x H; simpl in H; [discriminate|].
  destruct (key x <? key y); eapply IH; exact H.
Qed.

Lemma py_min_In {A} (key : A -> nat) l v : py_min key l = Some v -> In v l.
Proof.
  unfold py_min.
  assert (G : forall best, fold_left (fun best x =>
                match best with
                | None => Some x
                | Some m => if key x <? key m then Some x else Some m
                end) l best = Some v ->
              best = Some v \/ In v l).
  { induction l as [|y l IH]; intros best H; simpl in H; [left; exact H|].
    destruct (IH _ H) as [E|Hin]; [|right; right; exact Hin].
    destruct best as [m|].
    - destruct (key y <? key m); inversion E; subst; [right; left|left]; reflexivity.
    - inversion E; subst. right. left. reflexivity. }
  intros H. destruct (G None H) as [E|Hin]; [discriminate|exact Hin].
Qed.

(** The first least element: no element has a smaller key. *)
Lemma py_min_least {A} (key : A -> nat) l v :
  py_min key l = Some v -> forall x, In x l -> key v <= key x.
Proof.
  unfold py_min.
  assert (G : forall best, fold_left (fun best x =>
                match best with
                | None => Some x
                | Some m => if key x <? key m then Some x else Some m
                end) l best = Some v ->
              (forall m, best = Some m -> key v <= key m) /\
              (forall x, In x l -> key v <= key x)).
  { induction l as [|y l IH]; intros best H; simpl in H.
    - split; [|intros x []]. intros m E. rewrite H in E. inversion E. lia.
    - destruct (IH _ H) as [H1 H2]. split.
      + intros m E. subst best. destruct (key y <? key m) eqn:C.
        * apply Nat.ltb_lt in C. specialize (H1 y eq_refl). lia.
        * apply (H1 m eq_refl).
      + intros x [E|Hin]; [|auto]. subst x. destruct best as [m|].
        * destruct (key y <? key m) eqn:C.
          -- apply (H1 y eq_refl).
          -- apply Nat.ltb_ge in C. specialize (H1 m eq_refl). lia.
        * apply (H1 y eq_refl). }
  intros H x Hx. apply (G None H). exact Hx.
Qed.

Lemma In_unassigned b v :
  In v (unassigned b) <-> exists d, getitem b v = Ret d /\ 1 < length d.
Proof.
  unfold unassigned. rewrite filter_In. split.
  - intros [Hk Hl]. destruct (len_at_key b v Hk) as [d [Ed El]].
    exists d. split; [exact Ed|]. apply Nat.ltb_lt in Hl. lia.
  - intros [d [Ed Hl]]. split; [eapply getitem_Ret_key; exact Ed|].
    unfold len_at. rewrite Ed. apply Nat.ltb_lt. exact Hl.
Qed.

Lemma unassigned_nil b :
  unassigned b = [] <-> forall k d, getitem b k = Ret d -> length d <= 1.
Proof.
  split.
  - intros E k d Ed. destruct (le_lt_dec (length d) 1) as [H|H]; [exact H|].
    assert (Hin : In k (unassigned b)) by (apply In_unassigned; eauto).
    rewrite E in Hin. contradiction.
  - intros H. destruct (unassigned b) as [|v l] eqn:E; [reflexivity|].
    assert (Hin : In v (unassigned b)) by (rewrite E; left; reflexivity).
    apply In_unassigned in Hin. destruct Hin as [d [Ed Hl]].
    specialize (H v d Ed). lia.
Qed.

Lemma cells_nonempty_names : forall k, In k cells -> k <> "".
Proof.
  assert (H : forallb (fun k => negb (k =? "")%string) cells = true)
    by (vm_compute; reflexivity).
  rewrite forallb_forall in H. intros k Hk.
  apply String.eqb_neq. apply negb_true_iff. apply H. exact Hk.
Qed.

Lemma mrv_truthy b v : board_ok b -> mrv b = Some v -> truthy_var (Some v) = true.
Proof.
  intros Hok E. unfold mrv in E. apply py_min_In in E.
  unfold unassigned in E. apply filter_In in E. destruct E as [Hk _].
  apply (board_ok_keys b Hok) in Hk. simpl.
  apply negb_true_iff, String.eqb_neq. apply cells_nonempty_names. exact Hk.
Qed.

(** A turn of the loop that goes on either removed a candidate from the board
    or left the board alone and took an arc off the worklist. *)
Lemma ac3_turn_progress cs q b q' b' :
  Forall (arc_ok cs) q -> covers cs b ->
  ac3_step cs q b = Ret (Continue q' b') ->
  total_size b' < total_size b \/ (b' = b /\ length q' < length q).
Proof.
  intros Hq Hc E.
  destruct (ac3_step_cases cs q b Hq Hc)
    as [[Eq Es]|[Xi [Xj [q0 [di [dj [Eq [Ha [Hq' [Ei [Ej Es]]]]]]]]]]].
  - rewrite Es in E. discriminate.
  - rewrite Es in E. inversion E as [En]. subst q. unfold ac3_next in En.
    destruct (forallb (supported dj) di) eqn:F.
    + inversion En; subst. right. split; [reflexivity|simpl; lia].
    + destruct (length (filter (supported dj) di) =? 0); inversion En; subst.
      left. apply (revised_board b Xi di dj Ei F).
Qed.

(** ** The search *)

Lemma In_setitem b k d k0 d0 :
  In (k0, d0) (setitem b k d) -> (k0, d0) = (k, d) \/ In (k0, d0) b.
Proof.
  induction b as [|[k' d'] b IH]; simpl.
  - intros [H|[]]. left. symmetry. exact H.
  - destruct (String.eqb_spec k' k) as [E|N]; simpl; intros [H|H].
    + subst k'. left. symmetry. exact H.
    + right. right. exact H.
    + right. left. exact H.
    + destruct (IH H); auto.
Qed.

Lemma board_ok_intro b :
  NoDup (keys b) -> (forall k, In k (keys b) <-> In k cells) ->
  (forall k d, In (k, d) b -> NoDup d) -> board_ok b.
Proof.
  intros H1 H2 H3. unfold board_ok, board_okb.
  rewrite !andb_true_iff, !forallb_forall. repeat split.
  - apply nodupb_NoDup. exact H1.
  - intros k Hk. apply contains_In. apply H2. exact Hk.
  - intros c Hc. apply contains_In. apply H2. exact Hc.
  - intros [k d] Hin. apply nodupb_NoDup. eapply H3. exact Hin.
Qed.

Lemma board_ok_setitem b k v :
  board_ok b -> In k (keys b) -> board_ok (setitem b k [v]).
Proof.
  intros Hok Hk. destruct (board_ok_keys b Hok) as [H1 H2].
  pose proof (board_ok_domains b Hok) as H3.
  apply board_ok_intro; rewrite ?(keys_setitem b k [v] Hk); try assumption.
  intros k0 d0 Hin. apply In_setitem in Hin. destruct Hin as [E|Hin].
  - inversion E; subst. constructor; [intros []|constructor].
  - eapply H3. exact Hin.
Qed.

Lemma filter_length_strict {A} (p p' : A -> bool) l x :
  (forall y, In y l -> p' y = true -> p y = true) ->
  In x l -> p x = true -> p' x = false ->
  length (filter p' l) < length (filter p l).
Proof.
  induction l as [|y l IH]; intros Himp Hin Hp Hp'; [contradiction|].
  assert (Hle : forall l0, (forall y, In y l0 -> p' y = true -> p y = true) ->
                length (filter p' l0) <= length (filter p l0)).
  { clear. induction l0 as [|z l0 IH0]; intros H; simpl; [lia|].
    assert (IHl : length (filter p' l0) <= length (filter p l0)).
    { apply IH0. intros w Hw. apply H. right. exact Hw. }
    destruct (p' z) eqn:E'.
    - rewrite (H z (or_introl eq_refl) E'). simpl. lia.
    - destruct (p z); simpl; lia. }
  simpl. destruct Hin as [->|Hin].
  - rewrite Hp, Hp'. simpl.
    assert (length (filter p' l) <= length (filter p l)).
    { apply Hle. intros w Hw. apply Himp. right. exact Hw. }
    lia.
  - assert (IHl : length (filter p' l) < length (filter p l)).
    { apply IH; try assumption. intros w Hw. apply Himp. right. exact Hw. }
    destruct (p' y) eqn:E'.
    + rewrite (Himp y (or_introl eq_refl) E'). simpl. lia.
    + destruct (p y); simpl; lia.
Qed.

Lemma len_at_shrinks b' b k : shrinks b' b -> len_at b' k <= len_at b k.
Proof.
  intros Hs. unfold len_at at 1. destruct (getitem b' k) as [d'| |] eqn:E; try lia.
  destruct (shrinks_getitem_inv _ _ _ _ Hs E) as [d [Ed Hsub]].
  unfold len_at. rewrite Ed. apply subseq_length. exact Hsub.
Qed.

(** A branch that [ac3] accepts has one open cell less than the board it
    was copied from. *)
Lemma branch_fewer_unassigned cs b var value b' :
  covers cs b -> In var (unassigned b) ->
  ac3 (setitem (copy_board b) var [value]) cs = Ret (true, b') ->
  length (unassigned b') < length (unassigned b).
Proof.
  intros Hc Hvar E. rewrite copy_board_id in E.
  assert (Hk : In var (keys b)) by (unfold unassigned in Hvar; apply filter_In in Hvar; tauto).
  set (bc := setitem b var [value]) in *.
  assert (Hkc : keys bc = keys b) by (apply keys_setitem; exact Hk).
  assert (Hcc : covers cs bc).
  { intros g k Hg Hkg. rewrite Hkc. eapply Hc; eassumption. }
  pose proof (ac3_shrinks cs bc true b' Hcc E) as Hs.
  destruct (ac3_empty_domains cs bc true b' Hcc E) as [_ Hne].
  unfold unassigned. rewrite (shrinks_keys _ _ Hs), Hkc.
  apply filter_length_strict with (x := var).
  - intros k Hkin Hl. apply Nat.ltb_lt in Hl. apply Nat.ltb_lt.
    pose proof (len_at_shrinks b' bc k Hs) as Hle.
    destruct (String.eqb_spec var k) as [Ek|Nk].
    + subst k. unfold len_at in Hle at 2. unfold bc in Hle.
      rewrite getitem_setitem_eq in Hle. simpl in Hle. lia.
    + unfold len_at in Hle at 2. unfold bc in Hle.
      rewrite getitem_setitem_neq in Hle by exact Nk.
      fold (len_at b k) in Hle. lia.
  - exact Hk.
  - unfold unassigned in Hvar. apply filter_In in Hvar. tauto.
  - apply Nat.ltb_ge. pose proof (len_at_shrinks b' bc var Hs) as Hle.
    unfold len_at in Hle at 2. unfold bc in Hle.
    rewrite getitem_setitem_eq in Hle. exact Hle.
Qed.

Lemma branch_board_ok b var value r b' :
  board_ok b -> In var (keys b) ->
  ac3 (setitem (copy_board b) var [value]) generate_constraints = Ret (r, b') ->
  board_ok b'.
Proof.
  intros Hok Hk E. rewrite copy_board_id in E.
  pose proof (board_ok_setitem b var value Hok Hk) as Hokc.
  eapply shrinks_board_ok; [|exact Hokc].
  eapply ac3_shrinks; [|exact E]. apply board_ok_covers. exact Hokc.
Qed.

Lemma try_values_returns search b var n :
  board_ok b -> In var (unassigned b) -> length (unassigned b) <= n ->
  (forall b', board_ok b' -> length (unassigned b') < n ->
              exists res, search b' = Ret res) ->
  forall values,
    exists res, try_values search b generate_constraints var values = Ret res.
Proof.
  intros Hok Hvar Hn Hsearch.
  assert (Hk : In var (keys b)) by (unfold unassigned in Hvar; apply filter_In in Hvar; tauto).
  induction values as [|value vs IH]; simpl; [eauto|].
  destruct (ac3_returns generate_constraints (setitem (copy_board b) var [value]))
    as [r [b' E]].
  { rewrite copy_board_id. apply board_ok_covers. apply board_ok_setitem; assumption. }
  rewrite E. simpl. destruct r; [|exact IH].
  destruct (Hsearch b') as [res Er].
  - eapply branch_board_ok; eassumption.
  - pose proof (branch_fewer_unassigned _ b var value b'
                  (board_ok_covers b Hok) Hvar E). lia.
  - rewrite Er. simpl. destruct (truthy_board res); [eauto|exact IH].
Qed.

Lemma py_or_mrv b cs :
  board_ok b -> py_or (mrv b) (degree_heuristic b cs) = mrv b.
Proof.
  intros Hok. unfold py_or. destruct (mrv b) as [v|] eqn:E.
  - rewrite (mrv_truthy b v Hok E). reflexivity.
  - simpl. unfold mrv in E. apply py_min_None in E.
    unfold degree_heuristic. apply py_max_None. exact E.
Qed.

(** [solve] returns within the depth of [solve_fuel]. *)
Lemma solve_returns fuel : forall b,
  board_ok b -> length (unassigned b) < fuel ->
  exists res, solve fuel b generate_constraints = Ret res.
Proof.
  induction fuel as [|fuel IH]; intros b Hok Hlt; [lia|]. simpl.
  destruct (is_board_complete b); [eauto|].
  rewrite (py_or_mrv b _ Hok).
  destruct (mrv b) as [var|] eqn:Em; [|simpl; eauto].
  rewrite (mrv_truthy b var Hok Em). simpl.
  assert (Hvar : In var (unassigned b)) by (apply py_min_In in Em; exact Em).
  destruct (proj1 (In_unassigned b var) Hvar) as [values [Ev _]].
  rewrite Ev. simpl.
  apply try_values_returns with (n := length (unassigned b)); try assumption.
  - lia.
  - intros b' Hok' Hlt'. apply IH; [exact Hok'|lia].
Qed.

Lemma is_board_complete_spec b :
  is_board_complete b = true <-> forall k, In k (keys b) -> len_at b k = 1.
Proof.
  unfold is_board_complete. rewrite forallb_forall. split; intros H k Hk.
  - apply Nat.eqb_eq. auto.
  - apply Nat.eqb_eq. auto.
Qed.

Lemma complete_single b k :
  is_board_complete b = true -> In k (keys b) ->
  exists v, getitem b k = Ret [v] /\ assignment_of b k = v.
Proof.
  intros Hc Hk. rewrite is_board_complete_spec in Hc. specialize (Hc k Hk).
  destruct (len_at_key b k Hk) as [d [Ed El]]. rewrite El in Hc.
  destruct d as [|v [|w d]]; try discriminate.
  exists v. split; [exact Ed|]. unfold assignment_of. rewrite Ed. reflexivity.
Qed.

(** A complete board whose arcs are all consistent satisfies the groups. *)
Lemma complete_consistent_valid cs b :
  covers cs b -> is_board_complete b = true ->
  (forall a, arc_ok cs a -> arc_consistent b a) ->
  satisfies (assignment_of b) cs = true.
Proof.
  intros Hcov Hc Hcons. apply satisfies_spec. intros g Xi Xj Hg Hi Hj Hne.
  destruct (complete_single b Xi Hc (Hcov g Xi Hg Hi)) as [x [Ex ->]].
  destruct (complete_single b Xj Hc (Hcov g Xj Hg Hj)) as [y [Ey ->]].
  assert (Hok : arc_ok cs (Xi, Xj)) by (split; simpl; eauto).
  destruct (Hcons _ Hok [x] [y] Ex Ey x (or_introl eq_refl)) as [y' [[<-|[]] N]].
  congruence.
Qed.

Lemma try_values_sound search b var d s :
  board_ok b -> getitem b var = Ret d ->
  (forall b' s', board_ok b' -> (is_board_complete b' = true -> valid_board b') ->
                 search b' = Ret (Some s') -> solved_from b' s') ->
  forall values, incl values d ->
    try_values search b generate_constraints var values = Ret (Some s) ->
    solved_from b s.
Proof.
  intros Hok Ed Hsearch.
  assert (Hk : In var (keys b)) by (eapply getitem_Ret_key; exact Ed).
  induction values as [|value vs IH]; intros Hincl H; simpl in H; [discriminate|].
  assert (Hvs : incl vs d) by (intros x Hx; apply Hincl; right; exact Hx).
  apply bind_Ret in H. destruct H as [[r b'] [Eac H]]. simpl in H.
  destruct r; [|auto].
  apply bind_Ret in H. destruct H as [sol [Es H]].
  destruct (truthy_board sol) eqn:T; [|auto].
  inversion H; subst sol. clear H.
  pose proof (branch_board_ok b var value true b' Hok Hk Eac) as Hok'.
  rewrite copy_board_id in Eac.
  pose proof (board_ok_setitem b var value Hok Hk) as Hokc.
  pose proof (board_ok_covers _ Hokc) as Hcovc.
  destruct (Hsearch b' s Hok') as [Hs [Hc Hv]]; [|exact Es|].
  - intros Hc'. apply complete_consistent_valid; try assumption.
    + apply board_ok_covers. exact Hok'.
    + eapply ac3_true_consistent; eassumption.
  - split; [|split; assumption].
    eapply shrinks_trans; [exact Hs|].
    eapply shrinks_trans; [eapply ac3_shrinks; eassumption|].
    eapply shrinks_setitem; [exact Ed|]. apply subseq_single. apply Hincl.
    left. reflexivity.
Qed.

(** What [solve] answers is a complete board of candidates of the board it
    was given; its values satisfy the groups unless the board given was
    complete already and did not. *)
Lemma solve_sound fuel : forall b s,
  board_ok b -> (is_board_complete b = true -> valid_board b) ->
  solve fuel b generate_constraints = Ret (Some s) -> solved_from b s.
Proof.
  induction fuel as [|fuel IH]; intros b s Hok Hv H; [discriminate|].
  cbn [solve] in H. destruct (is_board_complete b) eqn:C.
  - inversion H; subst. split; [apply shrinks_refl|]. auto.
  - rewrite (py_or_mrv b _ Hok) in H.
    destruct (negb (truthy_var (mrv b))); [discriminate|].
    destruct (mrv b) as [var|]; [|discriminate].
    apply bind_Ret in H. destruct H as [values [Ev H]].
    eapply try_values_sound; try eassumption.
    + intros b' s' Hok' Hv' E'. eapply IH; eassumption.
    + apply incl_refl.
Qed.

Lemma shrinks_nonempty s b : shrinks s b -> b <> [] -> s <> [].
Proof.
  intros Hs Hb E. subst s. unfold shrinks in Hs. inversion Hs. subst b.
  apply Hb. reflexivity.
Qed.

Lemma board_ok_nonempty b : board_ok b -> b <> [].
Proof.
  intros Hok ->. destruct (board_ok_keys [] Hok) as [_ H].
  apply (H "A1"). vm_compute. left. reflexivity.
Qed.

Lemma truthy_board_Some s : s <> [] -> truthy_board (Some s) = true.
Proof. destruct s; [congruence|reflexivity]. Qed.

Lemma try_values_complete search sigma b var :
  board_ok b -> In var (keys b) ->
  (forall k d, getitem b k = Ret d -> In (sigma k) d) ->
  satisfies sigma generate_constraints = true ->
  (forall b' res, board_ok b' -> chooses sigma b' = true ->
                  search b' = Ret res -> truthy_board res = true) ->
  forall values res, In (sigma var) values ->
    try_values search b generate_constraints var values = Ret res ->
    truthy_board res = true.
Proof.
  intros Hok Hk Hpick Hsat Hsearch.
  induction values as [|value vs IH]; intros res Hin H; [contradiction|].
  simpl in H. apply bind_Ret in H. destruct H as [[r b'] [Eac H]]. simpl in H.
  pose proof (branch_board_ok b var value r b' Hok Hk Eac) as Hok'.
  rewrite copy_board_id in Eac.
  pose proof (board_ok_setitem b var value Hok Hk) as Hokc.
  pose proof (board_ok_covers _ Hokc) as Hcovc.
  destruct (String.eqb_spec value (sigma var)) as [E|N].
  - (* the branch of the assignment: accepted, and searched with success *)
    assert (Hpc : forall k d, getitem (setitem b var [value]) k = Ret d ->
                              In (sigma k) d).
    { intros k d Ekd. destruct (String.eqb_spec var k) as [Ek|Nk].
      - subst k. rewrite getitem_setitem_eq in Ekd. inversion Ekd; subst.
        left. reflexivity.
      - rewrite getitem_setitem_neq in Ekd by exact Nk. auto. }
    destruct (ac3_keeps_assignment _ sigma _ r b' Hcovc Hsat Hpc Eac) as [-> Hp'].
    apply bind_Ret in H. destruct H as [sol [Es H]].
    assert (T : truthy_board sol = true).
    { apply (Hsearch b' sol Hok'); [|exact Es].
      apply chooses_intro; [apply (board_ok_keys b' Hok')|exact Hp']. }
    rewrite T in H. inversion H; subst. exact T.
  - assert (Hin' : In (sigma var) vs).
    { destruct Hin as [E|Hin]; [congruence|exact Hin]. }
    destruct r; [|eapply IH; eassumption].
    apply bind_Ret in H. destruct H as [sol [Es H]].
    destruct (truthy_board sol) eqn:T; [|eapply IH; eassumption].
    inversion H; subst. exact T.
Qed.

(** Where an assignment satisfies the groups from the domains of the board,
    [solve] does not answer [None]. *)
Lemma solve_complete sigma fuel : forall b res,
  board_ok b -> chooses sigma b = true ->
  satisfies sigma generate_constraints = true ->
  solve fuel b generate_constraints = Ret res -> truthy_board res = true.
Proof.
  induction fuel as [|fuel IH]; intros b res Hok Hch Hsat H; [discriminate|].
  cbn [solve] in H. destruct (is_board_complete b) eqn:C.
  - inversion H; subst. apply truthy_board_Some. apply board_ok_nonempty. exact Hok.
  - rewrite (py_or_mrv b _ Hok) in H.
    pose proof (chooses_spec _ _ Hch) as Hpick.
    destruct (mrv b) as [var|] eqn:Em.
    + rewrite (mrv_truthy b var Hok Em) in H. simpl in H.
      apply bind_Ret in H. destruct H as [values [Ev H]].
      eapply try_values_complete; try eassumption.
      * eapply getitem_Ret_key. exact Ev.
      * intros b' res' Hok' Hch' E'. eapply IH; eassumption.
      * apply (Hpick var values Ev).
    + (* no open cell, yet not complete: some domain is empty *)
      exfalso. unfold mrv in Em. apply py_min_None in Em.
      rewrite unassigned_nil in Em.
      assert (Hc : is_board_complete b = true).
      { apply is_board_complete_spec. intros k Hk.
        destruct (len_at_key b k Hk) as [d [Ed El]]. rewrite El.
        pose proof (Em k d Ed). pose proof (Hpick k d Ed) as Hin.
        destruct d; [contradiction|simpl in *; lia]. }
      congruence.
Qed.

Lemma complete_chooses_valid sigma b :
  board_ok b -> is_board_complete b = true -> chooses sigma b = true ->
  satisfies sigma generate_constraints = true -> valid_board b.
Proof.
  intros Hok Hc Hch Hsat. unfold valid_board. apply satisfies_spec.
  rewrite satisfies_spec in Hsat. intros g Xi Xj Hg Hi Hj Hne.
  pose proof (board_ok_covers b Hok) as Hcov.
  pose proof (chooses_spec _ _ Hch) as Hp.
  destruct (complete_single b Xi Hc (Hcov g Xi Hg Hi)) as [x [Ex ->]].
  destruct (complete_single b Xj Hc (Hcov g Xj Hg Hj)) as [y [Ey ->]].
  destruct (Hp Xi [x] Ex) as [E1|[]]. destruct (Hp Xj [y] Ey) as [E2|[]].
  rewrite E1, E2. eapply Hsat; eassumption.
Qed.

Lemma solved_from_chooses b s :
  board_ok b -> solved_from b s -> chooses (assignment_of s) b = true.
Proof.
  intros Hok [Hs [Hc _]]. apply chooses_intro; [apply (board_ok_keys b Hok)|].
  intros k d Ed. destruct (shrinks_getitem _ _ _ _ Hs Ed) as [d' [Ed' Hsub]].
  destruct (complete_single s k Hc (getitem_Ret_key _ _ _ Ed')) as [v [Ev ->]].
  rewrite Ev in Ed'. inversion Ed'; subst d'.
  eapply subseq_In; [exact Hsub|]. left. reflexivity.
Qed.

(** Where an assignment from the domains of the board satisfies the groups,
    [solve] answers a complete board of candidates of the board whose values
    satisfy the groups. *)
Lemma solve_finds_solution b sigma :
  board_ok b -> chooses sigma b = true ->
  satisfies sigma generate_constraints = true ->
  exists s, solve (solve_fuel b) b generate_constraints = Ret (Some s) /\
            solved_from b s.
Proof.
  intros Hok Hch Hsat.
  destruct (solve_returns (solve_fuel b) b Hok) as [res E];
    [unfold solve_fuel; lia|].
  pose proof (solve_complete sigma _ b res Hok Hch Hsat E) as T.
  destruct res as [s|]; [|discriminate]. exists s. split; [exact E|].
  eapply solve_sound; [exact Hok| |exact E].
  intros Hc. eapply complete_chooses_valid; eassumption.
Qed.

(** On a board that is not complete and has no assignment that satisfies the
    groups, [solve] answers [None]. *)
Lemma solve_exhausts b :
  board_ok b -> is_board_complete b = false ->
  (forall sigma, chooses sigma b = true ->
                 satisfies sigma generate_constraints = false) ->
  solve (solve_fuel b) b generate_constraints = Ret None.
Proof.
  intros Hok Hc Hnone.
  destruct (solve_returns (solve_fuel b) b Hok) as [res E];
    [unfold solve_fuel; lia|].
  destruct res as [s|]; [|exact E]. exfalso.
  assert (Hsol : solved_from b s).
  { eapply solve_sound; [exact Hok| |exact E]. congruence. }
  pose proof (solved_from_chooses b s Hok Hsol) as Hch.
  destruct Hsol as [_ [_ Hv]]. unfold valid_board in Hv.
  rewrite (Hnone _ Hch) in Hv. discriminate.
Qed.

Lemma NoDup_map_distinct {A B} (f : A -> B) l :
  NoDup l -> (forall x y, In x l -> In y l -> x <> y -> f x <> f y) ->
  NoDup (map f l).
Proof.
  induction 1 as [|x l Hx N IH]; intros Hf; simpl; constructor.
  - intros Hin. apply in_map_iff in Hin. destruct Hin as [y [E Hy]].
    apply (Hf y x); [right; exact Hy|left; reflexivity| |exact E].
    intros ->. contradiction.
  - apply IH. intros a c Ha Hc. apply Hf; right; assumption.
Qed.

Lemma groups_of_nine :
  forall g, In g generate_constraints -> NoDup g /\ length g = 9.
Proof.
  assert (H : forallb (fun g => nodupb g && (length g =? 9)) generate_constraints
              = true) by (vm_compute; reflexivity).
  rewrite forallb_forall in H. intros g Hg. specialize (H g Hg).
  apply andb_true_iff in H. destruct H as [H1 H2].
  split; [apply nodupb_NoDup; exact H1|apply Nat.eqb_eq; exact H2].
Qed.

(** The values of a group on a board that [solve] reached from a board of
    digits are the nine digits, each once. *)
Lemma solved_groups_are_permutations b s :
  board_ok b -> digits_only b = true -> solved_from b s ->
  forall g, In g generate_constraints ->
    Permutation (map (assignment_of s) g) digits.
Proof.
  intros Hok Hdig [Hs [Hc Hv]] g Hg.
  destruct (groups_of_nine g Hg) as [Ng Lg].
  unfold valid_board in Hv. rewrite satisfies_spec in Hv.
  pose proof (covers_shrinks _ _ _ Hs (board_ok_covers b Hok)) as Hcov.
  apply NoDup_Permutation_bis.
  - apply NoDup_map_distinct; [exact Ng|]. intros x y Hx Hy Hne.
    eapply Hv; eassumption.
  - rewrite length_map, Lg. reflexivity.
  - intros v Hin. apply in_map_iff in Hin. destruct Hin as [k [<- Hk]].
    destruct (complete_single s k Hc (Hcov g k Hg Hk)) as [v [Ev ->]].
    destruct (shrinks_getitem_inv _ _ _ _ Hs Ev) as [d [Ed Hsub]].
    unfold digits_only in Hdig. rewrite forallb_forall in Hdig.
    specialize (Hdig (k, d) (getitem_Ret_In _ _ _ Ed)). simpl in Hdig.
    rewrite forallb_forall in Hdig. apply contains_In. apply Hdig.
    eapply subseq_In; [exact Hsub|]. left. reflexivity.
Qed.

(** ** The store *)

Lemma bindS_Ret {A B} (c : St A) (k : A -> St B) h b h' :
  bindS c k h = Ret (b, h') ->
  exists a h1, c h = Ret (a, h1) /\ k a h1 = Ret (b, h').
Proof.
  unfold bindS. destruct (c h) as [[a h1]| |]; intros H; try discriminate. eauto.
Qed.

Tactic Notation "inv_bind" hyp(H) "as" ident(a) ident(h) ident(E) :=
  apply bindS_Ret in H; destruct H as (a & h & E & H).

Lemma ret_Ret {A} (a b : A) h h' : ret a h = Ret (b, h') -> b = a /\ h' = h.
Proof. unfold ret. intros H. inversion H. auto. Qed.

Lemma read_Ret l h d h' : read l h = Ret (d, h') -> d = nth l h [] /\ h' = h.
Proof. unfold read. intros H. inversion H. auto. Qed.

Ltac inv_ret H := apply ret_Ret in H; destruct H as [-> ->].
Ltac inv_read H := apply read_Ret in H; destruct H as [-> ->].

Lemma h_lookup_Ret b k h l h' :
  h_lookup b k h = Ret (l, h') -> h' = h /\ In (k, l) b.
Proof.
  induction b as [|[k' l'] b IH]; simpl; intros H; [discriminate|].
  destruct (String.eqb_spec k' k) as [E|N].
  - subst k'. inv_ret H. split; [reflexivity|left; reflexivity].
  - destruct (IH H) as [H1 H2]. auto.
Qed.

Lemma h_lookup_locs b k h l h' :
  h_lookup b k h = Ret (l, h') -> h' = h /\ In l (locs b).
Proof.
  intros H. destruct (h_lookup_Ret _ _ _ _ _ H) as [H1 H2]. split; [exact H1|].
  unfold locs. change l with (snd (k, l)). apply in_map. exact H2.
Qed.

Lemma mapS_pure {A B} (f : A -> St B) l :
  (forall a h x h', f a h = Ret (x, h') -> h' = h) ->
  forall h xs h', mapS f l h = Ret (xs, h') -> h' = h.
Proof.
  intros Hf. induction l as [|a l IH]; simpl; intros h xs h' H.
  - inv_ret H. reflexivity.
  - inv_bind H as x h1 E1. inv_bind H as ys h2 E2. inv_ret H.
    apply Hf in E1. apply IH in E2. congruence.
Qed.

Lemma h_len_pure b v h n h' : h_len b v h = Ret (n, h') -> h' = h.
Proof.
  unfold h_len. intros H. inv_bind H as l h1 E1. inv_bind H as d h2 E2. inv_ret H.
  apply h_lookup_Ret in E1. destruct E1 as [-> _]. inv_read E2. reflexivity.
Qed.

Lemma h_unassigned_pure b h us h' : h_unassigned b h = Ret (us, h') -> h' = h.
Proof.
  unfold h_unassigned. intros H. inv_bind H as sized h1 E1. inv_ret H.
  eapply mapS_pure; [|exact E1]. intros v h2 x h3 H.
  inv_bind H as n h4 E4. inv_ret H. eapply h_len_pure. exact E4.
Qed.

Lemma h_mrv_pure b h o h' : h_mrv b h = Ret (o, h') -> h' = h.
Proof.
  unfold h_mrv. intros H. inv_bind H as us h1 E1. inv_ret H.
  eapply h_unassigned_pure. exact E1.
Qed.

Lemma h_degree_heuristic_pure b cs h o h' :
  h_degree_heuristic b cs h = Ret (o, h') -> h' = h.
Proof.
  unfold h_degree_heuristic. intros H. inv_bind H as us h1 E1. inv_ret H.
  eapply h_unassigned_pure. exact E1.
Qed.

Lemma h_is_board_complete_pure b h c h' :
  h_is_board_complete b h = Ret (c, h') -> h' = h.
Proof.
  unfold h_is_board_complete. intros H. inv_bind H as sizes h1 E1. inv_ret H.
  eapply mapS_pure; [|exact E1]. intros v h2 x h3. apply h_len_pure.
Qed.

Lemma touched_refl L h : touched L h h.
Proof. split; auto. Qed.

Lemma touched_trans L h1 h2 h3 : touched L h1 h2 -> touched L h2 h3 -> touched L h1 h3.
Proof.
  intros [L1 N1] [L2 N2]. split; [congruence|].
  intros l Hl. rewrite N2, N1; auto.
Qed.

Lemma replace_nth_length {A} n (x : A) l : length (replace_nth n x l) = length l.
Proof.
  revert n. induction l as [|y l IH]; intros n; simpl; [reflexivity|].
  destruct n; simpl; [reflexivity|]. rewrite IH. reflexivity.
Qed.

Lemma nth_replace_nth_neq {A} n m (x d : A) l :
  n <> m -> nth m (replace_nth n x l) d = nth m l d.
Proof.
  revert n m. induction l as [|y l IH]; intros n m Hne; simpl; [reflexivity|].
  destruct n, m; simpl; try reflexivity; try lia. apply IH. lia.
Qed.

Lemma nth_replace_nth_eq {A} n (x d : A) l :
  n < length l -> nth n (replace_nth n x l) d = x.
Proof.
  revert n. induction l as [|y l IH]; intros n Hn; simpl in *; [lia|].
  destruct n; simpl; [reflexivity|]. apply IH. lia.
Qed.

Lemma write_touched L l d h u h' : In l L -> write l d h = Ret (u, h') -> touched L h h'.
Proof.
  intros Hl H. unfold write in H. inversion H; subst h'. clear H.
  split; [apply replace_nth_length|].
  intros m Hm. apply nth_replace_nth_neq. intros ->. contradiction.
Qed.

Lemma foldS_touched {A S} (f : S -> A -> St S) L l :
  (forall s a h s' h', f s a h = Ret (s', h') -> touched L h h') ->
  forall s h s' h', foldS f l s h = Ret (s', h') -> touched L h h'.
Proof.
  intros Hf. induction l as [|a l IH]; simpl; intros s h s' h' H.
  - inv_ret H. apply touched_refl.
  - inv_bind H as s1 h1 E1.
    eapply touched_trans; [eapply Hf; exact E1|eapply IH; exact H].
Qed.

Lemma h_revise_value_touched Xi Xj b r x h r' h' :
  h_revise_value Xi Xj b r x h = Ret (r', h') -> touched (locs b) h h'.
Proof.
  unfold h_revise_value. intros H.
  inv_bind H as lj h1 E1. inv_bind H as dj h2 E2.
  apply h_lookup_locs in E1. destruct E1 as [-> _]. inv_read E2.
  destruct (negb (supported (nth lj h []) x)).
  - inv_bind H as li h3 E3. inv_bind H as di h4 E4. inv_bind H as u h5 E5.
    inv_ret H. apply h_lookup_locs in E3. destruct E3 as [-> Hin]. inv_read E4.
    eapply write_touched; eassumption.
  - inv_ret H. apply touched_refl.
Qed.

Lemma h_revise_touched Xi Xj b h r h' :
  h_revise_arc_consistency Xi Xj b h = Ret (r, h') -> touched (locs b) h h'.
Proof.
  unfold h_revise_arc_consistency. intros H.
  inv_bind H as li h1 E1. inv_bind H as di h2 E2.
  apply h_lookup_locs in E1. destruct E1 as [-> _]. inv_read E2.
  eapply foldS_touched; [|exact H]. intros s x h1 s' h2.
  apply h_revise_value_touched.
Qed.

Lemma h_ac3_step_touched cs q b h st h' :
  h_ac3_step cs q b h = Ret (st, h') -> touched (locs b) h h'.
Proof.
  unfold h_ac3_step. destruct q as [|[Xi Xj] q]; intros H.
  - inv_ret H. apply touched_refl.
  - inv_bind H as removed h1 E1. apply h_revise_touched in E1. destruct removed.
    + inv_bind H as n h2 E2. apply h_len_pure in E2. subst h2.
      destruct (n =? 0); inv_ret H; exact E1.
    + inv_ret H. exact E1.
Qed.

Lemma h_ac3_loop_touched cs b fuel : forall q h r h',
  h_ac3_loop fuel cs q b h = Ret (r, h') -> touched (locs b) h h'.
Proof.
  induction fuel as [|fuel IH]; simpl; intros q h r h' H; [discriminate|].
  inv_bind H as st h1 E1. apply h_ac3_step_touched in E1. destruct st as [q'|r'].
  - eapply touched_trans; [exact E1|]. eapply IH. exact H.
  - inv_ret H. exact E1.
Qed.

Lemma h_ac3_touched cs b h r h' :
  h_ac3 b cs h = Ret (r, h') -> touched (locs b) h h'.
Proof. unfold h_ac3. apply h_ac3_loop_touched. Qed.

Lemma ext_refl n h : ext n h h.
Proof. split; auto. Qed.

Lemma ext_trans n h1 h2 h3 : ext n h1 h2 -> ext n h2 h3 -> ext n h1 h3.
Proof.
  intros [L1 N1] [L2 N2]. split; [lia|]. intros l Hl. rewrite N2, N1; auto.
Qed.

Lemma ext_le n m h h' : n <= m -> ext m h h' -> ext n h h'.
Proof. intros Hle [L N]. split; [exact L|]. intros l Hl. apply N. lia. Qed.

Lemma touched_ext n L h h' :
  (forall l, In l L -> n <= l) -> touched L h h' -> ext n h h'.
Proof.
  intros HL [Hlen Hn]. split; [lia|]. intros l Hl. apply Hn.
  intros Hin. apply HL in Hin. lia.
Qed.

Lemma alloc_ext d h l h' :
  alloc d h = Ret (l, h') -> l = length h /\ length h' = S (length h) /\
                             ext (length h) h h'.
Proof.
  intros H. unfold alloc in H. inversion H; subst l h'. clear H.
  split; [reflexivity|]. split.
  - rewrite length_app. simpl. lia.
  - split; [rewrite length_app; lia|]. intros l Hl. apply app_nth1. exact Hl.
Qed.

(** The copy of a board is made of new objects. *)
Lemma h_copy_board_fresh b n vs : forall h bc h',
  n <= length h ->
  mapS (fun v => l <~ h_lookup b v ;; d <~ read l ;; l' <~ alloc d ;; ret (v, l'))
       vs h = Ret (bc, h') ->
  ext (length h) h h' /\ (forall l, In l (locs bc) -> n <= l).
Proof.
  induction vs as [|v vs IH]; simpl; intros h bc h' Hn H.
  - inv_ret H. split; [apply ext_refl|intros l []].
  - inv_bind H as kl h1 E1. inv_bind H as rest h2 E2. inv_ret H.
    inv_bind E1 as l0 h3 E3. inv_bind E1 as d h4 E4. inv_bind E1 as l' h5 E5.
    inv_ret E1.
    apply h_lookup_Ret in E3. destruct E3 as [-> _]. inv_read E4.
    apply alloc_ext in E5. destruct E5 as [-> [Hlen Hext]].
    destruct (IH _ _ _ (Nat.le_trans _ _ _ Hn (proj1 Hext)) E2) as [Hext2 Hl].
    split.
    + eapply ext_trans; [exact Hext|]. eapply ext_le; [|exact Hext2]. lia.
    + simpl. intros l [<-|Hin]; [exact Hn|auto].
Qed.

Lemma locs_h_setitem b k l x :
  In x (locs (h_setitem b k l)) -> x = l \/ In x (locs b).
Proof.
  induction b as [|[k' l'] b IH]; simpl.
  - intros [H|[]]; auto.
  - destruct (k' =? k)%string; simpl; intros [H|H]; auto.
    destruct (IH H); auto.
Qed.

Lemma h_try_values_ext search cs b var n :
  (forall b1 h1 res h', search b1 h1 = Ret (res, h') -> ext (length h1) h1 h') ->
  forall values h res h',
    n <= length h ->
    h_try_values search b cs var values h = Ret (res, h') -> ext n h h'.
Proof.
  intros Hsearch. induction values as [|value vs IHv]; intros h res h' Hn H;
    simpl in H.
  - inv_ret H. apply ext_refl.
  - inv_bind H as bc h2 E2. inv_bind H as s h3 E3. inv_bind H as ok h4 E4.
    destruct (h_copy_board_fresh b n _ _ _ _ Hn E2) as [Hext1 Hlocs].
    apply alloc_ext in E3. destruct E3 as [-> [Hlen2 Hext2]].
    apply h_ac3_touched in E4. pose proof (proj1 Hext1) as Hle1.
    assert (Hext3 : ext n h3 h4).
    { eapply touched_ext; [|exact E4]. intros x Hx.
      apply locs_h_setitem in Hx. destruct Hx as [->|Hx]; [lia|auto]. }
    assert (Hacc : ext n h h4).
    { eapply ext_trans; [eapply ext_le; [|exact Hext1]; exact Hn|].
      eapply ext_trans; [eapply ext_le; [|exact Hext2]; lia|exact Hext3]. }
    pose proof (proj1 Hacc) as Hle4.
    destruct ok.
    + inv_bind H as solution h5 E5. apply Hsearch in E5.
      assert (Hacc2 : ext n h h5).
      { eapply ext_trans; [exact Hacc|]. eapply ext_le; [|exact E5]. lia. }
      destruct (truthy_hboard solution); [inv_ret H; exact Hacc2|].
      eapply ext_trans; [exact Hacc2|]. eapply IHv; [|exact H].
      pose proof (proj1 Hacc2). lia.
    + eapply ext_trans; [exact Hacc|]. eapply IHv; [|exact H]. lia.
Qed.

(** A call of [solve] leaves every object that its store held as it was. *)
Lemma h_solve_ext cs fuel : forall b h res h',
  h_solve fuel b cs h = Ret (res, h') -> ext (length h) h h'.
Proof.
  induction fuel as [|fuel IH]; intros b h res h' H; simpl in H; [discriminate|].
  inv_bind H as complete h1 E1. apply h_is_board_complete_pure in E1. subst h1.
  destruct complete; [inv_ret H; apply ext_refl|].
  inv_bind H as m h2 E2. apply h_mrv_pure in E2. subst h2.
  inv_bind H as ovar h3 E3.
  assert (h3 = h).
  { destruct (truthy_var m); [inv_ret E3; reflexivity|].
    eapply h_degree_heuristic_pure. exact E3. }
  subst h3. clear E3.
  destruct (negb (truthy_var ovar)); [inv_ret H; apply ext_refl|].
  destruct ovar as [var|]; [|inv_ret H; apply ext_refl].
  inv_bind H as l h4 E4. apply h_lookup_Ret in E4. destruct E4 as [-> _].
  inv_bind H as values h5 E5. apply read_Ret in E5. destruct E5 as [_ ->].
  eapply h_try_values_ext; [|apply Nat.le_refl|exact H].
  intros b1 h1 res1 h1'. apply IH.
Qed.

Lemma view_ext b h h' :
  (forall l, In l (locs b) -> l < length h) -> ext (length h) h h' ->
  view b h' = view b h.
Proof.
  intros Hl [_ Hn]. unfold view. apply map_ext_in. intros [k l] Hin. simpl.
  f_equal. apply Hn. apply Hl. unfold locs.
  change l with (snd (k, l)). apply in_map. exact Hin.
Qed.

(** ** The store and the boards by value

    On a dict of set objects without sharing, a function over the store does
    to the board in view what the function by value does to the board. *)

Lemma keys_view b h : keys (view b h) = map fst b.
Proof. unfold keys, view. rewrite map_map. reflexivity. Qed.

Lemma getitem_view b h k d :
  getitem (view b h) k = Ret d ->
  exists l, h_lookup b k h = Ret (l, h) /\ d = nth l h [] /\ In (k, l) b.
Proof.
  induction b as [|[k' l'] b IH]; simpl; intros H; [discriminate|].
  destruct (String.eqb_spec k' k) as [E|N].
  - subst k'. inversion H; subst. exists l'. unfold ret. auto.
  - destruct (IH H) as [l [E1 [E2 E3]]]. exists l. auto.
Qed.

Lemma hwf_tail k l b n : hwf ((k, l) :: b) n -> hwf b n /\ ~ In l (locs b) /\ l < n.
Proof.
  intros [H1 [H2 H3]]. simpl in *. inversion H1; inversion H2; subst.
  repeat split; auto.
Qed.

Lemma view_untouched b h l d :
  ~ In l (locs b) -> view b (replace_nth l d h) = view b h.
Proof.
  intros Hl. unfold view. apply map_ext_in. intros [k l'] Hin. simpl. f_equal.
  apply nth_replace_nth_neq. intros ->. apply Hl. unfold locs.
  change l' with (snd (k, l')). apply in_map. exact Hin.
Qed.

Lemma view_write b h k l d :
  hwf b (length h) -> h_lookup b k h = Ret (l, h) ->
  view b (replace_nth l d h) = setitem (view b h) k d.
Proof.
  induction b as [|[k' l'] b IH]; simpl; intros Hwf H; [discriminate|].
  destruct (hwf_tail _ _ _ _ Hwf) as [Hwf' [Hnin Hlt]].
  destruct (String.eqb_spec k' k) as [E|N].
  - subst k'. apply ret_Ret in H. destruct H as [-> _].
    rewrite nth_replace_nth_eq by exact Hlt. f_equal.
    apply view_untouched. exact Hnin.
  - rewrite (IH Hwf' H). f_equal. f_equal. apply nth_replace_nth_neq.
    intros ->. apply Hnin. apply h_lookup_locs in H. tauto.
Qed.

Lemma revise_value_sim Xi Xj b h r x r' B' :
  hwf b (length h) ->
  revise_value Xi Xj (r, view b h) x = Ret (r', B') ->
  exists h', h_revise_value Xi Xj b r x h = Ret (r', h') /\
             view b h' = B' /\ length h' = length h.
Proof.
  intros Hwf H. unfold revise_value in H. simpl in H.
  apply bind_Ret in H. destruct H as [dj [Ej H]].
  destruct (getitem_view _ _ _ _ Ej) as [lj [Elj [-> _]]].
  unfold h_revise_value, bindS. rewrite Elj. unfold read at 1.
  destruct (negb (supported (nth lj h []) x)).
  - apply bind_Ret in H. destruct H as [di [Ei H]].
    destruct (getitem_view _ _ _ _ Ei) as [li [Eli [-> _]]].
    rewrite Eli. unfold read, write, ret. inversion H; subst.
    eexists. split; [reflexivity|]. split.
    + apply view_write; assumption.
    + apply replace_nth_length.
  - inversion H; subst. exists h. auto.
Qed.

Lemma fold_sim {A S} (f : S * Board -> A -> outcome (S * Board))
    (fh : S -> A -> St S) b l :
  (forall s x h s' B', hwf b (length h) ->
      f (s, view b h) x = Ret (s', B') ->
      exists h', fh s x h = Ret (s', h') /\ view b h' = B' /\
                 length h' = length h) ->
  forall s h s' B', hwf b (length h) ->
    foldM f l (s, view b h) = Ret (s', B') ->
    exists h', foldS fh l s h = Ret (s', h') /\ view b h' = B' /\
               length h' = length h.
Proof.
  intros Hf. induction l as [|x l IH]; simpl; intros s h s' B' Hwf H.
  - inversion H; subst. exists h. auto.
  - apply bind_Ret in H. destruct H as [[s1 B1] [E1 H]].
    destruct (Hf _ _ _ _ _ Hwf E1) as [h1 [Eh1 [Ev1 El1]]].
    subst B1. rewrite <- El1 in Hwf.
    destruct (IH _ _ _ _ Hwf H) as [h2 [Eh2 [Ev2 El2]]].
    exists h2. unfold bindS. rewrite Eh1. split; [exact Eh2|].
    split; [exact Ev2|congruence].
Qed.

Lemma revise_sim Xi Xj b h r B' :
  hwf b (length h) ->
  revise_arc_consistency Xi Xj (view b h) = Ret (r, B') ->
  exists h', h_revise_arc_consistency Xi Xj b h = Ret (r, h') /\
             view b h' = B' /\ length h' = length h.
Proof.
  intros Hwf H. unfold revise_arc_consistency in H.
  apply bind_Ret in H. destruct H as [di [Ei H]].
  destruct (getitem_view _ _ _ _ Ei) as [li [Eli [-> _]]].
  unfold h_revise_arc_consistency, bindS. rewrite Eli. unfold read at 1.
  apply (fold_sim (revise_value Xi Xj) (h_revise_value Xi Xj b) b); try assumption.
  intros s x h0 s' B0. apply revise_value_sim.
Qed.

Lemma h_len_view b h v d :
  getitem (view b h) v = Ret d -> h_len b v h = Ret (length d, h).
Proof.
  intros E. destruct (getitem_view _ _ _ _ E) as [l [El [-> _]]].
  unfold h_len, bindS. rewrite El. reflexivity.
Qed.

Lemma ac3_step_sim cs q b h st :
  hwf b (length h) ->
  ac3_step cs q (view b h) = Ret st ->
  exists hst h', h_ac3_step cs q b h = Ret (hst, h') /\
                 view_state hst (view b h') = st /\ length h' = length h.
Proof.
  intros Hwf H. destruct q as [|[Xi Xj] q]; simpl in H.
  - inversion H; subst. exists (HReturn true), h. auto.
  - apply bind_Ret in H. destruct H as [[r B1] [Er H]]. simpl in H.
    destruct (revise_sim _ _ _ _ _ _ Hwf Er) as [h1 [Eh1 [Ev1 El1]]]. subst B1.
    unfold h_ac3_step, bindS. rewrite Eh1. destruct r.
    + apply bind_Ret in H. destruct H as [di [Ei H]].
      rewrite (h_len_view _ _ _ _ Ei).
      destruct (length di =? 0); inversion H; subst; eexists; exists h1;
        (split; [reflexivity|]; split; [reflexivity|assumption]).
    + inversion H; subst. exists (HContinue q), h1. auto.
Qed.

Lemma ac3_loop_sim cs b fuel : forall q h r B',
  hwf b (length h) ->
  ac3_loop fuel cs q (view b h) = Ret (r, B') ->
  exists h', h_ac3_loop fuel cs q b h = Ret (r, h') /\
             view b h' = B' /\ length h' = length h.
Proof.
  induction fuel as [|fuel IH]; simpl; intros q h r B' Hwf H; [discriminate|].
  apply bind_Ret in H. destruct H as [st [Es H]].
  destruct (ac3_step_sim _ _ _ _ _ Hwf Es) as [hst [h1 [Eh1 [Ev1 El1]]]].
  unfold bindS. rewrite Eh1. subst st. destruct hst as [q'|r']; simpl in H.
  - rewrite <- El1 in Hwf. destruct (IH _ _ _ _ Hwf H) as [h2 [Eh2 [Ev2 El2]]].
    exists h2. split; [exact Eh2|]. split; [exact Ev2|congruence].
  - inversion H; subst. exists h1. auto.
Qed.

Lemma ac3_sim cs b h r B' :
  hwf b (length h) ->
  ac3 (view b h) cs = Ret (r, B') ->
  exists h', h_ac3 b cs h = Ret (r, h') /\ view b h' = B' /\ length h' = length h.
Proof. intros Hwf H. unfold h_ac3. apply ac3_loop_sim; assumption. Qed.

Lemma mapS_reads {A B} (f : A -> St B) (g : A -> B) l h :
  (forall a, In a l -> f a h = Ret (g a, h)) -> mapS f l h = Ret (map g l, h).
Proof.
  induction l as [|a l IH]; intros Hf; simpl; [reflexivity|].
  unfold bindS. rewrite (Hf a (or_introl eq_refl)).
  rewrite IH by (intros x Hx; apply Hf; right; exact Hx). reflexivity.
Qed.

Lemma h_len_key b h v :
  In v (map fst b) -> h_len b v h = Ret (len_at (view b h) v, h).
Proof.
  intros Hv. rewrite <- (keys_view b h) in Hv.
  destruct (len_at_key _ _ Hv) as [d [Ed El]]. rewrite El.
  apply h_len_view. exact Ed.
Qed.

Lemma filter_map_comm {A B} (p : B -> bool) (g : A -> B) l :
  filter p (map g l) = map g (filter (fun a => p (g a)) l).
Proof.
  induction l as [|a l IH]; simpl; [reflexivity|].
  destruct (p (g a)); simpl; rewrite IH; reflexivity.
Qed.

Lemma h_unassigned_view b h :
  h_unassigned b h
  = Ret (map (fun v => (v, len_at (view b h) v)) (unassigned (view b h)), h).
Proof.
  unfold h_unassigned, bindS.
  rewrite (mapS_reads _ (fun v => (v, len_at (view b h) v))).
  - unfold ret, unassigned. rewrite filter_map_comm, keys_view. reflexivity.
  - intros v Hv. unfold bindS. rewrite (h_len_key b h v Hv). reflexivity.
Qed.

Lemma py_min_paired {A} (key : A -> nat) l :
  option_map fst (py_min snd (map (fun v => (v, key v)) l)) = py_min key l.
Proof.
  unfold py_min.
  assert (G : forall best,
    option_map fst
      (fold_left (fun best x =>
         match best with
         | None => Some x
         | Some m => if snd x <? snd m then Some x else Some m
         end) (map (fun v => (v, key v)) l)
         (option_map (fun v => (v, key v)) best))
    = fold_left (fun best x =>
         match best with
         | None => Some x
         | Some m => if key x <? key m then Some x else Some m
         end) l best).
  { induction l as [|x l IH]; intros best; simpl.
    - destruct best; reflexivity.
    - rewrite <- IH. f_equal. f_equal. destruct best as [m|]; simpl; [|reflexivity].
      destruct (key x <? key m); reflexivity. }
  apply (G None).
Qed.

Lemma h_mrv_view b h : h_mrv b h = Ret (mrv (view b h), h).
Proof.
  unfold h_mrv, bindS. rewrite h_unassigned_view. unfold ret, mrv.
  rewrite py_min_paired. reflexivity.
Qed.

Lemma h_degree_heuristic_view b cs h :
  h_degree_heuristic b cs h = Ret (degree_heuristic (view b h) cs, h).
Proof.
  unfold h_degree_heuristic, bindS. rewrite h_unassigned_view.
  unfold ret, degree_heuristic. rewrite map_map. simpl. rewrite map_id.
  reflexivity.
Qed.

Lemma h_is_board_complete_view b h :
  h_is_board_complete b h = Ret (is_board_complete (view b h), h).
Proof.
  unfold h_is_board_complete, bindS.
  rewrite (mapS_reads _ (len_at (view b h))) by (intros v Hv; apply h_len_key; exact Hv).
  unfold ret, is_board_complete. rewrite keys_view. f_equal. f_equal.
  induction (map fst b) as [|v l IH]; simpl; [reflexivity|].
  rewrite IH. reflexivity.
Qed.

Lemma h_lookup_any_heap b k h l h2 :
  h_lookup b k h = Ret (l, h) -> h_lookup b k h2 = Ret (l, h2).
Proof.
  induction b as [|[k' l'] b IH]; simpl; intros H; [discriminate|].
  destruct (k' =? k)%string; [|auto].
  apply ret_Ret in H. destruct H as [-> _]. reflexivity.
Qed.

Lemma h_copy_cell b v h l :
  h_lookup b v h = Ret (l, h) ->
  (l <~ h_lookup b v ;; d <~ read l ;; l' <~ alloc d ;; ret (v, l')) h
  = Ret ((v, length h), h ++ [nth l h []]).
Proof. intros E. unfold bindS. rewrite E. reflexivity. Qed.

Lemma h_copy_board_loop b h vs : forall acc,
  hwf b (length h) -> (forall v, In v vs -> In v (map fst b)) ->
  mapS (fun v => l <~ h_lookup b v ;; d <~ read l ;; l' <~ alloc d ;; ret (v, l'))
       vs (h ++ acc)
  = Ret (combine vs (seq (length h + length acc) (length vs)),
         (h ++ acc) ++ map (dom_of (view b h)) vs).
Proof.
  induction vs as [|v vs IH]; intros acc Hwf Hvs.
  - simpl. rewrite app_nil_r. reflexivity.
  - assert (Hv : In v (keys (view b h))).
    { rewrite keys_view. apply Hvs. left. reflexivity. }
    destruct (getitem_In _ _ Hv) as [d Ed].
    destruct (getitem_view _ _ _ _ Ed) as [l [El [Hd Hin]]].
    assert (Hl : l < length h).
    { apply Hwf. unfold locs. change l with (snd (v, l)). apply in_map. exact Hin. }
    cbn [mapS]. unfold bindS at 1.
    rewrite (h_copy_cell b v (h ++ acc) l (h_lookup_any_heap _ _ _ _ _ El)).
    rewrite app_nth1 by exact Hl.
    replace ((h ++ acc) ++ [nth l h []]) with (h ++ (acc ++ [nth l h []]))
      by (rewrite app_assoc; reflexivity).
    unfold bindS at 1.
    rewrite IH; [|exact Hwf|intros x Hx; apply Hvs; right; exact Hx].
    unfold ret. rewrite !length_app. cbn [length map seq combine].
    unfold dom_of at 2. rewrite Ed, Hd.
    replace (length h + (length acc + 1)) with (S (length h + length acc)) by lia.
    rewrite <- !app_assoc. reflexivity.
Qed.

Lemma combine_fst_snd {A B} (l : list (A * B)) : combine (map fst l) (map snd l) = l.
Proof. induction l as [|[a b] l IH]; simpl; [reflexivity|]. rewrite IH. reflexivity. Qed.

Lemma map_dom_of_keys B : NoDup (keys B) -> map (dom_of B) (keys B) = map snd B.
Proof.
  intros N. unfold keys. rewrite map_map. apply map_ext_in.
  intros [k d] Hin. simpl. unfold dom_of.
  rewrite (In_getitem B k d N Hin). reflexivity.
Qed.

Lemma map_dom_of_view b h :
  NoDup (map fst b) -> map (dom_of (view b h)) (map fst b) = map snd (view b h).
Proof.
  intros N. rewrite <- (keys_view b h). apply map_dom_of_keys.
  rewrite keys_view. exact N.
Qed.

(** The copy of a board: new objects after the old ones, one per key. *)
Lemma h_copy_board_spec b h :
  hwf b (length h) ->
  h_copy_board b h
  = Ret (combine (map fst b) (seq (length h) (length b)),
         h ++ map snd (view b h)).
Proof.
  intros Hwf. unfold h_copy_board.
  pose proof (h_copy_board_loop b h (map fst b) [] Hwf (fun v H => H)) as E.
  rewrite app_nil_r in E. simpl in E. rewrite Nat.add_0_r, length_map in E.
  rewrite E. rewrite map_dom_of_view by apply Hwf. reflexivity.
Qed.

Lemma view_combine_seq h ks : forall pre ds,
  length ks = length ds ->
  view (combine ks (seq (length h + length pre) (length ks))) (h ++ pre ++ ds)
  = combine ks ds.
Proof.
  induction ks as [|k ks IH]; intros pre ds Hlen; simpl; [reflexivity|].
  destruct ds as [|d ds]; [discriminate|]. simpl in Hlen. simpl. f_equal.
  - f_equal. rewrite app_nth2 by lia.
    replace (length h + length pre - length h) with (length pre) by lia.
    rewrite app_nth2 by lia. rewrite Nat.sub_diag. reflexivity.
  - specialize (IH (pre ++ [d]) ds). rewrite length_app in IH. simpl in IH.
    replace (length h + (length pre + 1)) with (S (length h + length pre)) in IH by lia.
    rewrite <- app_assoc in IH. simpl in IH. apply IH. lia.
Qed.

Lemma h_copy_board_view b h bc h' :
  hwf b (length h) -> h_copy_board b h = Ret (bc, h') ->
  view bc h' = view b h /\ map fst bc = map fst b /\ hwf bc (length h') /\
  length h <= length h'.
Proof.
  intros Hwf E. rewrite (h_copy_board_spec b h Hwf) in E.
  inversion E; subst bc h'. clear E.
  assert (Hlen : length (map fst b) = length (seq (length h) (length b)))
    by (rewrite length_map, length_seq; reflexivity).
  assert (Hfst : map fst (combine (map fst b) (seq (length h) (length b))) = map fst b).
  { clear Hwf. revert Hlen. generalize (seq (length h) (length b)).
    induction (map fst b) as [|k ks IH]; intros [|x xs] Hl; simpl in *;
      try discriminate; [reflexivity|]. f_equal. apply IH. lia. }
  assert (Hsnd : locs (combine (map fst b) (seq (length h) (length b)))
                 = seq (length h) (length b)).
  { unfold locs. clear Hwf Hfst. revert Hlen. generalize (seq (length h) (length b)).
    induction (map fst b) as [|k ks IH]; intros [|x xs] Hl; simpl in *;
      try discriminate; [reflexivity|]. f_equal. apply IH. lia. }
  repeat split.
  - pose proof (view_combine_seq h (map fst b) [] (map snd (view b h))) as V.
    simpl in V. rewrite Nat.add_0_r, length_map in V. rewrite V.
    + rewrite <- (keys_view b h). apply combine_fst_snd.
    + unfold view. rewrite !length_map. reflexivity.
  - exact Hfst.
  - rewrite Hfst. apply Hwf.
  - rewrite Hsnd. apply seq_NoDup.
  - rewrite Hsnd. intros l Hl. apply in_seq in Hl.
    rewrite length_app. unfold view. rewrite !length_map. lia.
  - rewrite length_app. lia.
Qed.

Lemma view_app b h t :
  (forall l, In l (locs b) -> l < length h) -> view b (h ++ t) = view b h.
Proof.
  intros Hl. unfold view. apply map_ext_in. intros [k l] Hin. simpl. f_equal.
  apply app_nth1. apply Hl. unfold locs. change l with (snd (k, l)).
  apply in_map. exact Hin.
Qed.

Lemma keys_h_setitem b k l :
  In k (map fst b) -> map fst (h_setitem b k l) = map fst b.
Proof.
  induction b as [|[k' l'] b IH]; simpl; intros H; [contradiction|].
  destruct (String.eqb_spec k' k) as [E|N]; simpl; [reflexivity|].
  f_equal. apply IH. destruct H; [contradiction|assumption].
Qed.

Lemma locs_h_setitem_NoDup b k s :
  NoDup (locs b) -> ~ In s (locs b) -> NoDup (locs (h_setitem b k s)).
Proof.
  induction b as [|[k' l'] b IH]; simpl; intros N Hs.
  - constructor; [intros []|constructor].
  - inversion N; subst. destruct (k' =? k)%string; simpl.
    + constructor; [tauto|assumption].
    + constructor; [|apply IH; tauto].
      intros Hin. apply locs_h_setitem in Hin. destruct Hin as [E|Hin]; [|tauto].
      subst. tauto.
Qed.

Lemma view_h_setitem b h k value :
  (forall l, In l (locs b) -> l < length h) ->
  view (h_setitem b k (length h)) (h ++ [[value]]) = setitem (view b h) k [value].
Proof.
  induction b as [|[k' l'] b IH]; simpl; intros Hl.
  - rewrite app_nth2 by lia. rewrite Nat.sub_diag. reflexivity.
  - destruct (String.eqb_spec k' k) as [E|N]; simpl.
    + f_equal.
      * f_equal. rewrite app_nth2 by lia. rewrite Nat.sub_diag. reflexivity.
      * apply view_app. intros l Hin. apply Hl. right. exact Hin.
    + f_equal.
      * f_equal. apply app_nth1. apply Hl. left. reflexivity.
      * apply IH. intros l Hin. apply Hl. right. exact Hin.
Qed.

(** [board_copy[var] = {value}] with a new set object. *)
Lemma h_setitem_view b h var value :
  hwf b (length h) -> In var (map fst b) ->
  view (h_setitem b var (length h)) (h ++ [[value]])
  = setitem (view b h) var [value] /\
  hwf (h_setitem b var (length h)) (length (h ++ [[value]])).
Proof.
  intros [N1 [N2 N3]] Hvar. split; [apply view_h_setitem; exact N3|].
  repeat split.
  - rewrite keys_h_setitem by exact Hvar. exact N1.
  - apply locs_h_setitem_NoDup; [exact N2|]. intros Hin. apply N3 in Hin. lia.
  - intros l Hin. rewrite length_app. simpl. apply locs_h_setitem in Hin.
    destruct Hin as [->|Hin]; [lia|]. apply N3 in Hin. lia.
Qed.

Lemma hwf_le b n m : n <= m -> hwf b n -> hwf b m.
Proof.
  intros Hle [N1 [N2 N3]]. repeat split; try assumption.
  intros l Hl. apply N3 in Hl. lia.
Qed.

Lemma truthy_view res h : truthy_board (view_result res h) = truthy_hboard res.
Proof. destruct res as [[|x s]|]; reflexivity. Qed.

Lemma try_values_sim search hsearch cs b var h res :
  (forall b1 h1 res1, hwf b1 (length h1) -> search (view b1 h1) = Ret res1 ->
     exists hres h', hsearch b1 h1 = Ret (hres, h') /\ view_result hres h' = res1) ->
  (forall b1 h1 hres h', hsearch b1 h1 = Ret (hres, h') -> ext (length h1) h1 h') ->
  hwf b (length h) -> In var (map fst b) ->
  forall values hc,
    ext (length h) h hc ->
    try_values search (view b h) cs var values = Ret res ->
    exists hres h', h_try_values hsearch b cs var values hc = Ret (hres, h') /\
                    view_result hres h' = res.
Proof.
  intros Hsim Hext Hwf Hvar.
  induction values as [|value vs IH]; intros hc Hc H; simpl in H.
  - inversion H; subst. exists None, hc. split; reflexivity.
  - apply bind_Ret in H. destruct H as [[r B'] [Eac H]]. simpl in H.
    rewrite copy_board_id in Eac.
    assert (Hwfc : hwf b (length hc)) by (eapply hwf_le; [apply Hc|exact Hwf]).
    assert (Hview : view b hc = view b h) by (apply view_ext; [apply Hwf|exact Hc]).
    destruct (h_copy_board b hc) as [[bc h2]| |] eqn:Ecp;
      try (rewrite (h_copy_board_spec b hc Hwfc) in Ecp; discriminate).
    destruct (h_copy_board_view b hc bc h2 Hwfc Ecp) as [Vc [Kc [Wc Lc]]].
    destruct (h_copy_board_fresh b (length h) _ _ _ _ (proj1 Hc) Ecp) as [Xc Fc].
    assert (Hvc : In var (map fst bc)) by (rewrite Kc; exact Hvar).
    destruct (h_setitem_view bc h2 var value Wc Hvc) as [Vs Ws].
    set (b2 := h_setitem bc var (length h2)) in *.
    set (h3 := h2 ++ [[value]]) in *.
    rewrite Vc, Hview in Vs. rewrite <- Vs in Eac.
    destruct (ac3_sim cs b2 h3 r B' Ws Eac) as [h4 [Ea [Va La]]].
    pose proof (proj1 Hc) as Lh.
    assert (X4 : ext (length h) h h4).
    { eapply ext_trans; [exact Hc|].
      eapply ext_trans; [eapply ext_le; [|exact Xc]; apply Hc|].
      assert (X3 : ext (length h) h2 h3).
      { split; [unfold h3; rewrite length_app; lia|].
        intros l Hl. unfold h3. apply app_nth1. lia. }
      eapply ext_trans; [exact X3|].
      eapply touched_ext; [|apply (h_ac3_touched _ _ _ _ _ Ea)].
      intros x Hx. apply locs_h_setitem in Hx. destruct Hx as [->|Hx]; [lia|auto]. }
    cbn [h_try_values]. unfold bindS at 1. rewrite Ecp.
    unfold bindS at 1. unfold alloc at 1. fold b2.
    unfold bindS at 1. change (h2 ++ [[value]]) with h3. rewrite Ea.
    destruct r.
    + apply bind_Ret in H. destruct H as [sol [Es H]]. subst B'.
      assert (Ws4 : hwf b2 (length h4)) by (rewrite La; exact Ws).
      destruct (Hsim b2 h4 sol Ws4 Es) as [hsol [h5 [E5 V5]]].
      unfold bindS at 1. rewrite E5. rewrite <- V5 in H.
      rewrite truthy_view in H. destruct (truthy_hboard hsol).
      * inversion H; subst. exists hsol, h5. split; reflexivity.
      * apply IH; [|exact H]. eapply ext_trans; [exact X4|].
        eapply ext_le; [|eapply Hext; exact E5]. apply X4.
    + apply IH; assumption.
Qed.

(** A search over the store finds what the search by value finds. *)
Lemma solve_sim cs fuel : forall b h res,
  hwf b (length h) -> solve fuel (view b h) cs = Ret res ->
  exists hres h', h_solve fuel b cs h = Ret (hres, h') /\
                  view_result hres h' = res.
Proof.
  induction fuel as [|fuel IH]; intros b h res Hwf H; [discriminate|].
  cbn [solve] in H. cbn [h_solve]. unfold bindS at 1.
  rewrite h_is_board_complete_view.
  destruct (is_board_complete (view b h)).
  - inversion H; subst. exists (Some b), h. split; reflexivity.
  - unfold bindS at 1. rewrite h_mrv_view. unfold bindS at 1.
    assert (Ev : (if truthy_var (mrv (view b h)) then ret (mrv (view b h))
                  else h_degree_heuristic b cs) h
                 = Ret (py_or (mrv (view b h)) (degree_heuristic (view b h) cs), h)).
    { unfold py_or. destruct (truthy_var (mrv (view b h))); [reflexivity|].
      apply h_degree_heuristic_view. }
    rewrite Ev. clear Ev.
    destruct (negb (truthy_var (py_or (mrv (view b h))
                                      (degree_heuristic (view b h) cs)))).
    + inversion H; subst. exists None, h. split; reflexivity.
    + destruct (py_or (mrv (view b h)) (degree_heuristic (view b h) cs))
        as [var|].
      * apply bind_Ret in H. destruct H as [values [Eg H]].
        destruct (getitem_view _ _ _ _ Eg) as [l [El [Hd Hin]]].
        unfold bindS at 1. rewrite El. unfold bindS at 1. unfold read at 1.
        rewrite <- Hd.
        eapply try_values_sim; try eassumption.
        -- intros b1 h1 res1 Hwf1 E1. apply IH; assumption.
        -- intros b1 h1 hres h'. apply h_solve_ext.
        -- change var with (fst (var, l)). apply in_map. exact Hin.
        -- apply ext_refl.
      * inversion H; subst. exists None, h. split; reflexivity.
Qed.

Lemma nodup_nat_NoDup l : nodup_nat l = true -> NoDup l.
Proof.
  induction l as [|x l IH]; simpl; intros H; [constructor|].
  apply andb_true_iff in H. destruct H as [H1 H2]. constructor; [|auto].
  intros Hin. apply negb_true_iff in H1.
  assert (E : existsb (Nat.eqb x) l = true).
  { apply existsb_exists. exists x. split; [exact Hin|apply Nat.eqb_refl]. }
  congruence.
Qed.

Lemma store_ok_hwf b h : store_ok b h -> hwf b (length h) /\ board_ok (view b h).
Proof.
  unfold store_ok, store_okb. rewrite !andb_true_iff.
  intros [[H1 H2] H3]. split; [|exact H3]. repeat split.
  - rewrite <- (keys_view b h). apply (board_ok_keys _ H3).
  - apply nodup_nat_NoDup. exact H1.
  - intros l Hl. rewrite forallb_forall in H2. apply Nat.ltb_lt. auto.
Qed.

(** The search on the puzzle of the notebook answers the grid that the
    notebook prints. *)
Example solve_example :
  solve (solve_fuel example_board) example_board generate_constraints
  = Ret (Some example_solution).
Proof. vm_compute. reflexivity. Qed.

(** * The claims *)

(** C1. Search completeness fails where the board given to [solve] is
    already complete: on the board read from 81 lines [1], [solve] returns
    that board at the first test, for any depth, although no assignment
    that picks from its domains gives different values to the cells of row
    [A]. *)
Theorem solve_accepts_clashing_board :
  board_ok ones_board /\
  (forall fuel, solve (S fuel) ones_board generate_constraints
                = Ret (Some ones_board)) /\
  (forall sigma, chooses sigma ones_board = true ->
                 satisfies sigma generate_constraints = false).
Proof.
  split; [vm_compute; reflexivity|]. split.
  - intros fuel. cbn [solve].
    replace (is_board_complete ones_board) with true by (vm_compute; reflexivity).
    reflexivity.
  - intros sigma Hch. pose proof (chooses_spec _ _ Hch) as Hp.
    assert (E1 : sigma "A1" = "1").
    { specialize (Hp "A1" ["1"] eq_refl). simpl in Hp. intuition congruence. }
    assert (E2 : sigma "A2" = "1").
    { specialize (Hp "A2" ["1"] eq_refl). simpl in Hp. intuition congruence. }
    apply not_true_is_false. intros Hsat. rewrite satisfies_spec in Hsat.
    apply (Hsat (map (fun column => ("A" ++ column)%string) columns) "A1" "A2").
    + left. reflexivity.
    + left. reflexivity.
    + right. left. reflexivity.
    + discriminate.
    + congruence.
Qed.

(** C2. Constraint satisfaction of the output fails at the terminal test: the
    board read from 81 lines [1] is complete, [solve] returns it, and the
    nine cells of its first group, row [A], all hold [1]. *)
Theorem solve_returns_repeated_values :
  is_board_complete ones_board = true /\
  solve (solve_fuel ones_board) ones_board generate_constraints
  = Ret (Some ones_board) /\
  map (assignment_of ones_board) (hd [] generate_constraints)
  = ["1"; "1"; "1"; "1"; "1"; "1"; "1"; "1"; "1"].
Proof. vm_compute. repeat split; reflexivity. Qed.

(** C3. Soundness of pruning: on a board of the 81 cells, [ac3] with the
    Sudoku groups returns, and an assignment that picks a value from every
    domain and gives different values to the cells of each group still picks
    from every domain of the board that [ac3] leaves. *)
Theorem ac3_never_prunes_solution (b : Board) (sigma : Var -> Value) :
  board_ok b ->
  chooses sigma b = true ->
  satisfies sigma generate_constraints = true ->
  exists r b', ac3 b generate_constraints = Ret (r, b') /\
               chooses sigma b' = true.
Proof.
  intros Hok Hch Hsat. pose proof (board_ok_covers b Hok) as Hc.
  destruct (ac3_returns _ b Hc) as [r [b' E]]. exists r, b'. split; [exact E|].
  destruct (ac3_keeps_assignment _ sigma b r b' Hc Hsat (chooses_spec _ _ Hch) E)
    as [_ Hpick].
  apply chooses_intro; [|exact Hpick].
  rewrite (shrinks_keys _ _ (ac3_shrinks _ _ _ _ Hc E)).
  apply (board_ok_keys b Hok).
Qed.

Lemma ac3_never_prunes_solution_witness :
  exists r b', ac3 example_board generate_constraints = Ret (r, b') /\
               chooses (assignment_of example_solution) b' = true.
Proof.
  apply (ac3_never_prunes_solution example_board (assignment_of example_solution));
    vm_compute; reflexivity.
Defined.

(** C4, as stated, fails on the board whose domains are all empty: no
    revision removes anything, so [ac3] answers [True] although the domain
    of [A1] (and of every other cell) is empty. *)
Lemma ac3_true_on_empty_board :
  board_ok empty_board /\
  ac3 empty_board generate_constraints = Ret (true, empty_board) /\
  getitem empty_board "A1" = Ret [].
Proof. vm_compute. repeat split; reflexivity. Qed.

(** C4, amended. On a board of the 81 cells on which some domain holds a
    candidate, [ac3] returns a boolean and a board that has the same cells
    and only candidates of the board it was given; the boolean is [True]
    exactly when no domain of that board is empty; and a turn whose revision
    leaves the domain of [Xi] empty answers [False] at once, whatever is on
    the worklist. *)
Theorem ac3_signals_failure (b : Board) :
  board_ok b ->
  some_candidate b = true ->
  (exists r b', ac3 b generate_constraints = Ret (r, b') /\
                within b' b /\
                r = no_empty_domain b') /\
  (forall fuel Xi Xj queue bc bc',
      revise_arc_consistency Xi Xj bc = Ret (true, bc') ->
      getitem bc' Xi = Ret [] ->
      ac3_loop (S fuel) generate_constraints ((Xi, Xj) :: queue) bc
      = Ret (false, bc')).
Proof.
  intros Hok Hsome. split.
  - pose proof (board_ok_covers b Hok) as Hc.
    destruct (board_ok_keys b Hok) as [Hnd Hkeys].
    destruct (ac3_returns _ b Hc) as [r [b' E]]. exists r, b'.
    pose proof (ac3_shrinks _ _ _ _ Hc E) as Hs.
    pose proof (shrinks_board_ok _ _ Hs Hok) as Hok'.
    destruct (board_ok_keys b' Hok') as [Hnd' Hkeys'].
    split; [exact E|]. split; [apply shrinks_within; exact Hs|].
    destruct (ac3_empty_domains _ b r b' Hc E) as [Hfalse Htrue].
    destruct r.
    + symmetry. apply no_empty_domain_intro; [exact Hnd'|].
      intros k d' Ek Hnil. subst d'.
      destruct (some_candidate_spec b Hsome Hnd) as [k0 [d0 [E0 Hd0]]].
      destruct (shrinks_getitem _ _ _ _ Hs E0) as [d0' [E0' _]].
      apply (Htrue eq_refl k0 d0 E0 Hd0 d0' E0').
      assert (G : getitem b' k0 = Ret []).
      { apply (sudoku_empty_everywhere b' k k0 Hok').
        - apply (ac3_true_consistent _ b b' Hc E).
        - apply Hkeys'. eapply getitem_Ret_key. exact Ek.
        - apply Hkeys'. eapply getitem_Ret_key. exact E0'.
        - exact Ek. }
      rewrite G in E0'. inversion E0'. reflexivity.
    + symmetry. apply not_true_is_false. intros Hne.
      destruct (Hfalse eq_refl) as [k Ek].
      apply (no_empty_domain_spec b' Hne k [] Ek). reflexivity.
  - intros fuel Xi Xj queue bc bc' Er Ee. cbn [ac3_loop ac3_step].
    rewrite Er. cbn [bind fst snd]. rewrite Ee. reflexivity.
Qed.

Lemma ac3_signals_failure_witness :
  (exists r b', ac3 clash_board generate_constraints = Ret (r, b') /\
                within b' clash_board /\
                r = no_empty_domain b') /\
  ac3_loop 1 generate_constraints [("A1", "A2")] clash_board
  = Ret (false, setitem clash_board "A1" []).
Proof.
  destruct (ac3_signals_failure clash_board) as [H1 H2];
    [vm_compute; reflexivity|vm_compute; reflexivity|].
  split; [exact H1|]. apply H2; vm_compute; reflexivity.
Defined.

(** C5. AC-3 termination: on a board of the 81 cells the worklist loop
    returns a boolean and a board within [ac3_fuel] turns, and more turns
    do not change the answer.  (The bound is the one of [ac3_turn_progress]:
    a turn that goes on has removed a candidate, or has left the board alone
    and shortened the worklist.) *)
Theorem ac3_terminates (b : Board) :
  board_ok b ->
  exists r b', forall fuel,
    ac3_fuel generate_constraints b <= fuel ->
    ac3_loop fuel generate_constraints (arcs generate_constraints) b
    = Ret (r, b').
Proof.
  intros Hok. pose proof (board_ok_covers b Hok) as Hc.
  destruct (ac3_returns _ b Hc) as [r [b' E]]. exists r, b'. intros fuel Hf.
  replace fuel with (ac3_fuel generate_constraints b
                     + (fuel - ac3_fuel generate_constraints b)) by lia.
  apply ac3_loop_more_fuel. exact E.
Qed.

Lemma ac3_terminates_witness :
  exists r b', forall fuel,
    ac3_fuel generate_constraints example_board <= fuel ->
    ac3_loop fuel generate_constraints (arcs generate_constraints) example_board
    = Ret (r, b').
Proof. apply (ac3_terminates example_board). vm_compute. reflexivity. Defined.

(** C6, as stated, fails when the first run answers [False]: on the board
    where [A1] and [A2] both hold only [1], the first run empties [A1] and
    returns at once; the second run then empties [A2] as well. *)
Lemma ac3_twice_after_failure :
  exists b1 b2,
    ac3 clash_board generate_constraints = Ret (false, b1) /\
    ac3 b1 generate_constraints = Ret (false, b2) /\
    getitem b1 "A2" = Ret ["1"] /\
    getitem b2 "A2" = Ret [].
Proof.
  exists (setitem clash_board "A1" []).
  exists (setitem (setitem clash_board "A1" []) "A2" []).
  vm_compute. repeat split; reflexivity.
Qed.

(** C6, amended. Idempotence of AC-3 after success: on a board of the 81
    cells, when [ac3] answers [True] a second run on the board it leaves
    answers [True] and leaves that board as it is. *)
Theorem ac3_idempotent_on_success (b : Board) :
  board_ok b ->
  exists r b1, ac3 b generate_constraints = Ret (r, b1) /\
    (r = true -> ac3 b1 generate_constraints = Ret (true, b1)).
Proof.
  intros Hok. pose proof (board_ok_covers b Hok) as Hc.
  destruct (ac3_returns _ b Hc) as [r [b1 E]]. exists r, b1. split; [exact E|].
  intros ->. eapply ac3_fixed_point; eassumption.
Qed.

Lemma ac3_idempotent_on_success_witness :
  exists b1, ac3 example_board generate_constraints = Ret (true, b1) /\
             ac3 b1 generate_constraints = Ret (true, b1).
Proof.
  destruct (ac3_idempotent_on_success example_board) as [r [b1 [E H]]];
    [vm_compute; reflexivity|].
  assert (Hr : r = true).
  { destruct r; [reflexivity|]. vm_compute in E. discriminate E. }
  subst r. exists b1. split; [exact E|apply H; reflexivity].
Defined.

(** C7, as stated, fails for both rules.  On [naked_board] the first pass of
    [naked_single] turns [A1] into [{2}] only after row [A] has been left,
    so [2] stays in [A4] until the second pass.  On [hidden_board] the first
    pass of [hidden_single] fixes [A1] to [2] after digit [1] has been
    counted in row [A], so [A2] becomes [{1}] only in the second pass. *)
Lemma single_pass_not_idempotent :
  ((b1 <- repeat_pass naked_pass 1 naked_board ;; getitem b1 "A4")
   = Ret ["2"; "3"; "4"; "5"; "6"; "7"; "8"; "9"] /\
   (b2 <- repeat_pass naked_pass 2 naked_board ;; getitem b2 "A4")
   = Ret ["4"; "5"; "6"; "7"; "8"; "9"]) /\
  ((b1 <- repeat_pass hidden_pass 1 hidden_board ;; getitem b1 "A2")
   = Ret ["1"; "3"] /\
   (b2 <- repeat_pass hidden_pass 2 hidden_board ;; getitem b2 "A2")
   = Ret ["1"]).
Proof. vm_compute. repeat split; reflexivity. Qed.

(** C7, amended. Each rule is a single pass that only removes candidates, and
    is not idempotent; repeated on a board of the 81 cells it reaches, within
    as many passes as the board has candidates, a board that has the same
    cells and only candidates of the first board and that one more pass of
    the rule leaves as it is. *)
Theorem local_rules_converge (b : Board) :
  board_ok b ->
  (exists m b', m <= total_size b /\ repeat_pass naked_pass m b = Ret b' /\
                within b' b /\ naked_pass b' = Ret b') /\
  (exists m b', m <= total_size b /\ repeat_pass hidden_pass m b = Ret b' /\
                within b' b /\ hidden_pass b' = Ret b').
Proof.
  intros Hok. split.
  - destruct (repeat_pass_converges naked_pass) with (n := total_size b) (b := b)
      as [m [b' [Hm [E [Hs Hfix]]]]]; [|exact Hok|lia|].
    + intros b0 Hok0. apply naked_single_shrinks. apply board_ok_covers. exact Hok0.
    + exists m, b'. auto using shrinks_within.
  - destruct (repeat_pass_converges hidden_pass) with (n := total_size b) (b := b)
      as [m [b' [Hm [E [Hs Hfix]]]]]; [|exact Hok|lia|].
    + intros b0 Hok0. apply hidden_single_shrinks. apply board_ok_covers. exact Hok0.
    + exists m, b'. auto using shrinks_within.
Qed.

Lemma local_rules_converge_witness :
  (exists m b', m <= total_size naked_board /\
                repeat_pass naked_pass m naked_board = Ret b' /\
                within b' naked_board /\ naked_pass b' = Ret b') /\
  (exists m b', m <= total_size naked_board /\
                repeat_pass hidden_pass m naked_board = Ret b' /\
                within b' naked_board /\ hidden_pass b' = Ret b').
Proof. apply (local_rules_converge naked_board). vm_compute. reflexivity. Defined.

(** C8. The degree heuristic never decides: on a board of the 81 cells,
    [mrv] answers [None] exactly when [degree_heuristic] does, which is
    exactly when no domain has more than one candidate; a cell that [mrv]
    answers is a true value; so [mrv(board) or degree_heuristic(board,
    constraints)] is the answer of [mrv]. *)
Theorem degree_heuristic_never_decides (b : Board) :
  board_ok b ->
  (mrv b = None <-> degree_heuristic b generate_constraints = None) /\
  (mrv b = None <->
   forall k d, getitem b k = Ret d -> length d <= 1) /\
  (forall v, mrv b = Some v -> truthy_var (Some v) = true) /\
  py_or (mrv b) (degree_heuristic b generate_constraints) = mrv b.
Proof.
  intros Hok.
  assert (H1 : mrv b = None <-> degree_heuristic b generate_constraints = None).
  { unfold mrv, degree_heuristic. rewrite py_min_None, py_max_None. reflexivity. }
  split; [exact H1|]. split; [|split].
  - unfold mrv. rewrite py_min_None. apply unassigned_nil.
  - intros v. apply mrv_truthy. exact Hok.
  - unfold py_or. destruct (mrv b) as [v|] eqn:E.
    + rewrite (mrv_truthy b v Hok E). reflexivity.
    + simpl. apply H1. reflexivity.
Qed.

Lemma degree_heuristic_never_decides_witness :
  mrv example_board = Some "A1" /\
  py_or (mrv example_board) (degree_heuristic example_board generate_constraints)
  = mrv example_board.
Proof.
  split; [vm_compute; reflexivity|].
  apply (degree_heuristic_never_decides example_board). vm_compute. reflexivity.
Defined.

(** C9. No mutation of the caller's board.  For a board of the 81 cells held
    in a store, each cell with its own set object: [mrv] and
    [degree_heuristic] return with the store as it was, and [solve] returns
    with a store in which the board that was passed, seen through the same
    dict, holds for every cell the domain it held before the call. *)
Theorem search_leaves_board (b : HBoard) (h : Heap) :
  store_ok b h ->
  (exists v, h_mrv b h = Ret (v, h)) /\
  (exists v, h_degree_heuristic b generate_constraints h = Ret (v, h)) /\
  (exists res h',
      h_solve (solve_fuel (view b h)) b generate_constraints h = Ret (res, h') /\
      view b h' = view b h).
Proof.
  intros Hok. destruct (store_ok_hwf b h Hok) as [Hwf Hb]. split; [|split].
  - eexists. apply h_mrv_view.
  - eexists. apply h_degree_heuristic_view.
  - destruct (solve_returns (solve_fuel (view b h)) (view b h) Hb) as [res E].
    { unfold solve_fuel. lia. }
    destruct (solve_sim _ _ b h res Hwf E) as [hres [h' [Eh _]]].
    exists hres, h'. split; [exact Eh|].
    apply view_ext; [apply Hwf|]. eapply h_solve_ext. exact Eh.
Qed.

Lemma search_leaves_board_witness :
  exists res h',
    h_solve (solve_fuel example_board) (fst (store_board example_board))
            generate_constraints (snd (store_board example_board))
    = Ret (res, h') /\
    view (fst (store_board example_board)) h' = example_board.
Proof.
  destruct (search_leaves_board (fst (store_board example_board))
              (snd (store_board example_board))) as [_ [_ H]].
  - vm_compute. reflexivity.
  - exact H.
Defined.

(** C10. Coverage and shrinking: on a board of the 81 cells, [naked_single],
    [hidden_single] and [ac3] each return a board with the same keys, whose
    every domain has only candidates of the domain the cell had before. *)
Theorem rules_keep_cells_and_shrink (b : Board) :
  board_ok b ->
  (exists b', naked_single b generate_constraints = Ret b' /\ within b' b) /\
  (exists b', hidden_single b generate_constraints = Ret b' /\ within b' b) /\
  (exists r b', ac3 b generate_constraints = Ret (r, b') /\ within b' b).
Proof.
  intros Hok. pose proof (board_ok_covers b Hok) as Hc. repeat split.
  - destruct (naked_single_shrinks _ b Hc) as [b' [E Hs]].
    exists b'. auto using shrinks_within.
  - destruct (hidden_single_shrinks _ b Hc) as [b' [E Hs]].
    exists b'. auto using shrinks_within.
  - destruct (ac3_returns _ b Hc) as [r [b' E]]. exists r, b'.
    split; [exact E|]. apply shrinks_within. eapply ac3_shrinks; eassumption.
Qed.

Lemma rules_keep_cells_and_shrink_witness :
  (exists b', naked_single example_board generate_constraints = Ret b' /\
              within b' example_board) /\
  (exists b', hidden_single example_board generate_constraints = Ret b' /\
              within b' example_board) /\
  (exists r b', ac3 example_board generate_constraints = Ret (r, b') /\
                within b' example_board).
Proof. apply (rules_keep_cells_and_shrink example_board). vm_compute. reflexivity. Defined.

(** * Further properties of the code *)

(** ** The search *)

Lemma try_values_more_fuel (search search' : Board -> outcome (option Board))
    b cs var :
  (forall b' r, search b' = Ret r -> search' b' = Ret r) ->
  forall values res,
    try_values search b cs var values = Ret res ->
    try_values search' b cs var values = Ret res.
Proof.
  intros Hs. induction values as [|value vs IH]; intros res H; simpl in *;
    [exact H|].
  destruct (ac3 (setitem (copy_board b) var [value]) cs) as [[r b']| |];
    simpl in *; try discriminate.
  destruct r; [|auto].
  destruct (search b') as [sol| |] eqn:E; simpl in H; try discriminate.
  rewrite (Hs _ _ E). simpl. destruct (truthy_board sol); auto.
Qed.

Lemma solve_more_fuel cs fuel : forall b res n,
  solve fuel b cs = Ret res -> solve (fuel + n) b cs = Ret res.
Proof.
  induction fuel as [|fuel IH]; intros b res n H; [discriminate|].
  cbn [solve Nat.add] in *. destruct (is_board_complete b); [exact H|].
  destruct (negb (truthy_var (py_or (mrv b) (degree_heuristic b cs))));
    [exact H|].
  destruct (py_or (mrv b) (degree_heuristic b cs)) as [var|]; [|exact H].
  destruct (getitem b var) as [values| |]; simpl in *; try discriminate.
  eapply try_values_more_fuel; [|exact H]. intros b' r. apply IH.
Qed.

(** X1. [solve] returns on every board of the 81 cells: the recursion is no
    deeper than the number of cells with more than one candidate, plus one,
    it raises no exception, and a larger allowance gives the same answer. *)
Theorem solve_depth_bounded (b : Board) :
  board_ok b ->
  exists res, forall fuel,
    length (unassigned b) < fuel ->
    solve fuel b generate_constraints = Ret res.
Proof.
  intros Hok.
  destruct (solve_returns (solve_fuel b) b Hok) as [res E];
    [unfold solve_fuel; lia|].
  exists res. intros fuel Hf.
  replace fuel with (solve_fuel b + (fuel - solve_fuel b))
    by (unfold solve_fuel in *; lia).
  apply solve_more_fuel. exact E.
Qed.

Lemma solve_depth_bounded_witness :
  exists res, forall fuel,
    length (unassigned clash_board) < fuel ->
    solve fuel clash_board generate_constraints = Ret res.
Proof. apply (solve_depth_bounded clash_board). vm_compute. reflexivity. Defined.

(** X2. A board that [solve] returns for a board of the 81 cells that was
    not complete when passed is complete, has only candidates of the board
    passed, and gives different values to the cells of every group; when the
    candidates passed are digits, every group holds the nine digits. *)
Theorem solve_answer_is_solution (fuel : nat) (b s : Board) :
  board_ok b ->
  is_board_complete b = false ->
  solve fuel b generate_constraints = Ret (Some s) ->
  is_board_complete s = true /\
  within s b /\
  satisfies (assignment_of s) generate_constraints = true /\
  (digits_only b = true ->
   forall g, In g generate_constraints ->
     Permutation (map (assignment_of s) g) digits).
Proof.
  intros Hok Hinc E.
  assert (Hsol : solved_from b s).
  { eapply solve_sound; [exact Hok| |exact E]. congruence. }
  pose proof Hsol as [Hs [Hc Hv]].
  split; [exact Hc|]. split; [apply shrinks_within; exact Hs|].
  split; [exact Hv|].
  intros Hd. apply (solved_groups_are_permutations b s Hok Hd Hsol).
Qed.

Lemma solve_answer_is_solution_witness :
  is_board_complete example_solution = true /\
  within example_solution example_board /\
  satisfies (assignment_of example_solution) generate_constraints = true /\
  (digits_only example_board = true ->
   forall g, In g generate_constraints ->
     Permutation (map (assignment_of example_solution) g) digits).
Proof.
  apply (solve_answer_is_solution (solve_fuel example_board) example_board);
    vm_compute; reflexivity.
Defined.

(** X3. Where some assignment picks a value from every domain of a board of
    the 81 cells and gives different values to the cells of every group,
    [solve] returns a board, and that board is complete, has only candidates
    of the board passed and satisfies the groups. *)
Theorem solve_finds_a_solution (b : Board) (sigma : Var -> Value) :
  board_ok b ->
  chooses sigma b = true ->
  satisfies sigma generate_constraints = true ->
  exists s, solve (solve_fuel b) b generate_constraints = Ret (Some s) /\
            is_board_complete s = true /\
            within s b /\
            satisfies (assignment_of s) generate_constraints = true.
Proof.
  intros Hok Hch Hsat.
  destruct (solve_finds_solution b sigma Hok Hch Hsat) as [s [E [Hs [Hc Hv]]]].
  exists s. split; [exact E|]. split; [exact Hc|].
  split; [apply shrinks_within; exact Hs|exact Hv].
Qed.

Lemma solve_finds_a_solution_witness :
  exists s, solve (solve_fuel example_board) example_board generate_constraints
            = Ret (Some s) /\
            is_board_complete s = true /\
            within s example_board /\
            satisfies (assignment_of s) generate_constraints = true.
Proof.
  apply (solve_finds_a_solution example_board (assignment_of example_solution));
    vm_compute; reflexivity.
Defined.

(** X4. On a board of the 81 cells that is not complete when passed, [solve]
    answers [None] exactly when no assignment from the domains gives
    different values to the cells of every group. *)
Theorem solve_none_iff_unsolvable (b : Board) :
  board_ok b ->
  is_board_complete b = false ->
  (solve (solve_fuel b) b generate_constraints = Ret None <->
   forall sigma, chooses sigma b = true ->
                 satisfies sigma generate_constraints = false).
Proof.
  intros Hok Hinc. split.
  - intros E sigma Hch. destruct (satisfies sigma generate_constraints) eqn:S;
      [|reflexivity].
    destruct (solve_finds_solution b sigma Hok Hch S) as [s [Es _]].
    rewrite Es in E. discriminate.
  - apply solve_exhausts; assumption.
Qed.

Lemma solve_none_iff_unsolvable_witness :
  solve (solve_fuel clash_board) clash_board generate_constraints = Ret None /\
  forall sigma, chooses sigma clash_board = true ->
                satisfies sigma generate_constraints = false.
Proof.
  pose proof (solve_none_iff_unsolvable clash_board) as H.
  assert (E : solve (solve_fuel clash_board) clash_board generate_constraints
              = Ret None) by (vm_compute; reflexivity).
  split; [exact E|].
  apply H; [vm_compute; reflexivity|vm_compute; reflexivity|exact E].
Defined.

(** ** AC-3 *)

Lemma complete_valid_consistent cs b :
  covers cs b -> is_board_complete b = true ->
  satisfies (assignment_of b) cs = true ->
  forall a, arc_ok cs a -> arc_consistent b a.
Proof.
  intros Hcov Hc Hsat [Xi Xj] [Hne [g [Hg [Hi Hj]]]] di dj Ei Ej x Hx.
  simpl in *. rewrite satisfies_spec in Hsat.
  destruct (complete_single b Xi Hc (Hcov g Xi Hg Hi)) as [vi [Evi Ai]].
  destruct (complete_single b Xj Hc (Hcov g Xj Hg Hj)) as [vj [Evj Aj]].
  rewrite Evi in Ei. rewrite Evj in Ej. inversion Ei; inversion Ej; subst di dj.
  destruct Hx as [<-|[]]. exists vj. split; [left; reflexivity|].
  rewrite <- Ai, <- Aj. apply not_eq_sym. eapply Hsat; eassumption.
Qed.

Lemma subseq_of_single {A} (d : list A) v : subseq d [v] -> d = [] \/ d = [v].
Proof.
  intros H. inversion H as [|x l1 l2 H1|x l1 l2 H1]; subst.
  - inversion H1; subst. left. reflexivity.
  - inversion H1; subst. right. reflexivity.
Qed.

Lemma discard_absent v d : ~ In v d -> discard v d = d.
Proof.
  intros H. unfold discard. apply filter_all. apply forallb_forall.
  intros y Hy. apply negb_true_iff, String.eqb_neq. intros ->. contradiction.
Qed.

Lemma foldM_fixed {A S} (f : S -> A -> outcome S) l s :
  (forall a, In a l -> f s a = Ret s) -> foldM f l s = Ret s.
Proof.
  induction l as [|a l IH]; intros H; simpl; [reflexivity|].
  rewrite (H a (or_introl eq_refl)). simpl. apply IH.
  intros x Hx. apply H. right. exact Hx.
Qed.

Lemma naked_single_consistent cs b :
  covers cs b -> (forall a, arc_ok cs a -> arc_consistent b a) ->
  naked_single b cs = Ret b.
Proof.
  intros Hcov Hcons. unfold naked_single. apply foldM_fixed. intros g Hg.
  unfold naked_single_group. apply foldM_fixed. intros K HK.
  unfold naked_single_var.
  destruct (getitem_In b K (Hcov g K Hg HK)) as [d Ed]. rewrite Ed. simpl.
  destruct (length d =? 1) eqn:L; [|reflexivity].
  destruct d as [|v [|w d]]; try discriminate.
  apply foldM_fixed. intros X HX. unfold naked_single_delete.
  destruct (String.eqb_spec X K) as [E|N]; simpl; [reflexivity|].
  destruct (getitem_In b X (Hcov g X Hg HX)) as [target Et].
  rewrite Et, Ed. simpl. rewrite discard_absent.
  - rewrite (setitem_same _ _ _ Et). reflexivity.
  - intros Hin.
    assert (Hok : arc_ok cs (X, K)) by (split; simpl; eauto).
    destruct (Hcons _ Hok target [v] Et Ed v Hin) as [y [[<-|[]] Hy]].
    congruence.
Qed.

(** X5. What [True] from [ac3] means.  On a board of the 81 cells, when
    [ac3] answers [True] every arc is consistent on the board it leaves: for
    two different cells of a group, every candidate of the first differs
    from some candidate of the second.  And [ac3] answers [True] without
    removing anything exactly on the boards where every arc is consistent
    already. *)
Theorem ac3_true_means_arc_consistent (b : Board) :
  board_ok b ->
  (forall b', ac3 b generate_constraints = Ret (true, b') ->
     forall a, In a (arcs generate_constraints) -> arc_consistent b' a) /\
  (ac3 b generate_constraints = Ret (true, b) <->
   forall a, In a (arcs generate_constraints) -> arc_consistent b a).
Proof.
  intros Hok. pose proof (board_ok_covers b Hok) as Hc. split.
  - intros b' E a Ha. apply (ac3_true_consistent _ b b' Hc E).
    apply In_arcs. exact Ha.
  - split.
    + intros E a Ha. apply (ac3_true_consistent _ b b Hc E).
      apply In_arcs. exact Ha.
    + intros Hcons. unfold ac3. apply ac3_loop_consistent; try assumption.
      * apply arcs_arc_ok.
      * unfold ac3_fuel. lia.
Qed.

Lemma ac3_true_means_arc_consistent_witness :
  exists b', ac3 example_board generate_constraints = Ret (true, b') /\
             forall a, In a (arcs generate_constraints) -> arc_consistent b' a.
Proof.
  destruct (ac3_true_means_arc_consistent example_board) as [H _];
    [vm_compute; reflexivity|].
  destruct (ac3 example_board generate_constraints) as [[r b']| |] eqn:E;
    [|vm_compute in E; discriminate E|vm_compute in E; discriminate E].
  assert (Hr : r = true).
  { destruct r; [reflexivity|]. vm_compute in E. discriminate E. }
  subst r. exists b'. split; [reflexivity|]. apply H. reflexivity.
Defined.

(** X6. On a complete board of the 81 cells [ac3] is a validity check: it
    answers [True] exactly when the values of the board differ within every
    group, and then it leaves the board as it is. *)
Theorem ac3_checks_complete_board (b : Board) :
  board_ok b ->
  is_board_complete b = true ->
  exists b', ac3 b generate_constraints
             = Ret (satisfies (assignment_of b) generate_constraints, b') /\
             (satisfies (assignment_of b) generate_constraints = true -> b' = b).
Proof.
  intros Hok Hc. pose proof (board_ok_covers b Hok) as Hcov.
  destruct (satisfies (assignment_of b) generate_constraints) eqn:S.
  - exists b. split; [|reflexivity]. unfold ac3.
    apply ac3_loop_consistent; try assumption.
    + apply arcs_arc_ok.
    + intros a Ha. apply (complete_valid_consistent _ b Hcov Hc S).
      apply In_arcs. exact Ha.
    + unfold ac3_fuel. lia.
  - destruct (ac3_returns _ b Hcov) as [r [b' E]]. exists b'.
    split; [|discriminate]. rewrite E. f_equal. f_equal.
    destruct r; [|reflexivity]. exfalso.
    pose proof (ac3_shrinks _ _ _ _ Hcov E) as Hs.
    destruct (ac3_empty_domains _ b true b' Hcov E) as [_ Hne].
    assert (Hsame : forall k d, getitem b k = Ret d -> getitem b' k = Ret d).
    { intros k d Ed.
      destruct (complete_single b k Hc (getitem_Ret_key _ _ _ Ed)) as [v [Ev _]].
      rewrite Ev in Ed. inversion Ed; subst d.
      destruct (shrinks_getitem _ _ _ _ Hs Ev) as [d' [Ed' Hsub]].
      destruct (subseq_of_single _ _ Hsub) as [->| ->]; [|exact Ed'].
      exfalso. apply (Hne eq_refl k [v] Ev ltac:(discriminate) [] Ed').
      reflexivity. }
    assert (Hv : satisfies (assignment_of b) generate_constraints = true).
    { apply complete_consistent_valid; try assumption.
      intros a Ha di dj Ei Ej.
      apply (ac3_true_consistent _ b b' Hcov E a Ha di dj); auto. }
    congruence.
Qed.

Lemma ac3_checks_complete_board_witness :
  exists b', ac3 ones_board generate_constraints = Ret (false, b').
Proof.
  destruct (ac3_checks_complete_board ones_board) as [b' [E _]];
    [vm_compute; reflexivity|vm_compute; reflexivity|].
  exists b'. exact E.
Defined.

(** X7. AC-3 does the work of the naked-single rule: on a board of the 81
    cells, a pass of [naked_single] over a board that [ac3] has answered
    [True] for removes nothing. *)
Theorem ac3_subsumes_naked_single (b : Board) :
  board_ok b ->
  exists r b', ac3 b generate_constraints = Ret (r, b') /\
               (r = true -> naked_single b' generate_constraints = Ret b').
Proof.
  intros Hok. pose proof (board_ok_covers b Hok) as Hcov.
  destruct (ac3_returns _ b Hcov) as [r [b' E]]. exists r, b'.
  split; [exact E|]. intros ->. apply naked_single_consistent.
  - eapply covers_shrinks; [|exact Hcov]. eapply ac3_shrinks; eassumption.
  - apply (ac3_true_consistent _ b b' Hcov E).
Qed.

Lemma ac3_subsumes_naked_single_witness :
  exists b', ac3 example_board generate_constraints = Ret (true, b') /\
             naked_single b' generate_constraints = Ret b'.
Proof.
  destruct (ac3_subsumes_naked_single example_board) as [r [b' [E H]]];
    [vm_compute; reflexivity|].
  assert (Hr : r = true).
  { destruct r; [reflexivity|]. vm_compute in E. discriminate E. }
  subst r. exists b'. split; [exact E|apply H; reflexivity].
Defined.

Lemma ac3_keeps_consistent_board cs c b r b' :
  covers cs b -> keys c = keys b ->
  (forall a, arc_ok cs a -> arc_consistent c a) ->
  (forall k d, getitem c k = Ret d ->
     exists d0, getitem b k = Ret d0 /\ incl d d0) ->
  ac3 b cs = Ret (r, b') ->
  forall k d, getitem c k = Ret d ->
    exists d', getitem b' k = Ret d' /\ incl d d'.
Proof.
  intros Hc Hk Hcons Hin E. unfold ac3 in E.
  set (P := fun bc : Board => forall k d, getitem c k = Ret d ->
                exists d', getitem bc k = Ret d' /\ incl d d').
  eapply (ac3_loop_rule cs (fun _ bc => P bc) (fun _ bc => P bc));
    [| |apply arcs_arc_ok|exact Hc|exact Hin|exact E].
  - auto.
  - intros Xi Xj q bc di dj Ha _ Hcb HI Ei Ej.
    assert (HP : P (setitem bc Xi (filter (supported dj) di))).
    { intros k d Ek. destruct (String.eqb_spec Xi k) as [Ek'|Nk].
      - subst k. rewrite getitem_setitem_eq. eexists. split; [reflexivity|].
        intros x Hx. apply filter_In.
        destruct (HI Xi d Ek) as [di' [Ei' Hdi]].
        rewrite Ei in Ei'. inversion Ei'; subst di'.
        split; [apply Hdi; exact Hx|].
        destruct (getitem_In c Xj) as [cj Ecj].
        { rewrite Hk. destruct Ha as [_ [g [Hg [_ Hj]]]]. simpl in Hj.
          eapply Hc; eassumption. }
        destruct (HI Xj cj Ecj) as [dj' [Ej' Hdj]].
        rewrite Ej in Ej'. inversion Ej'; subst dj'.
        destruct (Hcons (Xi, Xj) Ha d cj Ek Ecj x Hx) as [y [Hy Hne]].
        apply supported_spec. exists y. split; [apply Hdj; exact Hy|exact Hne].
      - rewrite getitem_setitem_neq by exact Nk. apply (HI k d Ek). }
    unfold ac3_next. destruct (forallb (supported dj) di); [exact HI|].
    destruct (length (filter (supported dj) di) =? 0); exact HP.
Qed.

(** X23. [ac3] removes no more than arc consistency asks for.  On a board
    of the 81 cells, a board with the same cells and only candidates of the
    board passed on which every arc is consistent has only candidates of
    the board that [ac3] leaves.  So when [ac3] answers [True], what it
    leaves is the largest arc-consistent board within the board passed. *)
Theorem ac3_result_is_largest (b c : Board) :
  board_ok b ->
  within c b ->
  (forall a, In a (arcs generate_constraints) -> arc_consistent c a) ->
  exists r b', ac3 b generate_constraints = Ret (r, b') /\ within c b'.
Proof.
  intros Hok [Hk Hin] Hcons. pose proof (board_ok_covers b Hok) as Hc.
  destruct (ac3_returns _ b Hc) as [r [b' E]]. exists r, b'.
  split; [exact E|]. split.
  - rewrite Hk. symmetry. apply shrinks_keys. eapply ac3_shrinks; eassumption.
  - apply (ac3_keeps_consistent_board _ c b r b' Hc Hk); try assumption.
    intros a Ha. apply Hcons. apply In_arcs. exact Ha.
Qed.

Lemma ac3_result_is_largest_witness :
  exists r b', ac3 example_board generate_constraints = Ret (r, b') /\
               within example_solution b'.
Proof.
  apply (ac3_result_is_largest example_board example_solution).
  - vm_compute. reflexivity.
  - apply shrinks_within.
    assert (Hs : solved_from example_board example_solution).
    { apply (solve_sound (solve_fuel example_board));
        [vm_compute; reflexivity|intros H; vm_compute in H; discriminate H
        |vm_compute; reflexivity]. }
    apply Hs.
  - intros a Ha. apply (complete_valid_consistent generate_constraints).
    + apply board_ok_covers. vm_compute. reflexivity.
    + vm_compute. reflexivity.
    + vm_compute. reflexivity.
    + apply In_arcs. exact Ha.
Defined.

(** ** One revision *)

Lemma getitem_missing b k : ~ In k (keys b) -> getitem b k = Raise KeyError.
Proof.
  induction b as [|[k' d'] b IH]; simpl; intros H; [reflexivity|].
  destruct (String.eqb_spec k' k) as [E|N].
  - exfalso. apply H. left. exact E.
  - apply IH. intros Hin. apply H. right. exact Hin.
Qed.

Lemma supported_two v w dj x : v <> w -> supported (v :: w :: dj) x = true.
Proof.
  intros N. apply supported_spec. destruct (String.eqb_spec v x) as [E|Ne].
  - exists w. simpl. split; [auto|congruence].
  - exists v. simpl. auto.
Qed.

(** X8. What one revision removes.  For two different cells of the board,
    [revise_arc_consistency(Xi, Xj, board)] changes nothing and answers
    [False] when [Xj] has two or more candidates; when [Xj] has the single
    candidate [v] it removes [v] from [Xi] and answers whether [v] was
    there; when [Xj] has no candidate it empties [Xi] and answers whether
    [Xi] had any. *)
Theorem revise_by_second_domain (Xi Xj : Var) (b : Board) (di dj : Domain) :
  Xi <> Xj ->
  getitem b Xi = Ret di ->
  getitem b Xj = Ret dj ->
  nodupb dj = true ->
  revise_arc_consistency Xi Xj b
  = Ret (match dj with
         | [] => (negb (length di =? 0), setitem b Xi [])
         | [v] => (contains v di, setitem b Xi (discard v di))
         | _ => (false, b)
         end).
Proof.
  intros Hne Ei Ej Hnd. rewrite (revise_spec Xi Xj dj Hne b di Ei Ej).
  destruct dj as [|v [|w dj]].
  - f_equal. f_equal.
    + clear Ei. destruct di; reflexivity.
    + f_equal. clear Ei. induction di as [|x di IH]; simpl; [reflexivity|exact IH].
  - f_equal. f_equal.
    + clear Ei. unfold contains. induction di as [|x di IH]; simpl; [reflexivity|].
      rewrite orb_false_r, (String.eqb_sym x v).
      destruct (v =? x)%string; simpl; [reflexivity|exact IH].
    + f_equal. unfold discard. apply filter_ext. intros x. simpl.
      apply orb_false_r.
  - assert (Hvw : v <> w).
    { simpl in Hnd. apply andb_true_iff in Hnd. destruct Hnd as [H _].
      apply negb_true_iff in H. simpl in H. apply orb_false_iff in H.
      destruct H as [H _]. apply String.eqb_neq in H. congruence. }
    assert (Hall : forallb (supported (v :: w :: dj)) di = true).
    { apply forallb_forall. intros x _. apply supported_two. exact Hvw. }
    rewrite Hall, (filter_all _ _ Hall), (setitem_same _ _ _ Ei). reflexivity.
Qed.

Lemma revise_by_second_domain_witness :
  revise_arc_consistency "A2" "A1" clash_board
  = Ret (true, setitem clash_board "A2" []).
Proof.
  apply (revise_by_second_domain "A2" "A1" clash_board ["1"] ["1"]).
  - discriminate.
  - reflexivity.
  - reflexivity.
  - reflexivity.
Defined.

(** X9. Edge cases of one revision.  A cell [Xi] that the board does not
    have raises [KeyError].  A cell [Xi] without candidates gives [False]
    and the board as it was, also when the board does not have [Xj]: the
    loop body that looks [Xj] up is never run.  With a candidate in [Xi], a
    cell [Xj] that the board does not have raises [KeyError].  And an arc
    from a cell to itself empties a domain of one candidate. *)
Theorem revise_edge_cases (Xi Xj : Var) (b : Board) :
  (~ In Xi (keys b) -> revise_arc_consistency Xi Xj b = Raise KeyError) /\
  (getitem b Xi = Ret [] -> revise_arc_consistency Xi Xj b = Ret (false, b)) /\
  (forall di, getitem b Xi = Ret di -> di <> [] -> ~ In Xj (keys b) ->
              revise_arc_consistency Xi Xj b = Raise KeyError) /\
  (forall v, getitem b Xi = Ret [v] ->
             revise_arc_consistency Xi Xi b = Ret (true, setitem b Xi [])).
Proof.
  unfold revise_arc_consistency. repeat split.
  - intros H. rewrite (getitem_missing _ _ H). reflexivity.
  - intros E. rewrite E. reflexivity.
  - intros di E Hne Hj. rewrite E. destruct di as [|x di]; [congruence|].
    simpl. unfold revise_value at 1. simpl.
    rewrite (getitem_missing _ _ Hj). reflexivity.
  - intros v E. rewrite E. simpl. unfold revise_value. simpl. rewrite E. simpl.
    rewrite String.eqb_refl. simpl.
    unfold discard. simpl. reflexivity.
Qed.

Lemma revise_edge_cases_witness :
  revise_arc_consistency "Z9" "A1" example_board = Raise KeyError /\
  revise_arc_consistency "A1" "Z9" empty_board = Ret (false, empty_board) /\
  revise_arc_consistency "A1" "Z9" ones_board = Raise KeyError /\
  revise_arc_consistency "A1" "A1" ones_board
  = Ret (true, setitem ones_board "A1" []).
Proof.
  split; [|split; [|split]].
  - apply (revise_edge_cases "Z9" "A1" example_board).
    vm_compute. intros H. repeat (destruct H as [H|H]; [discriminate H|]).
    exact H.
  - apply (revise_edge_cases "A1" "Z9" empty_board). reflexivity.
  - apply (proj1 (proj2 (proj2 (revise_edge_cases "A1" "Z9" ones_board))) ["1"]).
    + reflexivity.
    + discriminate.
    + vm_compute. intros H. repeat (destruct H as [H|H]; [discriminate H|]).
      exact H.
  - apply (proj2 (proj2 (proj2 (revise_edge_cases "A1" "A1" ones_board))) "1").
    reflexivity.
Defined.

(** ** The local deduction rules *)

Lemma naked_single_keeps cs sigma b :
  covers cs b -> satisfies sigma cs = true ->
  (forall k d, getitem b k = Ret d -> In (sigma k) d) ->
  exists b', naked_single b cs = Ret b' /\ keys b' = keys b /\
             forall k d, getitem b' k = Ret d -> In (sigma k) d.
Proof.
  intros Hc Hsat Hp. rewrite satisfies_spec in Hsat.
  set (Inv := fun s : Board => keys s = keys b /\
                forall k d, getitem s k = Ret d -> In (sigma k) d).
  assert (HI : Inv b) by (split; [reflexivity|exact Hp]).
  unfold naked_single.
  apply (foldM_invariant Inv); [|exact HI].
  intros s g Hg Hs. unfold naked_single_group.
  apply (foldM_invariant Inv); [|exact Hs].
  intros s2 K HK [Hk2 Hp2]. unfold naked_single_var.
  assert (Hin : forall k, In k g -> In k (keys s2)).
  { intros k Hk. rewrite Hk2. eapply Hc; eassumption. }
  destruct (getitem_In s2 K (Hin K HK)) as [d Ed]. rewrite Ed. simpl.
  destruct (length d =? 1) eqn:L;
    [|exists s2; split; [reflexivity|split; assumption]].
  destruct d as [|v [|w d]]; try discriminate.
  assert (Ev : sigma K = v).
  { destruct (Hp2 K [v] Ed) as [E|[]]. symmetry. exact E. }
  destruct (foldM_invariant (fun t => Inv t /\ getitem t K = Ret [v])
              (naked_single_delete K) g) with (s := s2) as [t [Et [Ht _]]].
  - intros t X HX [[Hkt Hpt] EK]. unfold naked_single_delete.
    destruct (String.eqb_spec X K) as [E|N]; simpl.
    + exists t. repeat split; assumption.
    + assert (HXt : In X (keys t)) by (rewrite Hkt, <- Hk2; auto).
      destruct (getitem_In t X HXt) as [target ET]. rewrite ET, EK. simpl.
      eexists. split; [reflexivity|]. split; [split|].
      * rewrite keys_setitem by exact HXt. exact Hkt.
      * intros k d Ek. destruct (String.eqb_spec X k) as [E|Nk].
        -- subst k. rewrite getitem_setitem_eq in Ek. inversion Ek; subst d.
           unfold discard. apply filter_In. split; [apply (Hpt X target ET)|].
           apply negb_true_iff, String.eqb_neq. rewrite <- Ev.
           eapply Hsat; eassumption.
        -- rewrite getitem_setitem_neq in Ek by exact Nk. apply (Hpt k d Ek).
      * rewrite getitem_setitem_neq by exact N. exact EK.
  - split; [split; assumption|exact Ed].
  - exists t. split; [exact Et|exact Ht].
Qed.

Lemma last_cons_default {A} (l : list A) : forall x d, last (x :: l) d = last l x.
Proof.
  induction l as [|y l IH]; intros x d; [reflexivity|].
  change (last (x :: y :: l) d) with (last (y :: l) d).
  rewrite (IH y d), (IH y x). reflexivity.
Qed.

(** The scan of [hidden_single] counts the cells of the group that hold the
    digit and remembers the last of them. *)
Lemma hidden_single_scan_count b digit const : forall st,
  (forall k, In k const -> In k (keys b)) ->
  foldM (hidden_single_scan b digit) const st
  = Ret (fst st
         + length (filter (fun k => contains digit (dom_of b k)) const),
         last (map Some (filter (fun k => contains digit (dom_of b k)) const))
              (snd st)).
Proof.
  induction const as [|K const IH]; intros [c l] Hc.
  - simpl. rewrite Nat.add_0_r. reflexivity.
  - destruct (getitem_In b K (Hc K (or_introl eq_refl))) as [d Ed].
    assert (Hc' : forall k, In k const -> In k (keys b))
      by (intros k Hk; apply Hc; right; exact Hk).
    assert (Hd : dom_of b K = d) by (unfold dom_of; rewrite Ed; reflexivity).
    cbn [foldM filter]. unfold hidden_single_scan at 1.
    rewrite Ed, Hd. cbn [bind fst snd].
    destruct (contains digit d); cbn [bind]; rewrite (IH _ Hc'); cbn [fst snd].
    + rewrite length_cons, map_cons, last_cons_default.
      f_equal. f_equal. lia.
    + reflexivity.
Qed.

Lemma filter_single {A} (f : A -> bool) l K :
  filter f l = [K] ->
  In K l /\ f K = true /\ forall X, In X l -> f X = true -> X = K.
Proof.
  intros E.
  assert (HK : In K (filter f l)) by (rewrite E; left; reflexivity).
  apply filter_In in HK. destruct HK as [H1 H2]. repeat split; try assumption.
  intros X HX HfX.
  assert (H : In X (filter f l)) by (apply filter_In; auto).
  rewrite E in H. destruct H as [H|[]]. symmetry. exact H.
Qed.

Lemma hidden_single_keeps sigma b :
  board_ok b -> digits_only b = true ->
  satisfies sigma generate_constraints = true ->
  (forall k d, getitem b k = Ret d -> In (sigma k) d) ->
  exists b', hidden_single b generate_constraints = Ret b' /\
             keys b' = keys b /\
             forall k d, getitem b' k = Ret d -> In (sigma k) d.
Proof.
  intros Hok Hdig Hsat Hp. pose proof (board_ok_covers b Hok) as Hc.
  rewrite satisfies_spec in Hsat.
  set (Inv := fun s : Board =>
         keys s = keys b /\
         (forall k d, getitem s k = Ret d -> In (sigma k) d) /\
         (forall k d, getitem s k = Ret d -> incl d digits)).
  assert (HI : Inv b).
  { split; [reflexivity|]. split; [exact Hp|]. intros k d E v Hv.
    unfold digits_only in Hdig. rewrite forallb_forall in Hdig.
    specialize (Hdig (k, d) (getitem_Ret_In _ _ _ E)). simpl in Hdig.
    rewrite forallb_forall in Hdig. apply contains_In. apply Hdig. exact Hv. }
  cut (exists b', hidden_single b generate_constraints = Ret b' /\ Inv b').
  { intros [b' [E [H1 [H2 _]]]]. exists b'. auto. }
  unfold hidden_single. apply (foldM_invariant Inv); [|exact HI].
  intros s g Hg Hs. unfold hidden_single_group.
  apply (foldM_invariant Inv); [|exact Hs].
  intros s2 digit Hd [Hk2 [Hp2 Hd2]]. unfold hidden_single_digit.
  assert (Hin : forall k, In k g -> In k (keys s2)).
  { intros k Hk. rewrite Hk2. eapply Hc; eassumption. }
  rewrite (hidden_single_scan_count s2 digit g (0, None) Hin). simpl.
  destruct (length (filter (fun k => contains digit (dom_of s2 k)) g) =? 1)
    eqn:L; [|exists s2; split; [reflexivity|repeat split; assumption]].
  destruct (filter (fun k => contains digit (dom_of s2 k)) g)
    as [|K [|K2 F]] eqn:EF; try discriminate.
  simpl. eexists. split; [reflexivity|].
  destruct (filter_single _ _ _ EF) as [HK [HfK Huniq]].
  destruct (groups_of_nine g Hg) as [Ng Lg].
  assert (Hsig : sigma K = digit).
  { assert (Hall : incl digits (map sigma g)).
    { apply NoDup_length_incl.
      - apply NoDup_map_distinct; [exact Ng|]. intros x y Hx Hy Hne.
        eapply Hsat; eassumption.
      - rewrite length_map, Lg. apply Nat.le_refl.
      - intros v Hv. apply in_map_iff in Hv. destruct Hv as [X [<- HX]].
        destruct (getitem_In s2 X (Hin X HX)) as [d Ed].
        apply (Hd2 X d Ed). apply (Hp2 X d Ed). }
    specialize (Hall digit Hd). apply in_map_iff in Hall.
    destruct Hall as [X [EX HX]].
    rewrite <- (Huniq X HX); [exact EX|].
    destruct (getitem_In s2 X (Hin X HX)) as [d Ed].
    unfold dom_of. rewrite Ed. apply contains_In. rewrite <- EX.
    apply (Hp2 X d Ed). }
  split; [|split].
  - rewrite keys_setitem by (apply Hin; exact HK). exact Hk2.
  - intros k d Ek. destruct (String.eqb_spec K k) as [E|Nk].
    + subst k. rewrite getitem_setitem_eq in Ek. inversion Ek; subst d.
      left. symmetry. exact Hsig.
    + rewrite getitem_setitem_neq in Ek by exact Nk. apply (Hp2 k d Ek).
  - intros k d Ek. destruct (String.eqb_spec K k) as [E|Nk].
    + subst k. rewrite getitem_setitem_eq in Ek. inversion Ek; subst d.
      intros v [<-|[]]. exact Hd.
    + rewrite getitem_setitem_neq in Ek by exact Nk. apply (Hd2 k d Ek).
Qed.

(** X10. The local rules keep every solution.  On a board of the 81 cells,
    an assignment that picks a value from every domain and gives different
    values to the cells of each group still picks from every domain after a
    pass of [naked_single]; and after a pass of [hidden_single] too, when
    every candidate of the board is one of the digits 1 to 9. *)
Theorem local_rules_keep_solutions (b : Board) (sigma : Var -> Value) :
  board_ok b ->
  chooses sigma b = true ->
  satisfies sigma generate_constraints = true ->
  (exists b', naked_single b generate_constraints = Ret b' /\
              chooses sigma b' = true) /\
  (digits_only b = true ->
   exists b', hidden_single b generate_constraints = Ret b' /\
              chooses sigma b' = true).
Proof.
  intros Hok Hch Hsat. pose proof (chooses_spec _ _ Hch) as Hp.
  destruct (board_ok_keys b Hok) as [Hnd _]. split.
  - destruct (naked_single_keeps _ sigma b (board_ok_covers b Hok) Hsat Hp)
      as [b' [E [Hk Hp']]].
    exists b'. split; [exact E|]. apply chooses_intro; [|exact Hp'].
    rewrite Hk. exact Hnd.
  - intros Hdig.
    destruct (hidden_single_keeps sigma b Hok Hdig Hsat Hp) as [b' [E [Hk Hp']]].
    exists b'. split; [exact E|]. apply chooses_intro; [|exact Hp'].
    rewrite Hk. exact Hnd.
Qed.

Lemma local_rules_keep_solutions_witness :
  (exists b', naked_single example_board generate_constraints = Ret b' /\
              chooses (assignment_of example_solution) b' = true) /\
  (exists b', hidden_single example_board generate_constraints = Ret b' /\
              chooses (assignment_of example_solution) b' = true).
Proof.
  destruct (local_rules_keep_solutions example_board
              (assignment_of example_solution)) as [H1 H2];
    [vm_compute; reflexivity|vm_compute; reflexivity|vm_compute; reflexivity|].
  split; [exact H1|]. apply H2. vm_compute. reflexivity.
Defined.

(** X11. [hidden_single] only ever fixes a cell to one of its own
    candidates: on a board of the 81 cells, after a pass every cell has the
    domain it had or a single candidate of it, so no domain that had a
    candidate is left empty. *)
Theorem hidden_single_fixes_candidates (b : Board) :
  board_ok b ->
  exists b', hidden_single b generate_constraints = Ret b' /\
    forall k d, getitem b k = Ret d ->
      exists d', getitem b' k = Ret d' /\
                 (d' = d \/ exists v, In v d /\ d' = [v]) /\
                 (d <> [] -> d' <> []).
Proof.
  intros Hok. pose proof (board_ok_covers b Hok) as Hc.
  set (Inv := fun s : Board =>
         keys s = keys b /\
         forall k d, getitem b k = Ret d ->
           exists d', getitem s k = Ret d' /\
                      (d' = d \/ exists v, In v d /\ d' = [v])).
  assert (HI : Inv b).
  { split; [reflexivity|]. intros k d E. exists d. auto. }
  cut (exists b', hidden_single b generate_constraints = Ret b' /\ Inv b').
  { intros [b' [E [_ H]]]. exists b'. split; [exact E|]. intros k d Ek.
    destruct (H k d Ek) as [d' [Ed' Hd']]. exists d'.
    split; [exact Ed'|]. split; [exact Hd'|].
    destruct Hd' as [->|[v [_ ->]]]; [auto|discriminate]. }
  unfold hidden_single. apply (foldM_invariant Inv); [|exact HI].
  intros s g Hg Hs. unfold hidden_single_group.
  apply (foldM_invariant Inv); [|exact Hs].
  intros s2 digit _ [Hk2 Hq2]. unfold hidden_single_digit.
  assert (Hin : forall k, In k g -> In k (keys s2)).
  { intros k Hk. rewrite Hk2. eapply Hc; eassumption. }
  rewrite (hidden_single_scan_count s2 digit g (0, None) Hin). simpl.
  destruct (length (filter (fun k => contains digit (dom_of s2 k)) g) =? 1)
    eqn:L; [|exists s2; split; [reflexivity|split; assumption]].
  destruct (filter (fun k => contains digit (dom_of s2 k)) g)
    as [|K [|K2 F]] eqn:EF; try discriminate.
  simpl. eexists. split; [reflexivity|].
  destruct (filter_single _ _ _ EF) as [HK [HfK _]].
  split.
  - rewrite keys_setitem by (apply Hin; exact HK). exact Hk2.
  - intros k d Ek. destruct (Hq2 k d Ek) as [d' [Ed' Hd']].
    destruct (String.eqb_spec K k) as [E|Nk].
    + subst k. rewrite getitem_setitem_eq. exists [digit].
      split; [reflexivity|]. right. exists digit. split; [|reflexivity].
      unfold dom_of in HfK. rewrite Ed' in HfK. apply contains_In in HfK.
      destruct Hd' as [->|[v [Hv ->]]]; [exact HfK|].
      destruct HfK as [<-|[]]. exact Hv.
    + rewrite getitem_setitem_neq by exact Nk. exists d'. auto.
Qed.

Lemma hidden_single_fixes_candidates_witness :
  exists b', hidden_single hidden_board generate_constraints = Ret b' /\
    exists d', getitem b' "A1" = Ret d' /\ d' <> [].
Proof.
  destruct (hidden_single_fixes_candidates hidden_board) as [b' [E H]];
    [vm_compute; reflexivity|].
  exists b'. split; [exact E|].
  destruct (H "A1" ["1"; "2"]) as [d' [Ed' [_ Hne]]]; [reflexivity|].
  exists d'. split; [exact Ed'|]. apply Hne. discriminate.
Defined.

Lemma getitem_cases b k :
  (exists d, getitem b k = Ret d) \/ getitem b k = Raise KeyError.
Proof.
  destruct (in_dec string_dec k (keys b)) as [H|H].
  - left. apply getitem_In. exact H.
  - right. apply getitem_missing. exact H.
Qed.

Lemma foldM_ret_or_raise {A S} (P : S -> Prop) (f : S -> A -> outcome S) l e :
  (forall s a, In a l -> P s ->
     (exists s', f s a = Ret s' /\ P s') \/ f s a = Raise e) ->
  forall s, P s ->
    (exists s', foldM f l s = Ret s' /\ P s') \/ foldM f l s = Raise e.
Proof.
  induction l as [|a l IH]; intros Hf s Hs; simpl.
  - left. eauto.
  - destruct (Hf s a (or_introl eq_refl) Hs) as [[s1 [E1 P1]]|E1];
      rewrite E1; simpl; [|right; reflexivity].
    apply IH; [|exact P1]. intros s2 a2 Hin. apply Hf. right. exact Hin.
Qed.

Lemma foldM_raises {A S} (P : S -> Prop) (f : S -> A -> outcome S) l e :
  (forall s a, In a l -> P s ->
     (exists s', f s a = Ret s' /\ P s') \/ f s a = Raise e) ->
  (exists a, In a l /\ forall s, P s -> f s a = Raise e) ->
  forall s, P s -> foldM f l s = Raise e.
Proof.
  induction l as [|a l IH]; intros Hf [x [Hx Hr]] s Hs; simpl.
  - contradiction.
  - destruct (Hf s a (or_introl eq_refl) Hs) as [[s1 [E1 P1]]|E1];
      rewrite E1; simpl; [|reflexivity].
    apply IH; [| |exact P1].
    + intros s2 a2 Hin. apply Hf. right. exact Hin.
    + destruct Hx as [->|Hx]; [|eauto].
      rewrite (Hr s Hs) in E1. discriminate E1.
Qed.

Lemma naked_single_var_outcome g s K :
  ((exists s', naked_single_var g s K = Ret s' /\ keys s' = keys s) \/
   naked_single_var g s K = Raise KeyError) /\
  (~ In K (keys s) -> naked_single_var g s K = Raise KeyError).
Proof.
  unfold naked_single_var. split.
  - destruct (getitem_cases s K) as [[d Ed]|Ed]; rewrite Ed; simpl;
      [|right; reflexivity].
    destruct (length d =? 1) eqn:L; [|left; eauto].
    destruct d as [|v [|w d]]; try discriminate.
    destruct (foldM_ret_or_raise
                (fun t => keys t = keys s /\ getitem t K = Ret [v])
                (naked_single_delete K) g KeyError) with (s := s)
      as [[t [Et [Ht _]]]|Et]; [|auto|left; eauto|right; exact Et].
    intros t X _ [Hkt EK]. unfold naked_single_delete.
    destruct (String.eqb_spec X K) as [E|N]; simpl; [left; eauto|].
    destruct (getitem_cases t X) as [[target ET]|ET]; rewrite ET; simpl;
      [|right; reflexivity].
    rewrite EK. simpl. left. eexists. split; [reflexivity|]. split.
    + rewrite keys_setitem by (eapply getitem_Ret_key; exact ET). exact Hkt.
    + rewrite getitem_setitem_neq by exact N. exact EK.
  - intros H. rewrite (getitem_missing _ _ H). reflexivity.
Qed.

Lemma naked_single_missing cs b g k :
  In g cs -> In k g -> ~ In k (keys b) -> naked_single b cs = Raise KeyError.
Proof.
  intros Hg Hk Hmiss. unfold naked_single.
  assert (Hgroup : forall s g0, keys s = keys b ->
            (exists s', naked_single_group s g0 = Ret s' /\ keys s' = keys b) \/
            naked_single_group s g0 = Raise KeyError).
  { intros s g0 Hs. unfold naked_single_group.
    apply (foldM_ret_or_raise (fun t => keys t = keys b)); [|exact Hs].
    intros t K _ Ht.
    destruct (proj1 (naked_single_var_outcome g0 t K)) as [[t' [E Hk']]|E];
      [left|right; exact E].
    exists t'. split; [exact E|]. rewrite Hk'. exact Ht. }
  apply (foldM_raises (fun s => keys s = keys b)); [| |reflexivity].
  - intros s g0 _ Hs. apply Hgroup. exact Hs.
  - exists g. split; [exact Hg|]. intros s Hs. unfold naked_single_group.
    apply (foldM_raises (fun t => keys t = keys b)); [| |exact Hs].
    + intros t K _ Ht.
      destruct (proj1 (naked_single_var_outcome g t K)) as [[t' [E Hk']]|E];
        [left|right; exact E].
      exists t'. split; [exact E|]. rewrite Hk'. exact Ht.
    + exists k. split; [exact Hk|]. intros t Ht.
      apply naked_single_var_outcome. rewrite Ht. exact Hmiss.
Qed.

Lemma hidden_single_digit_outcome g s digit :
  ((exists s', hidden_single_digit g s digit = Ret s' /\ keys s' = keys s) \/
   hidden_single_digit g s digit = Raise KeyError) /\
  ((exists k, In k g /\ ~ In k (keys s)) ->
   hidden_single_digit g s digit = Raise KeyError).
Proof.
  assert (Hstep : forall (st : nat * option Var) K,
            (forall k, snd st = Some k -> In k (keys s)) ->
            (exists st', hidden_single_scan s digit st K = Ret st' /\
                         forall k, snd st' = Some k -> In k (keys s)) \/
            hidden_single_scan s digit st K = Raise KeyError).
  { intros st K Hst. unfold hidden_single_scan.
    destruct (getitem_cases s K) as [[d Ed]|Ed]; rewrite Ed; simpl;
      [|right; reflexivity].
    left. destruct (contains digit d); eexists; (split; [reflexivity|]).
    - simpl. intros k Ek. inversion Ek; subst.
      eapply getitem_Ret_key; exact Ed.
    - exact Hst. }
  unfold hidden_single_digit. split.
  - destruct (foldM_ret_or_raise
                (fun st : nat * option Var =>
                   forall k, snd st = Some k -> In k (keys s))
                (hidden_single_scan s digit) g KeyError) with (s := (0, @None Var))
      as [[st [Est Hst]]|Est].
    + intros st K _ Hst. apply Hstep. exact Hst.
    + simpl. discriminate.
    + rewrite Est. simpl. destruct (fst st =? 1); [|left; eauto].
      destruct (snd st) as [K|] eqn:EK; [|left; eauto].
      left. eexists. split; [reflexivity|]. apply keys_setitem. auto.
    + rewrite Est. right. reflexivity.
  - intros [k [Hk Hmiss]].
    rewrite (foldM_raises
               (fun st : nat * option Var =>
                  forall k, snd st = Some k -> In k (keys s))
               (hidden_single_scan s digit) g KeyError); [reflexivity| | |].
    + intros st K _ Hst. apply Hstep. exact Hst.
    + exists k. split; [exact Hk|]. intros st _. unfold hidden_single_scan.
      rewrite (getitem_missing _ _ Hmiss). reflexivity.
    + simpl. discriminate.
Qed.

Lemma hidden_single_missing cs b g k :
  In g cs -> In k g -> ~ In k (keys b) -> hidden_single b cs = Raise KeyError.
Proof.
  intros Hg Hk Hmiss. unfold hidden_single.
  assert (Hdigit : forall g0 s digit, keys s = keys b ->
            (exists s', hidden_single_digit g0 s digit = Ret s' /\
                        keys s' = keys b) \/
            hidden_single_digit g0 s digit = Raise KeyError).
  { intros g0 s digit Hs.
    destruct (proj1 (hidden_single_digit_outcome g0 s digit)) as [[s' [E Hk']]|E];
      [left|right; exact E].
    exists s'. split; [exact E|]. rewrite Hk'. exact Hs. }
  apply (foldM_raises (fun s => keys s = keys b)); [| |reflexivity].
  - intros s g0 _ Hs. unfold hidden_single_group.
    apply (foldM_ret_or_raise (fun t => keys t = keys b)); [|exact Hs].
    intros t digit _ Ht. apply Hdigit. exact Ht.
  - exists g. split; [exact Hg|]. intros s Hs. unfold hidden_single_group.
    apply (foldM_raises (fun t => keys t = keys b)); [| |exact Hs].
    + intros t digit _ Ht. apply Hdigit. exact Ht.
    + exists "1". split; [left; reflexivity|]. intros t Ht.
      apply hidden_single_digit_outcome. exists k. split; [exact Hk|].
      rewrite Ht. exact Hmiss.
Qed.

(** X12. When the local rules raise.  [naked_single] and [hidden_single]
    return a board when the board has an entry for every cell that the
    groups name, and raise [KeyError] when some group names a cell that the
    board does not have; they raise nothing else. *)
Theorem local_rules_raise_KeyError (b : Board) (cs : Constraints) :
  (covers cs b ->
   (exists b', naked_single b cs = Ret b') /\
   (exists b', hidden_single b cs = Ret b')) /\
  (forall g k, In g cs -> In k g -> ~ In k (keys b) ->
     naked_single b cs = Raise KeyError /\
     hidden_single b cs = Raise KeyError).
Proof.
  split.
  - intros Hc. split.
    + destruct (naked_single_shrinks cs b Hc) as [b' [E _]]. eauto.
    + destruct (hidden_single_shrinks cs b Hc) as [b' [E _]]. eauto.
  - intros g k Hg Hk Hmiss. split.
    + eapply naked_single_missing; eassumption.
    + eapply hidden_single_missing; eassumption.
Qed.

Lemma local_rules_raise_KeyError_witness :
  naked_single (tl example_board) generate_constraints = Raise KeyError /\
  hidden_single (tl example_board) generate_constraints = Raise KeyError.
Proof.
  apply (proj2 (local_rules_raise_KeyError (tl example_board)
                  generate_constraints)
           (hd [] generate_constraints) "A1").
  - left. reflexivity.
  - left. reflexivity.
  - vm_compute. intros H. repeat (destruct H as [H|H]; [discriminate H|]).
    exact H.
Defined.

(** ** The heuristics *)

Lemma py_min_snoc {A} (key : A -> nat) l x :
  py_min key (l ++ [x])
  = match py_min key l with
    | None => Some x
    | Some m => if key x <? key m then Some x else Some m
    end.
Proof. unfold py_min. rewrite fold_left_app. reflexivity. Qed.

(** [min] answers the first of the elements whose key is least. *)
Lemma py_min_first {A} (key : A -> nat) l : forall v,
  py_min key l = Some v ->
  exists l1 l2, l = l1 ++ v :: l2 /\
                (forall w, In w l1 -> key v < key w) /\
                (forall w, In w l2 -> key v <= key w).
Proof.
  induction l as [|x l IH] using rev_ind; intros v H; [discriminate|].
  rewrite py_min_snoc in H. destruct (py_min key l) as [m|] eqn:E.
  - destruct (IH m eq_refl) as [l1 [l2 [El [H1 H2]]]].
    destruct (key x <? key m) eqn:C; inversion H; subst v.
    + apply Nat.ltb_lt in C. exists l, []. split; [reflexivity|].
      split; [|intros w []]. intros w Hw. rewrite El in Hw.
      apply in_app_or in Hw. destruct Hw as [Hw|[<-|Hw]].
      * specialize (H1 w Hw). lia.
      * exact C.
      * specialize (H2 w Hw). lia.
    + apply Nat.ltb_ge in C. exists l1, (l2 ++ [x]).
      split; [rewrite El, <- app_assoc; reflexivity|].
      split; [exact H1|]. intros w Hw. apply in_app_or in Hw.
      destruct Hw as [Hw|[<-|[]]]; [auto|exact C].
  - apply py_min_None in E. subst l. inversion H; subst v.
    exists [], []. split; [reflexivity|]. split; intros w [].
Qed.

Lemma py_max_constant {A} (key : A -> nat) c l :
  (forall x, In x l -> key x = c) -> py_max key l = hd_error l.
Proof.
  unfold py_max. destruct l as [|m l]; [reflexivity|]. intros H. simpl.
  assert (Hm : key m = c) by (apply H; left; reflexivity).
  assert (Hl : forall x, In x l -> key x = c) by (intros x Hx; apply H; right; exact Hx).
  clear H. induction l as [|y l IH]; simpl; [reflexivity|].
  rewrite Hm, (Hl y (or_introl eq_refl)), Nat.ltb_irrefl.
  apply IH. intros x Hx. apply Hl. right. exact Hx.
Qed.

Lemma degree_of_cell : forall c, In c cells -> degree generate_constraints c = 3.
Proof.
  assert (H : forallb (fun c => degree generate_constraints c =? 3) cells = true)
    by (vm_compute; reflexivity).
  rewrite forallb_forall in H. intros c Hc. apply Nat.eqb_eq. apply H. exact Hc.
Qed.

(** X13. The cell that [mrv] answers is the first, in the order of the
    dict, of the undecided cells with the fewest candidates: every
    undecided cell before it has more candidates, and no undecided cell
    after it has fewer. *)
Theorem mrv_first_smallest (b : Board) (v : Var) :
  mrv b = Some v ->
  exists l1 l2,
    unassigned b = l1 ++ v :: l2 /\
    1 < len_at b v /\
    (forall w, In w l1 -> len_at b v < len_at b w) /\
    (forall w, In w l2 -> len_at b v <= len_at b w).
Proof.
  intros H. unfold mrv in H.
  destruct (py_min_first _ _ v H) as [l1 [l2 [El [H1 H2]]]].
  exists l1, l2. split; [exact El|]. split; [|split; assumption].
  assert (Hin : In v (unassigned b)).
  { rewrite El. apply in_or_app. right. left. reflexivity. }
  unfold unassigned in Hin. apply filter_In in Hin.
  apply Nat.ltb_lt. apply Hin.
Qed.

Lemma mrv_first_smallest_witness :
  exists l2,
    unassigned (board_of_lines (["123"; "12"; "45"] ++ repeat "123456789" 78))
    = ["A1"] ++ "A2" :: l2.
Proof.
  destruct (mrv_first_smallest
              (board_of_lines (["123"; "12"; "45"] ++ repeat "123456789" 78))
              "A2") as [l1 [l2 [E [_ [H1 _]]]]];
    [vm_compute; reflexivity|].
  exists l2. rewrite E. destruct l1 as [|x [|y l1]].
  - vm_compute in E. discriminate E.
  - vm_compute in E. inversion E. reflexivity.
  - exfalso. vm_compute in E. inversion E as [[Ex Ey]].
    specialize (H1 y (or_intror (or_introl eq_refl))). rewrite <- Ey in H1.
    vm_compute in H1. apply (Nat.lt_irrefl _ H1).
Defined.

(** X14. The degree heuristic does not rank the cells: every cell lies in
    three groups, so on a board of the 81 cells [degree_heuristic] answers
    the first undecided cell in the order of the dict, whatever the
    domains. *)
Theorem degree_heuristic_is_first (b : Board) :
  board_ok b ->
  degree_heuristic b generate_constraints = hd_error (unassigned b).
Proof.
  intros Hok. unfold degree_heuristic. apply (py_max_constant _ 3).
  intros x Hx. apply degree_of_cell. apply (board_ok_keys b Hok).
  unfold unassigned in Hx. apply filter_In in Hx. apply Hx.
Qed.

Lemma degree_heuristic_is_first_witness :
  degree_heuristic example_board generate_constraints = Some "A1".
Proof.
  rewrite (degree_heuristic_is_first example_board); [|vm_compute; reflexivity].
  vm_compute. reflexivity.
Defined.

(** ** The groups *)

(** X15. What [generate_constraints] builds: 27 groups of nine different
    cells each, all of them among the 81 cells; every cell lies in exactly
    three groups and shares a group with exactly 20 other cells. *)
Theorem generate_constraints_structure :
  length generate_constraints = 27 /\
  (forall g, In g generate_constraints ->
     NoDup g /\ length g = 9 /\ incl g cells) /\
  (forall c, In c cells ->
     degree generate_constraints c = 3 /\
     length (filter (fun c' => negb (c' =? c)%string
                               && linked generate_constraints c c') cells)
     = 20).
Proof.
  split; [reflexivity|]. split.
  - intros g Hg. destruct (groups_of_nine g Hg) as [H1 H2].
    split; [exact H1|]. split; [exact H2|].
    intros k Hk. eapply generate_constraints_cells; eassumption.
  - assert (H : forallb (fun c =>
                  (degree generate_constraints c =? 3)
                  && (length (filter (fun c' => negb (c' =? c)%string
                                && linked generate_constraints c c') cells)
                      =? 20)) cells = true)
      by (vm_compute; reflexivity).
    rewrite forallb_forall in H. intros c Hc. specialize (H c Hc).
    apply andb_true_iff in H. destruct H as [H1 H2].
    split; apply Nat.eqb_eq; assumption.
Qed.

Lemma generate_constraints_structure_witness :
  degree generate_constraints "E5" = 3 /\
  length (filter (fun c' => negb (c' =? "E5")%string
                            && linked generate_constraints "E5" c') cells)
  = 20.
Proof.
  apply (proj2 (proj2 generate_constraints_structure) "E5").
  vm_compute. do 40 right. left. reflexivity.
Defined.

(** ** Reading and printing *)

Lemma dedup_In x l : In x (dedup l) <-> In x l.
Proof.
  induction l as [|y l IH]; simpl; [reflexivity|].
  rewrite filter_In, IH, negb_true_iff, String.eqb_neq.
  destruct (string_dec y x) as [E|N]; [tauto|].
  split; [tauto|]. intros [H|H]; [contradiction|]. right. split; congruence.
Qed.

Lemma dedup_NoDup l : NoDup (dedup l).
Proof.
  induction l as [|y l IH]; simpl; constructor.
  - rewrite filter_In, negb_true_iff, String.eqb_neq. tauto.
  - apply NoDup_filter. exact IH.
Qed.

Lemma parse_cell_NoDup options : NoDup (parse_cell options).
Proof.
  unfold parse_cell. destruct (1 <? String.length options).
  - apply dedup_NoDup.
  - constructor; [intros []|constructor].
Qed.

Lemma parse_cell_nonempty options : parse_cell options <> [].
Proof.
  unfold parse_cell. destruct (1 <? String.length options) eqn:L; [|discriminate].
  destruct options as [|a options]; [discriminate L|]. discriminate.
Qed.

Lemma keys_combine {A} (l1 : list Var) (l2 : list A) :
  length l1 <= length l2 -> map fst (combine l1 l2) = l1.
Proof.
  revert l2. induction l1 as [|x l1 IH]; intros [|y l2] H; simpl in *;
    try reflexivity; [lia|].
  f_equal. apply IH. lia.
Qed.

Lemma nth_error_combine {A B} (l1 : list A) (l2 : list B) i x y :
  nth_error l1 i = Some x -> nth_error l2 i = Some y ->
  nth_error (combine l1 l2) i = Some (x, y).
Proof.
  revert l2 i. induction l1 as [|a l1 IH]; intros [|c l2] [|i] H1 H2;
    simpl in *; try discriminate.
  - inversion H1; inversion H2; reflexivity.
  - apply IH; assumption.
Qed.

Lemma board_of_lines_ok ls :
  length ls = 81 ->
  keys (board_of_lines ls) = cells /\
  board_ok (board_of_lines ls) /\
  no_empty_domain (board_of_lines ls) = true.
Proof.
  intros H.
  assert (Hk : keys (board_of_lines ls) = cells).
  { unfold keys, board_of_lines. apply keys_combine.
    rewrite length_map, H. vm_compute. lia. }
  assert (Hin : forall kv, In kv (board_of_lines ls) ->
                           exists l, snd kv = parse_cell l).
  { intros [k d] Hkv. unfold board_of_lines in Hkv. apply in_combine_r in Hkv.
    apply in_map_iff in Hkv. destruct Hkv as [l [E _]]. exists l. auto. }
  split; [exact Hk|]. split.
  - unfold board_ok, board_okb. rewrite Hk.
    replace (nodupb cells) with true by (vm_compute; reflexivity).
    replace (forallb (fun k => contains k cells) cells) with true
      by (vm_compute; reflexivity).
    cbn [andb]. apply forallb_forall. intros kv Hkv.
    destruct (Hin kv Hkv) as [l El]. destruct kv as [k d].
    simpl in El |- *. subst d. apply nodupb_NoDup, parse_cell_NoDup.
  - unfold no_empty_domain. apply forallb_forall. intros kv Hkv.
    destruct (Hin kv Hkv) as [l El]. destruct kv as [k d].
    simpl in El |- *. subst d. apply Nat.ltb_lt.
    pose proof (parse_cell_nonempty l). destruct (parse_cell l); simpl; [congruence|lia].
Qed.

Lemma read_board_81 lines :
  length lines = 81 -> read_board lines = inr (board_of_lines (map strip lines)).
Proof.
  intros H.
  do 81 (destruct lines as [|? lines];
         [discriminate H|]; simpl in H; apply Nat.succ_inj in H).
  destruct lines; [|discriminate H]. reflexivity.
Qed.

(** X16. What [read_board] builds.  From a file whose number of lines is
    not 81 it raises [ValueError].  From 81 lines it returns the board that
    has the 81 cells in the order [A1], [A2], ... [I9], paired with the
    lines in their order, each stripped of surrounding white space; the
    board is well formed and none of its domains is empty.  It never raises
    [IndexError]. *)
Theorem read_board_builds_board (lines : list string) :
  (length lines <> 81 -> read_board lines = inl ValueError) /\
  (length lines = 81 ->
   exists b, read_board lines = inr b /\
             b = board_of_lines (map strip lines) /\
             keys b = cells /\
             board_ok b /\
             no_empty_domain b = true).
Proof.
  split.
  - intros H. unfold read_board. apply Nat.eqb_neq in H. rewrite H. reflexivity.
  - intros H. exists (board_of_lines (map strip lines)).
    split; [apply read_board_81; exact H|]. split; [reflexivity|].
    apply board_of_lines_ok. rewrite length_map. exact H.
Qed.

Lemma read_board_builds_board_witness :
  read_board (repeat newline 80) = inl ValueError /\
  exists b, read_board (map (fun l => (" " ++ l ++ newline)%string)
                            (grid_lines example_rows)) = inr b /\
            b = example_board.
Proof.
  split.
  - apply (read_board_builds_board (repeat newline 80)). vm_compute. discriminate.
  - destruct (proj2 (read_board_builds_board
                       (map (fun l => (" " ++ l ++ newline)%string)
                            (grid_lines example_rows))))
      as [b [E [Eb _]]]; [vm_compute; reflexivity|].
    exists b. split; [exact E|]. rewrite Eb. vm_compute. reflexivity.
Defined.

(** X17. The domain that [read_board] gives a cell.  The cell of line [i]
    holds what is left of the line after stripping: the different
    characters of a line of two or more characters, and the line itself as
    the single candidate when it has one character or none; so a blank line
    gives a cell whose single candidate is the empty string. *)
Theorem read_board_cell (lines : list string) (b : Board) (i : nat)
    (line : string) :
  read_board lines = inr b ->
  nth_error lines i = Some line ->
  exists cell d,
    nth_error cells i = Some cell /\
    getitem b cell = Ret d /\
    NoDup d /\
    (1 < String.length (strip line) ->
     forall v, In v d <->
       exists a, In a (list_ascii_of_string (strip line)) /\
                 v = String a EmptyString) /\
    (String.length (strip line) <= 1 -> d = [strip line]).
Proof.
  intros E Hi.
  assert (H : length lines = 81).
  { unfold read_board in E. destruct (length lines =? 81) eqn:L;
      [apply Nat.eqb_eq; exact L|discriminate E]. }
  rewrite (read_board_81 lines H) in E. inversion E; subst b. clear E.
  assert (Hlt : i < length cells).
  { replace (length cells) with 81 by (vm_compute; reflexivity).
    rewrite <- H. apply nth_error_Some. rewrite Hi. discriminate. }
  destruct (nth_error cells i) as [cell|] eqn:Ec;
    [|apply nth_error_None in Ec; lia].
  exists cell, (parse_cell (strip line)). split; [reflexivity|].
  destruct (board_of_lines_ok (map strip lines)) as [Hk [Hok _]];
    [rewrite length_map; exact H|].
  split; [|split; [apply parse_cell_NoDup|split]].
  - apply In_getitem; [apply (board_ok_keys _ Hok)|].
    apply (nth_error_In _ i). unfold board_of_lines.
    apply nth_error_combine; [exact Ec|].
    rewrite !nth_error_map, Hi. reflexivity.
  - intros L v. unfold parse_cell. apply Nat.ltb_lt in L. rewrite L.
    rewrite dedup_In. unfold chars. rewrite in_map_iff.
    split; intros [a [H1 H2]]; exists a; auto.
  - intros L. unfold parse_cell. apply Nat.ltb_ge in L. rewrite L. reflexivity.
Qed.

Lemma read_board_cell_witness :
  exists d, getitem (board_of_lines (repeat "" 81)) "B3" = Ret d /\ d = [""].
Proof.
  destruct (read_board_cell (repeat (" " ++ newline)%string 81)
              (board_of_lines (repeat "" 81)) 11 (" " ++ newline)%string)
    as [cell [d [Ec [Ed [_ [_ H]]]]]];
    [vm_compute; reflexivity|reflexivity|].
  inversion Ec; subst cell. exists d. split; [exact Ed|].
  apply H. vm_compute. lia.
Defined.

Lemma filter_nil_iff {A} (f : A -> bool) l :
  filter f l = [] <-> forall x, In x l -> f x = false.
Proof.
  induction l as [|y l IH]; simpl.
  - split; [intros _ x []|reflexivity].
  - destruct (f y) eqn:E.
    + split; [discriminate|]. intros H. specialize (H y (or_introl eq_refl)).
      congruence.
    + rewrite IH. split.
      * intros H x [<-|Hx]; auto.
      * intros H x Hx. apply H. right. exact Hx.
Qed.

Lemma print_field_parse_cell options :
  print_field (parse_cell options) = shown options.
Proof.
  destruct options as [|c [|c2 rest]]; try reflexivity.
  unfold parse_cell, shown.
  change (1 <? String.length (String c (String c2 rest))) with true.
  cbv iota. set (r := String c2 rest).
  change (chars (String c r))
    with (String c EmptyString :: chars r).
  cbn [dedup]. unfold print_field. cbn [length].
  destruct (forallb (Ascii.eqb c) (list_ascii_of_string r)) eqn:F.
  - assert (E : filter (fun y => negb (y =? String c EmptyString)%string)
                       (dedup (chars r)) = []).
    { apply filter_nil_iff. intros x Hx. apply (proj1 (dedup_In _ _)) in Hx.
      unfold chars in Hx. apply in_map_iff in Hx. destruct Hx as [a [<- Ha]].
      rewrite forallb_forall in F. specialize (F a Ha).
      apply Ascii.eqb_eq in F. subst a. rewrite String.eqb_refl. reflexivity. }
    rewrite E. reflexivity.
  - destruct (filter (fun y => negb (y =? String c EmptyString)%string)
                     (dedup (chars r))) as [|y l] eqn:E; [|reflexivity].
    exfalso. rewrite filter_nil_iff in E.
    assert (F' : forallb (Ascii.eqb c) (list_ascii_of_string r) = true).
    { apply forallb_forall. intros a Ha. apply Ascii.eqb_eq.
      assert (Hin : In (String a EmptyString) (dedup (chars r))).
      { apply (proj2 (dedup_In _ _)). unfold chars.
        apply (in_map (fun c0 => String c0 EmptyString)). exact Ha. }
      specialize (E _ Hin). apply negb_false_iff, String.eqb_eq in E.
      inversion E. reflexivity. }
    congruence.
Qed.

Lemma print_board_of_domains (ds : list Domain) :
  length ds = 81 ->
  print_board (combine cells ds)
  = (grid_text (map print_field ds), Ret tt).
Proof.
  intros H.
  do 81 (destruct ds as [|? ds];
         [discriminate H|]; simpl in H; apply Nat.succ_inj in H).
  destruct ds; [|discriminate H]. reflexivity.
Qed.

(** X18. Reading and then printing, as [main] does with the file it is
    given.  For a board that [read_board] returns, [print_board] returns
    after writing nine rows of nine fields, each field followed by a space
    and each row by a new line; the field of a line is the line itself,
    stripped, when it has at most one character (so nothing for a blank
    line), its character when it repeats one character, and a dot
    otherwise. *)
Theorem print_board_after_read_board (lines : list string) (b : Board) :
  read_board lines = inr b ->
  print_board b = (grid_text (map (fun l => shown (strip l)) lines), Ret tt).
Proof.
  intros E.
  assert (H : length lines = 81).
  { unfold read_board in E. destruct (length lines =? 81) eqn:L;
      [apply Nat.eqb_eq; exact L|discriminate E]. }
  rewrite (read_board_81 lines H) in E. inversion E; subst b. clear E.
  unfold board_of_lines. rewrite print_board_of_domains
    by (rewrite !length_map; exact H).
  rewrite !map_map. f_equal. f_equal. apply map_ext. intros l.
  apply print_field_parse_cell.
Qed.

Lemma print_board_after_read_board_witness :
  fst (print_board (board_of_lines (["1"; ""; "22"; "23"] ++ repeat "5" 77)))
  = grid_text (["1"; ""; "2"; "."] ++ repeat "5" 77).
Proof.
  rewrite (print_board_after_read_board
             (map (fun l => (l ++ newline)%string)
                  (["1"; ""; "22"; "23"] ++ repeat "5" 77))
             (board_of_lines (["1"; ""; "22"; "23"] ++ repeat "5" 77)));
    [|vm_compute; reflexivity].
  vm_compute. reflexivity.
Defined.



Lemma In_cells c :
  In c cells <-> exists r col, In r rows /\ In col columns /\ c = (r ++ col)%string.
Proof.
  unfold cells. rewrite in_flat_map. split.
  - intros [r [Hr Hc]]. apply in_map_iff in Hc. destruct Hc as [col [E Hcol]].
    exists r, col. auto.
  - intros [r [col [Hr [Hcol E]]]]. exists r. split; [exact Hr|].
    apply in_map_iff. exists col. auto.
Qed.



Lemma print_row_complete b (sigma : Var -> Value) row cols :
  (forall c, In c cols ->
     getitem b (row ++ c)%string = Ret [sigma (row ++ c)%string]) ->
  print_row b row cols
  = (map (fun c => (sigma (row ++ c) ++ " ")%string) cols ++ [newline], Ret tt).
Proof.
  induction cols as [|c cols IH]; intros H; [reflexivity|].
  cbn [print_row]. rewrite (H c (or_introl eq_refl)).
  rewrite IH by (intros x Hx; apply H; right; exact Hx). reflexivity.
Qed.

Lemma print_rows_complete b (sigma : Var -> Value) rws :
  (forall r c, In r rws -> In c columns ->
     getitem b (r ++ c)%string = Ret [sigma (r ++ c)%string]) ->
  print_rows b rws
  = (flat_map (fun r =>
       map (fun c => (sigma (r ++ c) ++ " ")%string) columns ++ [newline]) rws,
     Ret tt).
Proof.
  induction rws as [|r rws IH]; intros H; [reflexivity|].
  cbn [print_rows flat_map].
  rewrite (print_row_complete b sigma r columns)
    by (intros c Hc; apply H; [left; reflexivity|exact Hc]).
  rewrite IH by (intros r0 c0 Hr0 Hc0; apply H; [right; exact Hr0|exact Hc0]).
  reflexivity.
Qed.

(** X20. Printing what [solve] answers, as [main] does.  A board that
    [solve] answers on a board of the 81 cells is printed in full: nine
    rows of nine fields, each field the value of its cell, none a dot. *)
Theorem print_board_of_solution (fuel : nat) (b s : Board) :
  board_ok b ->
  solve fuel b generate_constraints = Ret (Some s) ->
  print_board s = (grid_text (map (assignment_of s) cells), Ret tt).
Proof.
  intros Hok E.
  assert (H : is_board_complete s = true /\ keys s = keys b).
  { destruct (is_board_complete b) eqn:C.
    - destruct fuel as [|fuel]; [discriminate E|]. cbn [solve] in E.
      rewrite C in E. inversion E; subst s. auto.
    - destruct (solve_sound fuel b s Hok) as [Hs [Hc _]];
        [congruence|exact E|].
      split; [exact Hc|apply shrinks_keys; exact Hs]. }
  destruct H as [Hc Hk]. unfold print_board.
  rewrite (print_rows_complete s (assignment_of s)); [reflexivity|].
  intros r c Hr Hcol.
  destruct (complete_single s (r ++ c)%string Hc) as [v [Ev Av]].
  - rewrite Hk. apply (board_ok_keys b Hok). apply In_cells. exists r, c. auto.
  - rewrite Av. exact Ev.
Qed.

Lemma print_board_of_solution_witness :
  print_board example_solution
  = (grid_text (map (assignment_of example_solution) cells), Ret tt).
Proof.
  apply (print_board_of_solution (solve_fuel example_board) example_board).
  - vm_compute. reflexivity.
  - vm_compute. reflexivity.
Defined.

(** ** The store *)



Lemma h_try_values_fresh search cs b var n :
  (forall b1 h1 s h', search b1 h1 = Ret (Some s, h') ->
     s = b1 \/ forall l, In l (locs s) -> length h1 <= l) ->
  (forall b1 h1 res h', search b1 h1 = Ret (res, h') -> ext (length h1) h1 h') ->
  forall values h s h',
    n <= length h ->
    h_try_values search b cs var values h = Ret (Some s, h') ->
    forall l, In l (locs s) -> n <= l.
Proof.
  intros Hres Hsearch.
  induction values as [|value vs IHv]; intros h s h' Hn H; simpl in H.
  - apply ret_Ret in H. destruct H as [H _]. discriminate H.
  - inv_bind H as bc h2 E2. inv_bind H as s0 h3 E3. inv_bind H as ok h4 E4.
    destruct (h_copy_board_fresh b n _ _ _ _ Hn E2) as [Hext1 Hlocs].
    apply alloc_ext in E3. destruct E3 as [-> [Hlen2 Hext2]].
    apply h_ac3_touched in E4. pose proof (proj1 Hext1) as Hle1.
    pose proof (proj1 E4) as Hlen4.
    assert (Hbc : forall l, In l (locs (h_setitem bc var (length h2))) -> n <= l).
    { intros l Hl. apply locs_h_setitem in Hl.
      destruct Hl as [->|Hl]; [lia|auto]. }
    destruct ok.
    + inv_bind H as solution h5 E5.
      pose proof (Hsearch _ _ _ _ E5) as Hext5. pose proof (proj1 Hext5) as Hle5.
      destruct (truthy_hboard solution) eqn:T.
      * apply ret_Ret in H. destruct H as [H ->]. subst solution.
        destruct (Hres _ _ _ _ E5) as [->|Hfresh]; [exact Hbc|].
        intros l Hl. specialize (Hfresh l Hl). lia.
      * eapply IHv; [|exact H]. lia.
    + eapply IHv; [|exact H]. lia.
Qed.

Lemma h_solve_fresh cs fuel : forall b h s h',
  h_solve fuel b cs h = Ret (Some s, h') ->
  (is_board_complete (view b h) = true /\ s = b /\ h' = h) \/
  (is_board_complete (view b h) = false /\
   forall l, In l (locs s) -> length h <= l).
Proof.
  induction fuel as [|fuel IH]; intros b h s h' H; simpl in H; [discriminate|].
  inv_bind H as complete h1 E1. rewrite h_is_board_complete_view in E1.
  inversion E1; subst complete h1. clear E1.
  destruct (is_board_complete (view b h));
    [apply ret_Ret in H; destruct H as [H ->]; inversion H; subst; left; auto|].
  right. split; [reflexivity|].
  inv_bind H as m h2 E2. apply h_mrv_pure in E2. subst h2.
  inv_bind H as ovar h3 E3.
  assert (h3 = h).
  { destruct (truthy_var m); [inv_ret E3; reflexivity|].
    eapply h_degree_heuristic_pure. exact E3. }
  subst h3. clear E3.
  destruct (negb (truthy_var ovar));
    [apply ret_Ret in H; destruct H as [H _]; discriminate H|].
  destruct ovar as [var|];
    [|apply ret_Ret in H; destruct H as [H _]; discriminate H].
  inv_bind H as l0 h4 E4. apply h_lookup_Ret in E4. destruct E4 as [-> _].
  inv_bind H as values h5 E5. apply read_Ret in E5. destruct E5 as [_ ->].
  eapply h_try_values_fresh; [| |apply Nat.le_refl|exact H].
  - intros b1 h1 s1 h1' E. destruct (IH _ _ _ _ E) as [[_ [-> _]]|[_ Hf]]; auto.
  - intros b1 h1 res1 h1'. apply h_solve_ext.
Qed.

(** X22. What the board that [solve] returns shares with the board it was
    given.  For a board of the 81 cells held in a store: on a complete board
    [solve] returns the very dict it was given and creates nothing; on any
    other board every set of the board it returns is an object created
    during the call, so none of them is a set of the board passed. *)
Theorem solve_result_is_fresh (fuel : nat) (b s : HBoard) (h h' : Heap) :
  store_ok b h ->
  h_solve fuel b generate_constraints h = Ret (Some s, h') ->
  (is_board_complete (view b h) = true -> s = b /\ h' = h) /\
  (is_board_complete (view b h) = false ->
   forall l, In l (locs s) -> length h <= l /\ ~ In l (locs b)).
Proof.
  intros Hok E. destruct (store_ok_hwf b h Hok) as [[_ [_ Hlt]] _].
  destruct (h_solve_fresh _ _ _ _ _ _ E) as [[C [-> ->]]|[C Hf]]; rewrite C.
  - split; [auto|discriminate].
  - split; [discriminate|]. intros _ l Hl. specialize (Hf l Hl).
    split; [exact Hf|]. intros Hin. specialize (Hlt l Hin). lia.
Qed.

Lemma solve_result_is_fresh_witness :
  exists s h',
    h_solve (solve_fuel example_board) (fst (store_board example_board))
            generate_constraints (snd (store_board example_board))
    = Ret (Some s, h') /\
    forall l, In l (locs s) -> 81 <= l.
Proof.
  destruct (h_solve (solve_fuel example_board) (fst (store_board example_board))
              generate_constraints (snd (store_board example_board)))
    as [[[s|] h']| |] eqn:E;
    [|vm_compute in E; discriminate E|vm_compute in E; discriminate E
     |vm_compute in E; discriminate E].
  exists s, h'. split; [reflexivity|]. intros l Hl.
  assert (Hok : store_ok (fst (store_board example_board))
                         (snd (store_board example_board)))
    by (vm_compute; reflexivity).
  destruct (solve_result_is_fresh (solve_fuel example_board)
              (fst (store_board example_board)) s
              (snd (store_board example_board)) h' Hok E) as [_ H].
  assert (C : is_board_complete
                (view (fst (store_board example_board))
                      (snd (store_board example_board))) = false)
    by (vm_compute; reflexivity).
  apply (H C l Hl).
Defined.
